(** * MongoStore: a two-tier (MongoDB + Redis) bot state store

    A shallow embedding of [src/mongoStore.ts].  The class [MongoStore] keeps
    bot state under string keys in a MongoDB collection and, when the [redis]
    option is given, in a Redis cache as well.

    The embedding is executable.  The two backends, the caller's heap of
    payload objects, the ObjectId counter, a logical clock and the log of the
    requests sent live in a [World]; every [async] method is a function from a
    world to a promise (settle time and outcome) and the world after the
    requests it issued.

    - A payload ([any] in the source) is a primitive or a reference to a plain
      object of the heap whose properties hold JSON values; [state.eTag = ...]
      updates the object in place, so the caller sees it.
    - [JSON.stringify], [JSON.parse] and the ObjectId generator are the
      platform's ([Runtime]); so is what the two drivers accept when a client
      is made ([Drivers]).
    - A string holds its text in UTF-8; [trim] knows the white space of
      ECMAScript.
    - The result of a read is a plain object: its own properties and its
      prototype, which an assignment to the key [__proto__] changes.
    - A backend is up or down; a request is logged, takes effect at once when
      the server is up and settles after the latency of the server.  The store
      talks to one collection, the one named by its [dbName] and [colName].
    - [connect] is modelled apart, after the other methods, which are taken
      after it has resolved. *)

From stdpp Require Import gmap strings list fin_maps pretty.

(** ** JSON values and JavaScript objects *)

Inductive prim : Type :=
| PNull
| PBool (b : bool)
| PNum (n : Z)
| PStr (s : string).

#[warnings="-register-all"]
Inductive json : Type :=
| JPrim (p : prim)
| JArr (items : list json)
| JObj (fields : list (string * json)).

(** The own enumerable properties of a plain object, in insertion order. *)
Abbreviation JsObject := (list (string * json)).

Definition loc := nat.

(** What a [StoreItems] entry may hold ([any] in the source): a primitive, or
    a reference to a plain object on the caller's heap. *)
Inductive JsValue : Type :=
| JsPrim (p : prim)
| JsRef (l : loc).

(** [StoreItems] is a JavaScript object; it is kept as its entries in the
    order of [Object.keys]. *)
Abbreviation StoreItems := (list (string * JsValue)).

Definition Object_keys {A} (o : list (string * A)) : list string := o.*1.

Fixpoint get_prop (name : string) (o : JsObject) : option json :=
  match o with
  | [] => None
  | (k, v) :: o' => if decide (k = name) then Some v else get_prop name o'
  end.

(** [o.name = v]: an existing property keeps its place, a new one goes last. *)
Fixpoint set_prop (name : string) (v : json) (o : JsObject) : JsObject :=
  match o with
  | [] => [(name, v)]
  | (k, x) :: o' =>
      if decide (k = name) then (k, v) :: o' else (k, x) :: set_prop name v o'
  end.

(** ** Errors and results *)

Inductive Error : Type :=
| NO_URL_ERROR
| TypeError
| SyntaxError
| MongoParseError
| MongoError
| RedisError.

Inductive Result (A : Type) : Type :=
| Resolved (a : A)
| Rejected (e : Error).
Arguments Resolved {A} a.
Arguments Rejected {A} e.

(** ** What the platform provides

    [JSON.stringify], [JSON.parse] (which throws a SyntaxError on text that is
    not JSON) and [new ObjectId().toHexString()], the latter as a function of
    the number of ObjectIds the process has created so far. *)

Class Runtime : Type := {
  JSON_stringify : json → string;
  JSON_parse : string → Result json;
  ObjectId_toHexString : nat → string;
}.

(** ** The store object *)

Record MongoClientOptions := { tls : bool }.
Record RedisClientOptions := { url : string }.

Module Options.

Record MongoStoreOptions := {
  database : option string;
  collection : option string;
  mongo : option MongoClientOptions;
  redis : option RedisClientOptions;
  cacheExpiration : option Z;
  disableWriteConcern : option bool;
}.

(** The default argument [options = {}]. *)
Definition empty : MongoStoreOptions :=
  {| database := None; collection := None; mongo := None; redis := None;
     cacheExpiration := None; disableWriteConcern := None |}.

End Options.
Abbreviation MongoStoreOptions := Options.MongoStoreOptions.

Record MongoClient := { mongo_uri : string; mongo_options : option MongoClientOptions }.
Record RedisClient := { redis_options : RedisClientOptions }.

Record MongoStore := {
  uri : string;
  dbName : string;
  colName : string;
  key : string;
  isCacheEnabled : bool;
  options : MongoStoreOptions;
  mClient : MongoClient;
  rClient : option RedisClient;
  cacheExpiration : Z;
  disableWriteConcern : bool;
}.

Definition DEFAULT_DATABASE_NAME : string := "botstorage".
Definition DEFAULT_COLLECTION_NAME : string := "conversations".
Definition DEFAULT_DOCUMENT_KEY : string := "_id".
Definition DEFAULT_CACHE_EXPIRATION_TIME : Z := 1209600.

(** [String.prototype.trim]

    A string holds its text in UTF-8.  [trim] removes the WhiteSpace and
    LineTerminator characters of ECMAScript from both ends of the text. *)

(** The UTF-8 bytes of a code point below U+10000. *)
Definition utf8 (n : N) : string :=
  let byte (b : N) := Ascii.ascii_of_N b in
  if (n <? 128)%N then String (byte n) ""
  else if (n <? 2048)%N then
    String (byte (192 + n / 64)%N) (String (byte (128 + n mod 64)%N) "")
  else
    String (byte (224 + n / 4096)%N)
      (String (byte (128 + (n / 64) mod 64)%N) (String (byte (128 + n mod 64)%N) "")).

(** TAB, VT, FF, SP, NBSP, ZWNBSP and the other space separators (U+1680,
    U+2000 to U+200A, U+202F, U+205F, U+3000). *)
Definition WhiteSpace : list N :=
  [9; 11; 12; 32; 160; 65279; 5760; 8192; 8193; 8194; 8195; 8196; 8197; 8198;
   8199; 8200; 8201; 8202; 8239; 8287; 12288]%N.

(** LF, CR, LS, PS. *)
Definition LineTerminator : list N := [10; 13; 8232; 8233]%N.

(** A byte [10xxxxxx] continues the character before it. *)
Definition is_continuation (c : Ascii.ascii) : bool :=
  let n := Ascii.N_of_ascii c in
  (128 <=? n)%N && (n <? 192)%N.

Definition continues (s : string) : bool :=
  match s with
  | String c _ => is_continuation c
  | EmptyString => false
  end.

(** The characters of a text: each a byte with the continuation bytes that
    follow it. *)
Fixpoint chars (s : string) : list string :=
  match s with
  | EmptyString => []
  | String c s' =>
      match chars s' with
      | ch :: rest =>
          if continues ch then String c ch :: rest
          else String c EmptyString :: ch :: rest
      | [] => [String c EmptyString]
      end
  end.

(** The text of a list of characters. *)
Fixpoint text (l : list string) : string :=
  match l with
  | [] => EmptyString
  | ch :: l' => ch +:+ text l'
  end.

Definition is_space (ch : string) : bool :=
  bool_decide (ch ∈ utf8 <$> WhiteSpace ++ LineTerminator).

Fixpoint trim_start (l : list string) : list string :=
  match l with
  | ch :: l' => if is_space ch then trim_start l' else l
  | [] => []
  end.

Fixpoint trim_end (l : list string) : list string :=
  match l with
  | ch :: l' =>
      match trim_end l' with
      | [] => if is_space ch then [] else [ch]
      | t => ch :: t
      end
  | [] => []
  end.

Definition trim (s : string) : string := text (trim_end (trim_start (chars s))).

(** [x || d] on an optional number: [undefined] and [0] are falsy. *)
Definition or_number (x : option Z) (d : Z) : Z :=
  match x with
  | Some n => if decide (n = 0%Z) then d else n
  | None => d
  end.

(** [x || false] on an optional boolean. *)
Definition or_false (x : option bool) : bool :=
  match x with
  | Some b => b
  | None => false
  end.

(** [name && name.trim()] guarding the assignment of [name.trim()]. *)
Definition trimmed_or (name : option string) (d : string) : string :=
  match name with
  | Some s => if decide (trim s = "") then d else trim s
  | None => d
  end.

(** What the drivers check when a client is made: [new MongoClient(uri,
    options)] parses the connection string and throws a MongoParseError on one
    it does not accept; [createClient(options)] parses the [url] of its
    options and throws a TypeError on one it does not accept. *)
Class Drivers : Type := {
  MongoClient_accepts : string → option MongoClientOptions → bool;
  createClient_accepts : RedisClientOptions → bool;
}.

Definition new_MongoClient `{dr : Drivers} (uri : string)
    (options : option MongoClientOptions) : Result MongoClient :=
  if MongoClient_accepts uri options
  then Resolved {| mongo_uri := uri; mongo_options := options |}
  else Rejected MongoParseError.

Definition createClient `{dr : Drivers} (options : RedisClientOptions) :
    Result RedisClient :=
  if createClient_accepts options
  then Resolved {| redis_options := options |}
  else Rejected TypeError.

Definition constructor `{dr : Drivers} (uri : string) (options : MongoStoreOptions) :
    Result MongoStore :=
  if decide (trim uri = "") then Rejected NO_URL_ERROR
  else
    match new_MongoClient uri (Options.mongo options) with
    | Rejected e => Rejected e
    | Resolved mClient =>
        let store (isCacheEnabled : bool) (rClient : option RedisClient) :=
          {| uri := uri;
             dbName := trimmed_or (Options.database options) DEFAULT_DATABASE_NAME;
             colName := trimmed_or (Options.collection options) DEFAULT_COLLECTION_NAME;
             key := DEFAULT_DOCUMENT_KEY;
             isCacheEnabled := isCacheEnabled;
             options := options;
             mClient := mClient;
             rClient := rClient;
             cacheExpiration :=
               or_number (Options.cacheExpiration options) DEFAULT_CACHE_EXPIRATION_TIME;
             disableWriteConcern := or_false (Options.disableWriteConcern options) |} in
        match Options.redis options with
        | Some redisOptions =>
            match createClient redisOptions with
            | Rejected e => Rejected e
            | Resolved rClient => Resolved (store true (Some rClient))
            end
        | None => Resolved (store false None)
        end
    end.

(** The getter [cache]. *)
Definition cache (store : MongoStore) : option RedisClient := rClient store.

(** ** The world: backends, heap, ObjectId counter, clock, call log *)

(** A document of the collection, under its [_id] (the state key). *)
Record MongoStoreDocument := {
  state : string;
  date : nat;
  etag : string;
}.

Inductive WriteConcern : Type :=
| w_0
| w_majority.

(** One [updateOne] of the bulk write: the filter's key, the [$set] and
    [upsert]. *)
Record UpdateOne := {
  filter_key : string;
  set_state : string;
  set_date : nat;
  set_etag : string;
  upsert : bool;
}.

(** The requests sent to the two backends. *)
Inductive Call : Type :=
| MongoFind (keys : list string)
| MongoBulkWrite (operations : list UpdateOne) (writeConcern : WriteConcern)
| MongoDeleteMany (keys : list string) (writeConcern : WriteConcern)
| MongoPing
| RedisGet (k : string)
| RedisSet (k : string) (value : string) (EX : Z)
| RedisDel (k : string)
| RedisPing.

Record World := {
  heap : gmap loc JsObject;
  storage : gmap string MongoStoreDocument;
  redis_db : gmap string (string * Z);
  mongo_up : bool;
  redis_up : bool;
  mongo_latency : nat;
  redis_latency : nat;
  oid : nat;
  clock : nat;
  log : list Call;
}.

Definition set_heap (h : gmap loc JsObject) (w : World) : World :=
  {| heap := h; storage := storage w; redis_db := redis_db w;
     mongo_up := mongo_up w; redis_up := redis_up w;
     mongo_latency := mongo_latency w; redis_latency := redis_latency w;
     oid := oid w; clock := clock w; log := log w |}.

Definition set_storage (s : gmap string MongoStoreDocument) (w : World) : World :=
  {| heap := heap w; storage := s; redis_db := redis_db w;
     mongo_up := mongo_up w; redis_up := redis_up w;
     mongo_latency := mongo_latency w; redis_latency := redis_latency w;
     oid := oid w; clock := clock w; log := log w |}.

Definition set_redis_db (r : gmap string (string * Z)) (w : World) : World :=
  {| heap := heap w; storage := storage w; redis_db := r;
     mongo_up := mongo_up w; redis_up := redis_up w;
     mongo_latency := mongo_latency w; redis_latency := redis_latency w;
     oid := oid w; clock := clock w; log := log w |}.

Definition set_oid (n : nat) (w : World) : World :=
  {| heap := heap w; storage := storage w; redis_db := redis_db w;
     mongo_up := mongo_up w; redis_up := redis_up w;
     mongo_latency := mongo_latency w; redis_latency := redis_latency w;
     oid := n; clock := clock w; log := log w |}.

Definition set_clock (t : nat) (w : World) : World :=
  {| heap := heap w; storage := storage w; redis_db := redis_db w;
     mongo_up := mongo_up w; redis_up := redis_up w;
     mongo_latency := mongo_latency w; redis_latency := redis_latency w;
     oid := oid w; clock := t; log := log w |}.

Definition set_log (l : list Call) (w : World) : World :=
  {| heap := heap w; storage := storage w; redis_db := redis_db w;
     mongo_up := mongo_up w; redis_up := redis_up w;
     mongo_latency := mongo_latency w; redis_latency := redis_latency w;
     oid := oid w; clock := clock w; log := l |}.

Definition add_log (c : Call) (w : World) : World :=
  {| heap := heap w; storage := storage w; redis_db := redis_db w;
     mongo_up := mongo_up w; redis_up := redis_up w;
     mongo_latency := mongo_latency w; redis_latency := redis_latency w;
     oid := oid w; clock := clock w; log := log w ++ [c] |}.

(** ** Promises and [async] functions

    A promise is known by the time it settles and its outcome.  The body of an
    [async] function runs in [M]: it threads the world and stops at the first
    error.  Calling an [async] function ([Task]) runs its body, which issues
    the backend requests, and hands back the promise without moving the
    caller's clock; [await] moves the clock to the settle time. *)

Record Promise (A : Type) := {
  settled_at : nat;
  outcome : Result A;
}.
Arguments settled_at {A} _.
Arguments outcome {A} _.

Definition M (A : Type) : Type := World → Result A * World.
Definition Task (A : Type) : Type := World → Promise A * World.

Definition ret {A} (a : A) : M A := λ w, (Resolved a, w).
Definition throw {A} (e : Error) : M A := λ w, (Rejected e, w).
Definition bind {A B} (m : M A) (k : A → M B) : M B :=
  λ w, match m w with
       | (Resolved a, w') => k a w'
       | (Rejected e, w') => (Rejected e, w')
       end.

Notation "'let*' x ':=' m 'in' k" := (bind m (λ x, k))
  (at level 10, x pattern, m at level 100, k at level 200,
   format "'[v' 'let*'  x  ':='  m  'in' '/' k ']'").

Definition async {A} (body : M A) : Task A :=
  λ w, let '(r, w') := body w in
       ({| settled_at := clock w'; outcome := r |}, set_clock (clock w) w').

(** Calling an [async] function from a body: the promise is a value. *)
Definition call {A} (t : Task A) : M (Promise A) :=
  λ w, let '(p, w') := t w in (Resolved p, w').

Definition await {A} (p : Promise A) : M A :=
  λ w, (outcome p, set_clock (clock w `max` settled_at p) w).

(** A caller that awaits the call: the outcome and the world it leaves. *)
Definition run {A} (t : Task A) : M A := λ w, bind (call t) await w.

(** [l.map(async (x) => ...)]: the calls are made in order. *)
Fixpoint map_async {A B} (f : A → M B) (l : list A) : M (list (Promise B)) :=
  match l with
  | [] => ret []
  | x :: l' =>
      let* p := call (async (f x)) in
      let* ps := map_async f l' in
      ret (p :: ps)
  end.

(** [Promise.all]: rejected as soon as one promise is (the earliest
    rejection; of two at the same time, the first of the array), fulfilled
    with all the values once the last one is. *)
Fixpoint first_rejection {A} (ps : list (Promise A)) : option (nat * Error) :=
  match ps with
  | [] => None
  | p :: ps' =>
      match outcome p, first_rejection ps' with
      | Rejected e, Some (t', e') =>
          if decide (settled_at p ≤ t') then Some (settled_at p, e) else Some (t', e')
      | Rejected e, None => Some (settled_at p, e)
      | Resolved _, r => r
      end
  end.

Fixpoint values {A} (ps : list (Promise A)) : list A :=
  match ps with
  | [] => []
  | p :: ps' =>
      match outcome p with
      | Resolved a => a :: values ps'
      | Rejected _ => values ps'
      end
  end.

Definition Promise_all {A} (ps : list (Promise A)) : Promise (list A) :=
  match first_rejection ps with
  | Some (t, e) => {| settled_at := t; outcome := Rejected e |}
  | None => {| settled_at := max_list (settled_at <$> ps);
               outcome := Resolved (values ps) |}
  end.

Definition lift {A} (r : Result A) : M A := λ w, (r, w).

(** ** The MongoDB driver, on the store's collection

    A request is logged when it is issued; it settles [mongo_latency] later,
    rejected when the server is down. *)

Definition mongo_request {A} (c : Call) (reply : World → A)
    (effect : World → World) : Task A :=
  λ w, ({| settled_at := clock w + mongo_latency w;
           outcome := if mongo_up w then Resolved (reply w) else Rejected MongoError |},
        add_log c (if mongo_up w then effect w else w)).

(** [find({_id: {$in: keys}}).toArray()] *)
Definition mongo_find (keys : list string) : Task (list (string * MongoStoreDocument)) :=
  mongo_request (MongoFind keys)
    (λ w, map_to_list (filter (λ d, d.1 ∈ keys) (storage w))) id.

(** [updateOne] with [$set]: the matching document gets the three fields; if
    there is none and [upsert] is set, a document is inserted. *)
Definition updateOne (op : UpdateOne) (s : gmap string MongoStoreDocument) :
    gmap string MongoStoreDocument :=
  let doc := {| state := set_state op; date := set_date op; etag := set_etag op |} in
  match s !! filter_key op with
  | Some _ => <[filter_key op := doc]> s
  | None => if upsert op then <[filter_key op := doc]> s else s
  end.

Definition mongo_bulkWrite (operations : list UpdateOne) (wc : WriteConcern) : Task unit :=
  mongo_request (MongoBulkWrite operations wc) (λ _, tt)
    (λ w, set_storage (foldl (λ s op, updateOne op s) (storage w) operations) w).

Definition mongo_deleteMany (keys : list string) (wc : WriteConcern) : Task unit :=
  mongo_request (MongoDeleteMany keys wc) (λ _, tt)
    (λ w, set_storage (filter (λ d, d.1 ∉ keys) (storage w)) w).

(** [db.admin().command({ping: 1})]: the reply's [ok] field. *)
Definition mongo_ping : Task Z :=
  mongo_request MongoPing (λ _, 1%Z) id.

(** ** The Redis client

    The handle is [undefined] when no [redis] option was given: a method call
    on it throws a TypeError and no request is made. *)

Definition redis_request {A} (client : option RedisClient) (c : Call)
    (reply : World → A) (effect : World → World) : M (Promise A) :=
  match client with
  | None => throw TypeError
  | Some _ =>
      call (λ w, ({| settled_at := clock w + redis_latency w;
                     outcome := if redis_up w then Resolved (reply w)
                                else Rejected RedisError |},
                  add_log c (if redis_up w then effect w else w)))
  end.

Definition redis_get (client : option RedisClient) (k : string) : M (Promise (option string)) :=
  redis_request client (RedisGet k) (λ w, fst <$> redis_db w !! k) id.

Definition redis_set (client : option RedisClient) (k value : string) (EX : Z) :
    M (Promise unit) :=
  redis_request client (RedisSet k value EX) (λ _, tt)
    (λ w, set_redis_db (<[k := (value, EX)]> (redis_db w)) w).

Definition redis_del (client : option RedisClient) (k : string) : M (Promise unit) :=
  redis_request client (RedisDel k) (λ _, tt)
    (λ w, set_redis_db (base.delete k (redis_db w)) w).

Definition PONG : string := "PONG".

Definition redis_ping (client : option RedisClient) : M (Promise string) :=
  redis_request client RedisPing (λ _, PONG) id.

(** Truthiness of [string | null]: [null] and the empty string are falsy. *)
Definition truthy (value : option string) : bool :=
  match value with
  | Some s => bool_decide (s ≠ "")
  | None => false
  end.

(** ** Plain objects used as mappings

    The reducers of a read and [read] itself keep the states in a plain object
    ([{}]).  [object[key] = value] makes or updates an own property, with one
    exception: the key [__proto__] finds the accessor of [Object.prototype],
    whose setter changes the prototype of the object (to an object or [null];
    another value is ignored) and makes no property.  The accessor is out of
    reach once the prototype is [null] or an object with an own property
    [__proto__] (which [JSON.parse] makes for this key); the assignment then
    makes an own property like any other. *)

Inductive Prototype : Type :=
| Object_prototype
| parsed_prototype (j : json)
| null_prototype.

Record PlainObject := {
  own : gmap string json;
  prototype : Prototype;
}.

(** [{}] *)
#[export] Instance PlainObject_empty : Empty PlainObject :=
  {| own := ∅; prototype := Object_prototype |}.

(** The own property under a key. *)
#[export] Instance PlainObject_lookup : Lookup string json PlainObject :=
  λ k o, own o !! k.

(** [Object.keys(object)], as a set. *)
#[export] Instance PlainObject_dom : Dom PlainObject (gset string) :=
  λ o, dom (own o).

(** An object literal without the key [__proto__]. *)
Definition plain (properties : gmap string json) : PlainObject :=
  {| own := properties; prototype := Object_prototype |}.

Definition PROTO : string := "__proto__".

(** The prototype chain leads to the accessor of [Object.prototype]. *)
Definition inherits_accessor (p : Prototype) : bool :=
  match p with
  | Object_prototype => true
  | parsed_prototype (JObj fields) => bool_decide (PROTO ∉ fields.*1)
  | parsed_prototype _ => true
  | null_prototype => false
  end.

(** The setter of [__proto__]. *)
Definition set_prototype (o : PlainObject) (v : json) : PlainObject :=
  match v with
  | JObj _ | JArr _ => {| own := own o; prototype := parsed_prototype v |}
  | JPrim PNull => {| own := own o; prototype := null_prototype |}
  | JPrim _ => o
  end.

Definition define_property (o : PlainObject) (k : string) (v : json) : PlainObject :=
  {| own := <[k := v]> (own o); prototype := prototype o |}.

(** [o[k] = v] *)
Definition Object_set (o : PlainObject) (k : string) (v : json) : PlainObject :=
  if decide (k = PROTO) then
    match own o !! k with
    | Some _ => define_property o k v
    | None =>
        if inherits_accessor (prototype o) then set_prototype o v
        else define_property o k v
    end
  else define_property o k v.

(** [Object.assign(target, source)]: every own property of the source is
    set on the target.  The keys are distinct and at most one of them is not
    a plain definition, so that the order does not matter. *)
Definition Object_assign (target source : PlainObject) : PlainObject :=
  foldl (λ t kv, Object_set t kv.1 kv.2) target (map_to_list (own source)).

(** ** The methods of [MongoStore] *)

Section Methods.
Context {rt : Runtime}.

(** The reducer of [readRedis]: cached values are parsed, keys without a
    (truthy) value are pushed on [missing]. *)
Fixpoint reduce_cached (cachedSates : list (string * option string))
    (accum : PlainObject) (missing : list string) :
    M (PlainObject * list string) :=
  match cachedSates with
  | [] => ret (accum, missing)
  | (k, value) :: rest =>
      if truthy value then
        let* parsed := lift (JSON_parse (default "" value)) in
        reduce_cached rest (Object_set accum k parsed) missing
      else reduce_cached rest accum (missing ++ [k])
  end.

(** The arrow function [readRedis] maps over the keys. *)
Definition get_state (store : MongoStore) (k : string) : M (string * option string) :=
  let* p := redis_get (cache store) k in
  let* value := await p in
  ret (k, value).

Definition readRedis (store : MongoStore) (stateKeys : list string) :
    Task (PlainObject * list string) :=
  async (
    let* gets := map_async (get_state store) stateKeys in
    let* cachedSates := await (Promise_all gets) in
    reduce_cached cachedSates ∅ []).

(** The reducer of [readMongo]. *)
Fixpoint reduce_docs (docs : list (string * MongoStoreDocument))
    (accum : PlainObject) : M PlainObject :=
  match docs with
  | [] => ret accum
  | (id, item) :: rest =>
      let* parsed := lift (JSON_parse (state item)) in
      reduce_docs rest (Object_set accum id parsed)
  end.

Definition readMongo (store : MongoStore) (stateKeys : list string) :
    Task PlainObject :=
  async (
    let* docs := run (mongo_find stateKeys) in
    reduce_docs docs ∅).

Definition read (store : MongoStore) (stateKeys : list string) : Task PlainObject :=
  async (
    match stateKeys with
    | [] => ret ∅
    | _ =>
        let states := ∅ in
        if isCacheEnabled store then
          let* (cached, missing) := run (readRedis store stateKeys) in
          let states := Object_assign states cached in
          match missing with
          | [] => ret states
          | _ =>
              let* missingStates := run (readMongo store missing) in
              ret (Object_assign states missingStates)
          end
        else
          let* mongoStates := run (readMongo store stateKeys) in
          ret (Object_assign states mongoStates)
    end).

(** [JSON.stringify(state)] of an entry's value as it stands on the heap. *)
Definition stringify_value (v : JsValue) : M string :=
  λ w, match v with
       | JsPrim p => (Resolved (JSON_stringify (JPrim p)), w)
       | JsRef l => (Resolved (JSON_stringify (JObj (heap w !!! l))), w)
       end.

(** [new ObjectId().toHexString()] *)
Definition new_ObjectId : M string :=
  λ w, (Resolved (ObjectId_toHexString (oid w)), set_oid (S (oid w)) w).

(** [state.eTag = tok] in strict mode: a TypeError unless [state] is an
    object, which is updated in place. *)
Definition assign_eTag (v : JsValue) (tok : string) : M unit :=
  λ w, match v with
       | JsPrim _ => (Rejected TypeError, w)
       | JsRef l =>
           (Resolved tt,
            set_heap (<[l := set_prop "eTag" (JPrim (PStr tok)) (heap w !!! l)]> (heap w)) w)
       end.

(** [state.eTag], read back for the [etag] field. *)
Definition read_eTag (v : JsValue) : M (option json) :=
  λ w, match v with
       | JsPrim _ => (Resolved None, w)
       | JsRef l => (Resolved (get_prop "eTag" (heap w !!! l)), w)
       end.

Definition new_Date : M nat := λ w, (Resolved (clock w), w).

Definition string_of_json (j : option json) : string :=
  match j with
  | Some (JPrim (PStr s)) => s
  | _ => ""
  end.

(** The [forEach] of [writeMongo], over the entries of [changes]. *)
Fixpoint stamp_entries (changes : StoreItems) (operations : list UpdateOne) :
    M (list UpdateOne) :=
  match changes with
  | [] => ret operations
  | (k, st) :: rest =>
      let* tok := new_ObjectId in
      let* _ := assign_eTag st tok in
      let* text := stringify_value st in
      let* now := new_Date in
      let* tag := read_eTag st in
      stamp_entries rest
        (operations ++ [ {| filter_key := k; set_state := text; set_date := now;
                            set_etag := string_of_json tag; upsert := true |} ])
  end.

Definition writeMongo (store : MongoStore) (changes : StoreItems) : Task unit :=
  async (
    let* operations := stamp_entries changes [] in
    run (mongo_bulkWrite operations
           (if negb (disableWriteConcern store) then w_0 else w_majority))).

(** The arrow function [writeRedis] maps over the keys of [changes]. *)
Definition set_state_of (store : MongoStore) (entry : string * JsValue) : M unit :=
  let '(k, st) := entry in
  let* text := stringify_value st in
  let* p := redis_set (cache store) k text (cacheExpiration store) in
  await p.

Definition writeRedis (store : MongoStore) (changes : StoreItems) : Task unit :=
  async (
    let* writeOperations := map_async (set_state_of store) changes in
    let* _ := await (Promise_all writeOperations) in
    ret tt).

Definition write (store : MongoStore) (changes : StoreItems) : Task unit :=
  async (
    match changes with
    | [] => ret tt
    | _ =>
        let* p := call (writeMongo store changes) in
        let* writeOperations :=
          (if isCacheEnabled store then
             let* q := call (writeRedis store changes) in ret [p; q]
           else ret [p]) in
        let* _ := await (Promise_all writeOperations) in
        ret tt
    end).

(** The arrow function [deleteRedis] maps over the keys. *)
Definition del_state (store : MongoStore) (k : string) : M unit :=
  let* p := redis_del (cache store) k in
  await p.

Definition deleteRedis (store : MongoStore) (stateKeys : list string) : Task unit :=
  async (
    let* deleteOperations := map_async (del_state store) stateKeys in
    let* _ := await (Promise_all deleteOperations) in
    ret tt).

Definition deleteMongo (store : MongoStore) (stateKeys : list string) : Task unit :=
  async (
    run (mongo_deleteMany stateKeys
           (if negb (disableWriteConcern store) then w_0 else w_majority))).

Definition delete (store : MongoStore) (keys : list string) : Task unit :=
  async (
    match keys with
    | [] => ret tt
    | _ =>
        let* p := call (deleteRedis store keys) in
        let* q := call (deleteMongo store keys) in
        let* _ := await (Promise_all [p; q]) in
        ret tt
    end).

Record IPingResponse := {
  ok : Z;
  mongo : Z;
  redis : option Z;
}.

Definition set_ok (v : Z) (ping : IPingResponse) : IPingResponse :=
  {| ok := v; mongo := mongo ping; redis := redis ping |}.
Definition set_mongo (v : Z) (ping : IPingResponse) : IPingResponse :=
  {| ok := ok ping; mongo := v; redis := redis ping |}.
Definition set_redis (v : Z) (ping : IPingResponse) : IPingResponse :=
  {| ok := ok ping; mongo := mongo ping; redis := Some v |}.

(** [!ping.redis]: an absent field and [0] are falsy. *)
Definition falsy_bit (v : option Z) : bool := bool_decide (default 0%Z v = 0%Z).

Definition health (store : MongoStore) : Task IPingResponse :=
  async (
    let ping := {| ok := 0; mongo := 0; redis := None |} in
    let* mongoResponse := run mongo_ping in
    let* _ := redis_ping (rClient store) in
    let ping := if bool_decide (mongoResponse ≠ 0%Z) then set_mongo 1 ping else ping in
    let* ping :=
      (if isCacheEnabled store then
         let ping := set_redis 0 ping in
         let* redisResponse := bind (redis_ping (rClient store)) await in
         ret (if truthy (Some redisResponse) then set_redis 1 ping else ping)
       else ret ping) in
    let ping := set_ok (mongo ping) ping in
    let ping := if isCacheEnabled store && falsy_bit (redis ping) then set_ok 0 ping
                else ping in
    ret ping).

End Methods.


(** ** [connect]

    The response is a new object, which the callbacks of the two connection
    promises update.  A connection attempt settles after the latency of its
    server, rejected when the server is down; it is not one of the requests
    that the log keeps.  As every effect of this model, the assignment of a
    callback is made when its promise is created; once a callback is
    registered the body no longer assigns its property, so that the object is
    the same when the promises have settled. *)

(** [{ ... }]: a new object, at a location that is not in use. *)
Definition new_object (o : JsObject) : M loc :=
  λ w, let l := fresh (dom (heap w)) in
       (Resolved l, set_heap (<[l := o]> (heap w)) w).

(** [o.name = v], for the object at [l]. *)
Definition assign (l : loc) (name : string) (v : json) : M unit :=
  λ w, (Resolved tt, set_heap (<[l := set_prop name v (heap w !!! l)]> (heap w)) w).

(** [p.then(onfulfilled)]: the callback runs once [p] is fulfilled; if [p] is
    rejected, so is the new promise and the callback does not run. *)
Definition then_ {A B} (p : Promise A) (onfulfilled : A → M B) : Task B :=
  async (
    let* a := await p in
    onfulfilled a).

(** [mClient.connect()] *)
Definition mongo_connect (client : MongoClient) : Task unit :=
  λ w, ({| settled_at := clock w + mongo_latency w;
           outcome := if mongo_up w then Resolved tt else Rejected MongoError |}, w).

(** [rClient.connect()] *)
Definition redis_connect (client : RedisClient) : Task unit :=
  λ w, ({| settled_at := clock w + redis_latency w;
           outcome := if redis_up w then Resolved tt else Rejected RedisError |}, w).

(** The method returns [response], here its location. *)
Definition connect (store : MongoStore) : Task loc :=
  async (
    let* response := new_object [("mongo", JPrim (PNum 0))] in
    let* c := call (mongo_connect (mClient store)) in
    let* p := call (then_ c (λ _, assign response "mongo" (JPrim (PNum 1)))) in
    let* connections :=
      (match isCacheEnabled store, rClient store with
       | true, Some client =>
           let* _ := assign response "redis" (JPrim (PNum 0)) in
           let* c := call (redis_connect client) in
           let* q := call (then_ c (λ _, assign response "redis" (JPrim (PNum 1)))) in
           ret [p; q]
       | _, _ => ret [p]
       end) in
    let* _ := await (Promise_all connections) in
    ret response).
(** * Vocabulary of the statements *)

(** ** Frames

    A relation between the world before and after a computation is a frame
    when it is a preorder that the clock moves of [async] and [await] respect.
    A computation built from framed steps is framed. *)

Class Frame (R : World → World → Prop) : Prop := {
  frame_refl w : R w w;
  frame_trans w1 w2 w3 : R w1 w2 → R w2 w3 → R w1 w3;
  frame_async w w' : R w w' → R w (set_clock (clock w) w');
  frame_await w t : R w (set_clock (clock w `max` t) w);
}.

Definition framed (R : World → World → Prop) {X} (f : World → X * World) : Prop :=
  ∀ w, R w (f w).2.

(** The requests a call adds to the log. *)
Definition issued {X} (f : World → X * World) (w : World) : list Call :=
  drop (length (log w)) (log (f w).2).

(** Only requests satisfying [allowed] are issued. *)
Definition issues_only (allowed : Call → Prop) (w w' : World) : Prop :=
  ∃ l, log w' = log w ++ l ∧ Forall allowed l.

(** The cache content is left as it is. *)
Definition keeps_cache (w w' : World) : Prop := redis_db w' = redis_db w.

(** The clock does not go back. *)
Definition clock_mono (w w' : World) : Prop := clock w ≤ clock w'.

(** ** Requests *)

Definition is_cache_write (c : Call) : Prop :=
  match c with
  | RedisSet _ _ _ | RedisDel _ => True
  | _ => False
  end.

(** The write concern a batched write or delete was sent with. *)
Definition uses_concern (wc : WriteConcern) (c : Call) : Prop :=
  match c with
  | MongoBulkWrite _ wc' | MongoDeleteMany _ wc' => wc' = wc
  | _ => True
  end.

(** Fast unless the flag is set. *)
Definition durability (options : MongoStoreOptions) : WriteConcern :=
  match Options.disableWriteConcern options with
  | Some true => w_majority
  | _ => w_0
  end.

(** ** Payload objects and their stamping *)

(** Entries whose payloads are objects of the heap. *)
Definition objects (entries : list (string * loc)) : StoreItems :=
  (λ e, (e.1, JsRef e.2)) <$> entries.

(** The object with its [eTag] set to the token. *)
Definition stamped (tok : string) (o : JsObject) : JsObject :=
  set_prop "eTag" (JPrim (PStr tok)) o.

(** An object of the heap [h] either is as it was on [h0] or was stamped. *)
Definition restamped (h0 h : gmap loc JsObject) : Prop :=
  ∀ l, h !!! l = h0 !!! l ∨ ∃ tok, h !!! l = stamped tok (h0 !!! l).

(** The heap after the entries were stamped with the ObjectIds from [n] on. *)
Fixpoint stamp_heap `{rt : Runtime} (n : nat) (entries : list (string * loc))
    (h : gmap loc JsObject) : gmap loc JsObject :=
  match entries with
  | [] => h
  | (k, l) :: rest =>
      stamp_heap (S n) rest (<[l := stamped (ObjectId_toHexString n) (h !!! l)]> h)
  end.

(** The upserts built while stamping. *)
Fixpoint stamp_ops `{rt : Runtime} (n now : nat) (entries : list (string * loc))
    (h : gmap loc JsObject) : list UpdateOne :=
  match entries with
  | [] => []
  | (k, l) :: rest =>
      let o := stamped (ObjectId_toHexString n) (h !!! l) in
      {| filter_key := k; set_state := JSON_stringify (JObj o); set_date := now;
         set_etag := ObjectId_toHexString n; upsert := true |}
      :: stamp_ops (S n) now rest (<[l := o]> h)
  end.

(** The document an upsert leaves. *)
Definition document_of (op : UpdateOne) : MongoStoreDocument :=
  {| state := set_state op; date := set_date op; etag := set_etag op |}.

(** The write concern the store sends. *)
Definition writeConcern (store : MongoStore) : WriteConcern :=
  if negb (disableWriteConcern store) then w_0 else w_majority.

(** The world once [writeMongo] has stamped the entries. *)
Definition stamp_world `{rt : Runtime} (entries : list (string * loc)) (w : World) : World :=
  set_oid (oid w + length entries) (set_heap (stamp_heap (oid w) entries (heap w)) w).

(** The world once the bulk write of the stamped entries was sent. *)
Definition bulk_world `{rt : Runtime} (store : MongoStore) (entries : list (string * loc))
    (w : World) : World :=
  let ops := stamp_ops (oid w) (clock w) entries (heap w) in
  add_log (MongoBulkWrite ops (writeConcern store))
    (if mongo_up w
     then set_storage (foldl (λ s op, updateOne op s) (storage w) ops) (stamp_world entries w)
     else stamp_world entries w).

(** What [writeRedis] stores under the key of an entry. *)
Definition cache_value `{rt : Runtime} (store : MongoStore) (h : gmap loc JsObject)
    (e : string * loc) : string * Z :=
  (JSON_stringify (JObj (h !!! e.2)), cacheExpiration store).

Definition cache_set `{rt : Runtime} (store : MongoStore) (h : gmap loc JsObject)
    (e : string * loc) : Call :=
  RedisSet e.1 (cache_value store h e).1 (cache_value store h e).2.

(** The world once the cache writes of the entries were sent. *)
Definition sets_world `{rt : Runtime} (store : MongoStore) (entries : list (string * loc))
    (w : World) : World :=
  set_log (log w ++ (cache_set store (heap w) <$> entries))
    (if redis_up w
     then set_redis_db
            (foldl (λ r e, <[e.1 := cache_value store (heap w) e]> r) (redis_db w) entries) w
     else w).

(** ** Reading *)

(** [JSON.parse] as a partial function. *)
Definition parsed `{rt : Runtime} (text : string) : option json :=
  match JSON_parse text with
  | Resolved j => Some j
  | Rejected _ => None
  end.

(** What the cache holds under [k] can be served: it is JSON text, hence not
    the empty string. *)
Definition cached_readable `{rt : Runtime} (w : World) (k : string) : Prop :=
  match redis_db w !! k with
  | Some (text, _) => text ≠ "" ∧ is_Some (parsed text)
  | None => True
  end.

(** The state of the document under [k], if there is one, is JSON text. *)
Definition stored_readable `{rt : Runtime} (w : World) (k : string) : Prop :=
  match storage w !! k with
  | Some doc => is_Some (parsed (state doc))
  | None => True
  end.

(** The keys the cache has no value for. *)
Definition missing_keys (w : World) (stateKeys : list string) : list string :=
  filter (λ k, redis_db w !! k = None) stateKeys.

(** The result of a cache-aside lookup of [k]: the cached value if the cache
    holds one, the stored document otherwise. *)
Definition cache_aside `{rt : Runtime} (w : World) (k : string) : option json :=
  match redis_db w !! k with
  | Some (text, _) => parsed text
  | None => storage w !! k ≫= λ doc, parsed (state doc)
  end.

(** ** Round trip *)

(** The text of [j] is not empty and parses back to [j]. *)
Definition serializable `{rt : Runtime} (j : json) : Prop :=
  JSON_stringify j ≠ "" ∧ parsed (JSON_stringify j) = Some j.

(** [back] is the payload [v], as it stood on the heap [h], with a version
    token injected into it when it is an object. *)
Definition same_content (h : gmap loc JsObject) (v : JsValue) (back : json) : Prop :=
  match v with
  | JsPrim p => back = JPrim p
  | JsRef l => ∃ tok, back = JObj (stamped tok (h !!! l))
  end.

(** [write(changes)] followed by [read(Object.keys(changes))] resolves to a
    mapping with exactly the keys of [changes], each holding the content that
    was written. *)
Definition round_trip `{rt : Runtime} (store : MongoStore) (changes : StoreItems)
    (w : World) : Prop :=
  ∃ w1 states w2,
    run (write store changes) w = (Resolved (), w1) ∧
    run (read store (Object_keys changes)) w1 = (Resolved states, w2) ∧
    dom states = list_to_set (Object_keys changes) ∧
    ∀ k v, (k, v) ∈ changes →
           ∃ back, states !! k = Some back ∧ same_content (heap w) v back.

(** Every object of the entries is serializable once stamped with any of the
    ObjectIds the write will generate. *)
Definition payloads_serializable `{rt : Runtime} (entries : list (string * loc))
    (w : World) : Prop :=
  Forall (λ e, Forall (λ n, serializable
                              (JObj (stamped (ObjectId_toHexString n) (heap w !!! e.2))))
                      (seq (oid w) (length entries))) entries.

(** ** The two operations of a write *)

(** The promises of [writeMongo] and [writeRedis] as [write] starts them, in
    this order, when the cache is enabled. *)
Definition mongo_write `{rt : Runtime} (store : MongoStore) (changes : StoreItems)
    (w : World) : Promise unit :=
  (writeMongo store changes w).1.

Definition redis_write `{rt : Runtime} (store : MongoStore) (changes : StoreItems)
    (w : World) : Promise unit :=
  (writeRedis store changes (writeMongo store changes w).2).1.

Definition rejected {A} (p : Promise A) (e : Error) : Prop := outcome p = Rejected e.
Definition fulfilled {A} (p : Promise A) : Prop := ∃ a, outcome p = Resolved a.

(** Exactly one of the two operations fails, with [e]. *)
Definition one_fails `{rt : Runtime} (store : MongoStore) (changes : StoreItems)
    (w : World) (e : Error) : Prop :=
  (rejected (mongo_write store changes w) e ∧ fulfilled (redis_write store changes w)) ∨
  (fulfilled (mongo_write store changes w) ∧ rejected (redis_write store changes w) e).

(** The failure is reported, and not before both operations have settled. *)
Definition reported_after_both_settled `{rt : Runtime} (store : MongoStore)
    (changes : StoreItems) (w : World) : Prop :=
  ∀ e, one_fails store changes w e →
       outcome (write store changes w).1 = Rejected e ∧
       settled_at (mongo_write store changes w) `max` settled_at (redis_write store changes w)
       ≤ settled_at (write store changes w).1.

(** ** More vocabulary *)

(** The string has only white space characters (or none). *)
Definition blank (s : string) : bool := forallb is_space (chars s).

(** The Redis driver accepts the [redis] option, if there is one. *)
Definition redis_accepted `{dr : Drivers} (options : MongoStoreOptions) : bool :=
  match Options.redis options with
  | Some redisOptions => createClient_accepts redisOptions
  | None => true
  end.

(** A list of characters as [chars] makes them: each a byte followed by
    continuation bytes only, and each but the first starting with a byte that
    is not one. *)
Fixpoint continuation_bytes (s : string) : bool :=
  match s with
  | EmptyString => true
  | String c s' => is_continuation c && continuation_bytes s'
  end.

Definition is_char (ch : string) : bool :=
  match ch with
  | String _ t => continuation_bytes t
  | EmptyString => false
  end.

Definition well_formed (l : list string) : Prop :=
  Forall (λ ch, is_char ch = true) l ∧ Forall (λ ch, continues ch = false) (tail l).

(** The cache has a value for [k] that [readRedis] takes ([if (value)]). *)
Definition served (w : World) (k : string) : bool := truthy (fst <$> redis_db w !! k).

(** The text the cache holds under [k], the empty string if none. *)
Definition cached_text (w : World) (k : string) : string :=
  default "" (fst <$> redis_db w !! k).

(** The world once the cache deletes of the keys were sent. *)
Definition dels_world (keys : list string) (w : World) : World :=
  set_log (log w ++ (RedisDel <$> keys))
    (if redis_up w
     then set_redis_db (foldl (λ r k, base.delete k r) (redis_db w) keys) w
     else w).

(** The world once [deleteMany] was sent. *)
Definition deleteMany_world (store : MongoStore) (keys : list string) (w : World) : World :=
  add_log (MongoDeleteMany keys (writeConcern store))
    (if mongo_up w
     then set_storage (filter (λ d : string * MongoStoreDocument, d.1 ∉ keys) (storage w)) w
     else w).

Definition is_redis_call (c : Call) : Prop :=
  match c with
  | RedisGet _ | RedisSet _ _ _ | RedisDel _ | RedisPing => True
  | _ => False
  end.

Definition is_mongo_call (c : Call) : Prop :=
  match c with
  | MongoFind _ | MongoBulkWrite _ _ | MongoDeleteMany _ _ | MongoPing => True
  | _ => False
  end.

(** The documents are left as they are. *)
Definition keeps_storage (w w' : World) : Prop := storage w' = storage w.

(** The caller's objects and the ObjectId counter are left as they are. *)
Definition keeps_heap (w w' : World) : Prop := heap w' = heap w ∧ oid w' = oid w.

(** An entry whose payload is a primitive. *)
Definition has_primitive (e : string * JsValue) : Prop := ∃ p, e.2 = JsPrim p.


(** The task sends nothing to Redis and leaves the cache as it is. *)
Definition skips_redis {A} (t : Task A) (w : World) : Prop :=
  redis_db (t w).2 = redis_db w ∧ Forall (λ c, ¬ is_redis_call c) (issued t w).

(** The task changes no data: not the caller's objects, not the ObjectId
    counter, not the documents, not the cache. *)
Definition changes_no_data {A} (t : Task A) (w : World) : Prop :=
  heap (t w).2 = heap w ∧ oid (t w).2 = oid w ∧
  storage (t w).2 = storage w ∧ redis_db (t w).2 = redis_db w.

(** [this.isCacheEnabled && this.rClient]: the cache is set up. *)
Definition configured (store : MongoStore) : bool :=
  isCacheEnabled store && (if rClient store is Some _ then true else false).

(** The servers that the store is set up with are all up. *)
Definition backends_up (store : MongoStore) (w : World) : bool :=
  mongo_up w && (negb (configured store) || redis_up w).

(** The response with every flag at 1: [mongo], and [redis] if the cache is
    set up. *)
Definition connected (store : MongoStore) : JsObject :=
  ("mongo", JPrim (PNum 1)) ::
  (if configured store then [("redis", JPrim (PNum 1))] else []).

(** The connection attempt that fails first: when it fails, and with what;
    of two that fail at the same time, the one to MongoDB. *)
Definition first_failure (store : MongoStore) (w : World) : Promise loc :=
  if negb (mongo_up w) &&
     (negb (configured store) || redis_up w || bool_decide (mongo_latency w ≤ redis_latency w))
  then {| settled_at := clock w + mongo_latency w; outcome := Rejected MongoError |}
  else {| settled_at := clock w + redis_latency w; outcome := Rejected RedisError |}.
(** ** A runtime to run the model on

    A printer of JSON text (strings are printed without escapes) and a parser
    that knows the texts of a given list of values and rejects every other
    text; ObjectIds are numbered. *)

Definition quote : string := String (Ascii.ascii_of_nat 34) EmptyString.

Fixpoint join (sep : string) (l : list string) : string :=
  match l with
  | [] => ""
  | [s] => s
  | s :: l' => s +:+ sep +:+ join sep l'
  end.

Fixpoint print_json (j : json) : string :=
  match j with
  | JPrim PNull => "null"
  | JPrim (PBool b) => if b then "true" else "false"
  | JPrim (PNum n) => pretty n
  | JPrim (PStr s) => quote +:+ s +:+ quote
  | JArr items => "[" +:+ join "," (map print_json items) +:+ "]"
  | JObj fields =>
      "{" +:+ join "," (map (λ f, quote +:+ f.1 +:+ quote +:+ ":" +:+ print_json f.2) fields)
          +:+ "}"
  end.

Fixpoint parse_known (known : list json) (text : string) : Result json :=
  match known with
  | [] => Rejected SyntaxError
  | j :: known' =>
      if decide (print_json j = text) then Resolved j else parse_known known' text
  end.

Definition test_runtime (known : list json) : Runtime :=
  {| JSON_stringify := print_json;
     JSON_parse := parse_known known;
     ObjectId_toHexString := λ n, "oid" +:+ pretty n |}.

(** A world with both servers up and nothing stored. *)
Definition fresh_world (h : gmap loc JsObject) : World :=
  {| heap := h; storage := ∅; redis_db := ∅; mongo_up := true; redis_up := true;
     mongo_latency := 5; redis_latency := 1; oid := 0; clock := 0; log := [] |}.

Definition set_mongo_up (b : bool) (w : World) : World :=
  {| heap := heap w; storage := storage w; redis_db := redis_db w;
     mongo_up := b; redis_up := redis_up w;
     mongo_latency := mongo_latency w; redis_latency := redis_latency w;
     oid := oid w; clock := clock w; log := log w |}.

Definition set_redis_up (b : bool) (w : World) : World :=
  {| heap := heap w; storage := storage w; redis_db := redis_db w;
     mongo_up := mongo_up w; redis_up := b;
     mongo_latency := mongo_latency w; redis_latency := redis_latency w;
     oid := oid w; clock := clock w; log := log w |}.

(** Drivers that accept a uri or url by its scheme. *)
Definition test_drivers : Drivers :=
  {| MongoClient_accepts := λ uri _,
       String.prefix "mongodb://" uri || String.prefix "mongodb+srv://" uri;
     createClient_accepts := λ options,
       String.prefix "redis://" (url options) || String.prefix "rediss://" (url options) |}.

Definition test_uri : string := "mongodb://localhost:27017/".

Definition options_with_redis : MongoStoreOptions :=
  {| Options.database := Some "foobar"; Options.collection := Some "conversations";
     Options.mongo := None;
     Options.redis := Some {| url := "redis://localhost:6380" |};
     Options.cacheExpiration := None; Options.disableWriteConcern := None |}.

Definition options_without_redis : MongoStoreOptions :=
  {| Options.database := Some "foobar"; Options.collection := Some "conversations";
     Options.mongo := None; Options.redis := None;
     Options.cacheExpiration := None; Options.disableWriteConcern := None |}.


Definition store_with_redis : MongoStore :=
  {| uri := test_uri; dbName := "foobar"; colName := "conversations"; key := "_id";
     isCacheEnabled := true; options := options_with_redis;
     mClient := {| mongo_uri := test_uri; mongo_options := None |};
     rClient := Some {| redis_options := {| url := "redis://localhost:6380" |} |};
     cacheExpiration := 1209600; disableWriteConcern := false |}.

Definition store_without_redis : MongoStore :=
  {| uri := test_uri; dbName := "foobar"; colName := "conversations"; key := "_id";
     isCacheEnabled := false; options := options_without_redis;
     mClient := {| mongo_uri := test_uri; mongo_options := None |};
     rClient := None;
     cacheExpiration := 1209600; disableWriteConcern := false |}.

(** Two payload objects on the caller's heap, the second with an [eTag] of
    the caller's. *)
Definition payload_heap : gmap loc JsObject :=
  {[ 0 := [("v", JPrim (PNum 1))];
     1 := [("name", JPrim (PStr "bob")); ("eTag", JPrim (PStr "old"))] ]}.

Definition two_entries : list (string * loc) := [("s1", 0); ("s2", 1)].

(** The payloads with either of the first two ObjectIds as [eTag]. *)
Definition known_payloads : list json :=
  [ JObj [("v", JPrim (PNum 1)); ("eTag", JPrim (PStr "oid0"))];
    JObj [("v", JPrim (PNum 1)); ("eTag", JPrim (PStr "oid1"))];
    JObj [("name", JPrim (PStr "bob")); ("eTag", JPrim (PStr "oid0"))];
    JObj [("name", JPrim (PStr "bob")); ("eTag", JPrim (PStr "oid1"))];
    JPrim PNull ].

Definition payload_runtime : Runtime := test_runtime known_payloads.

(** A store holding a fresh copy of [a] in the cache, a stale one in MongoDB,
    and [b] in MongoDB only. *)
Definition cached_a : json := JObj [("turn", JPrim (PNum 2)); ("eTag", JPrim (PStr "oid7"))].
Definition stale_a : json := JObj [("turn", JPrim (PNum 1)); ("eTag", JPrim (PStr "oid3"))].
Definition stored_b : json := JObj [("turn", JPrim (PNum 5)); ("eTag", JPrim (PStr "oid4"))].

Definition tiers_runtime : Runtime := test_runtime [cached_a; stale_a; stored_b].

Definition tiers_world : World :=
  {| heap := ∅;
     storage := {[ "a" := {| state := print_json stale_a; date := 3; etag := "oid3" |};
                   "b" := {| state := print_json stored_b; date := 4; etag := "oid4" |} ]};
     redis_db := {[ "a" := (print_json cached_a, 1209600%Z) ]};
     mongo_up := true; redis_up := true; mongo_latency := 5; redis_latency := 1;
     oid := 8; clock := 10; log := [] |}.

(** The cache holds the empty string under [a]. *)
Definition empty_text_world : World :=
  set_redis_db {[ "a" := ("", 1209600%Z) ]} tiers_world.
(** * Frame rules *)

Section frame_rules.
Context (R : World → World → Prop) `{!Frame R}.

Lemma framed_ret {A} (a : A) : framed R (ret a).
Proof. intros w. apply frame_refl. Qed.

Lemma framed_throw {A} e : framed R (@throw A e).
Proof. intros w. apply frame_refl. Qed.

Lemma framed_lift {A} (r : Result A) : framed R (lift r).
Proof. intros w. apply frame_refl. Qed.

Lemma framed_bind {A B} (m : M A) (k : A → M B) :
  framed R m → (∀ a, framed R (k a)) → framed R (bind m k).
Proof.
  intros Hm Hk w. unfold bind. specialize (Hm w).
  destruct (m w) as [[a|e] w']; simpl in *; [|done].
  eapply frame_trans; [exact Hm|apply Hk].
Qed.

Lemma framed_async {A} (body : M A) : framed R body → framed R (async body).
Proof.
  intros Hb w. unfold async. specialize (Hb w).
  destruct (body w) as [r w']; simpl in *. by apply frame_async.
Qed.

Lemma framed_call {A} (t : Task A) : framed R t → framed R (call t).
Proof. intros Ht w. unfold call. specialize (Ht w). by destruct (t w). Qed.

Lemma framed_await {A} (p : Promise A) : framed R (await p).
Proof. intros w. apply frame_await. Qed.

Lemma framed_run {A} (t : Task A) : framed R t → framed R (run t).
Proof.
  intros Ht. apply framed_bind; [by apply framed_call|apply framed_await].
Qed.

Lemma framed_map_async {A B} (f : A → M B) l :
  (∀ x, framed R (f x)) → framed R (map_async f l).
Proof.
  intros Hf. induction l as [|x l IH]; simpl; [apply framed_ret|].
  apply framed_bind; [by apply framed_call, framed_async|intros p].
  apply framed_bind; [done|intros ps; apply framed_ret].
Qed.

Lemma framed_mongo_request {A} c (reply : World → A) effect :
  (∀ w, R w (add_log c w)) → (∀ w, R w (add_log c (effect w))) →
  framed R (mongo_request c reply effect).
Proof. intros H1 H2 w. unfold mongo_request; simpl. by destruct (mongo_up w). Qed.

Lemma framed_redis_request {A} client c (reply : World → A) effect :
  (∀ w, R w (add_log c w)) → (∀ w, R w (add_log c (effect w))) →
  framed R (redis_request client c reply effect).
Proof.
  intros H1 H2. unfold redis_request. destruct client; [|apply framed_throw].
  apply framed_call. intros w; simpl. by destruct (redis_up w).
Qed.

End frame_rules.

#[export] Instance issues_only_frame allowed : Frame (issues_only allowed).
Proof.
  split.
  - intros w. exists []. by rewrite app_nil_r.
  - intros w1 w2 w3 (l1 & H1 & Hl1) (l2 & H2 & Hl2). exists (l1 ++ l2).
    rewrite H2, H1, <-app_assoc. split; [done|by apply Forall_app].
  - intros w w' (l & H & Hl). by exists l.
  - intros w t. exists []. simpl. by rewrite app_nil_r.
Qed.

#[export] Instance keeps_cache_frame : Frame keeps_cache.
Proof.
  split; unfold keeps_cache; simpl; try done.
  intros w1 w2 w3 H1 H2. by rewrite H2.
Qed.

#[export] Instance clock_mono_frame : Frame clock_mono.
Proof. split; unfold clock_mono; simpl; intros; lia. Qed.

#[export] Instance frame_and R1 R2 `{!Frame R1, !Frame R2} :
  Frame (λ w w', R1 w w' ∧ R2 w w').
Proof.
  split.
  - intros w. split; apply frame_refl.
  - intros w1 w2 w3 [? ?] [? ?]. split; eapply frame_trans; eauto.
  - intros w w' [? ?]. split; by apply frame_async.
  - intros w t. split; apply frame_await.
Qed.

Lemma issues_only_add_log (allowed : Call → Prop) c w w' :
  allowed c → log w' = log w → issues_only allowed w (add_log c w').
Proof. intros Hc Hw. exists [c]. simpl. rewrite Hw. by split; [|constructor]. Qed.

Lemma issued_spec {X} (f : World → X * World) w l :
  log (f w).2 = log w ++ l → issued f w = l.
Proof. intros H. unfold issued. rewrite H. by rewrite drop_app_length. Qed.

(** ** The methods are framed when their steps are *)

Ltac fr lem := apply lem; try tc_solve.

Section read_framed.
Context `{rt : Runtime} (R : World → World → Prop) `{!Frame R}.
Hypothesis R_find : ∀ keys w, R w (add_log (MongoFind keys) w).
Hypothesis R_get : ∀ k w, R w (add_log (RedisGet k) w).

Lemma reduce_cached_framed l accum missing : framed R (reduce_cached l accum missing).
Proof.
  revert accum missing. induction l as [|[k v] l IH]; intros accum missing; simpl.
  - fr framed_ret.
  - destruct (truthy v); [|apply IH].
    fr framed_bind; [fr framed_lift|intros j; apply IH].
Qed.

Lemma reduce_docs_framed l accum : framed R (reduce_docs l accum).
Proof.
  revert accum. induction l as [|[k d] l IH]; intros accum; simpl.
  - fr framed_ret.
  - fr framed_bind; [fr framed_lift|intros j; apply IH].
Qed.

Lemma readRedis_framed store keys : framed R (readRedis store keys).
Proof.
  fr framed_async.
  fr framed_bind.
  - fr framed_map_async. intros k. unfold get_state.
    fr framed_bind; [fr framed_redis_request; intros w; apply R_get|].
    intros p. fr framed_bind; [fr framed_await|].
    intros v. fr framed_ret.
  - intros ps. fr framed_bind; [fr framed_await|].
    intros l. apply reduce_cached_framed.
Qed.

Lemma readMongo_framed store keys : framed R (readMongo store keys).
Proof.
  fr framed_async.
  fr framed_bind; [ |intros l; apply reduce_docs_framed].
  fr framed_run. fr framed_mongo_request; intros w; apply R_find.
Qed.

Lemma read_framed store keys : framed R (read store keys).
Proof.
  fr framed_async.
  destruct keys as [|k keys]; [fr framed_ret|].
  destruct (isCacheEnabled store).
  - fr framed_bind; [fr framed_run; apply readRedis_framed|].
    intros [cached missing]. destruct missing; [fr framed_ret|].
    fr framed_bind; [fr framed_run; apply readMongo_framed|].
    intros m. fr framed_ret.
  - fr framed_bind; [fr framed_run; apply readMongo_framed|].
    intros m. fr framed_ret.
Qed.

End read_framed.

Section write_framed.
Context `{rt : Runtime} (R : World → World → Prop) `{!Frame R} (store : MongoStore).
Hypothesis R_oid : ∀ n w, R w (set_oid n w).
Hypothesis R_heap : ∀ h w, R w (set_heap h w).
Hypothesis R_bulk : ∀ ops s w,
  let wc := if negb (disableWriteConcern store) then w_0 else w_majority in
  R w (add_log (MongoBulkWrite ops wc) w) ∧
  R w (add_log (MongoBulkWrite ops wc) (set_storage s w)).
Hypothesis R_deleteMany : ∀ keys s w,
  let wc := if negb (disableWriteConcern store) then w_0 else w_majority in
  R w (add_log (MongoDeleteMany keys wc) w) ∧
  R w (add_log (MongoDeleteMany keys wc) (set_storage s w)).
Hypothesis R_set : ∀ k v ex r w,
  R w (add_log (RedisSet k v ex) w) ∧ R w (add_log (RedisSet k v ex) (set_redis_db r w)).
Hypothesis R_del : ∀ k r w,
  R w (add_log (RedisDel k) w) ∧ R w (add_log (RedisDel k) (set_redis_db r w)).

Lemma stamp_entries_framed changes ops : framed R (stamp_entries changes ops).
Proof.
  revert ops. induction changes as [|[k st] changes IH]; intros ops; simpl.
  - fr framed_ret.
  - fr framed_bind; [intros w; apply R_oid|intros tok].
    fr framed_bind; [ |intros _].
    { intros w. unfold assign_eTag. destruct st; simpl; [apply frame_refl|apply R_heap]. }
    fr framed_bind; [ |intros text].
    { intros w. unfold stringify_value. destruct st; apply frame_refl. }
    fr framed_bind; [intros w; apply frame_refl|intros now].
    fr framed_bind; [ |intros tag; apply IH].
    intros w. unfold read_eTag. destruct st; apply frame_refl.
Qed.

Lemma writeMongo_framed changes : framed R (writeMongo store changes).
Proof.
  fr framed_async.
  fr framed_bind; [apply stamp_entries_framed|intros ops].
  fr framed_run. fr framed_mongo_request; intros w; apply R_bulk.
Qed.

Lemma writeRedis_framed changes : framed R (writeRedis store changes).
Proof.
  fr framed_async.
  fr framed_bind.
  - fr framed_map_async. intros [k st]. unfold set_state_of.
    fr framed_bind; [ |intros text].
    { intros w. unfold stringify_value. destruct st; apply frame_refl. }
    fr framed_bind; [ |intros p; fr framed_await].
    fr framed_redis_request; intros w; apply R_set.
  - intros ps. fr framed_bind; [fr framed_await|].
    intros _. fr framed_ret.
Qed.

Lemma write_framed changes : framed R (write store changes).
Proof.
  fr framed_async.
  destruct changes as [|e changes]; [fr framed_ret|].
  fr framed_bind; [fr framed_call; apply writeMongo_framed|intros p].
  fr framed_bind.
  - destruct (isCacheEnabled store); [|fr framed_ret].
    fr framed_bind; [fr framed_call; apply writeRedis_framed|].
    intros q. fr framed_ret.
  - intros ps. fr framed_bind; [fr framed_await|].
    intros _. fr framed_ret.
Qed.

Lemma deleteRedis_framed keys : framed R (deleteRedis store keys).
Proof.
  fr framed_async.
  fr framed_bind.
  - fr framed_map_async. intros k. unfold del_state.
    fr framed_bind; [ |intros p; fr framed_await].
    fr framed_redis_request; intros w; apply R_del.
  - intros ps. fr framed_bind; [fr framed_await|].
    intros _. fr framed_ret.
Qed.

Lemma deleteMongo_framed keys : framed R (deleteMongo store keys).
Proof.
  fr framed_async.
  fr framed_run. fr framed_mongo_request; intros w; apply R_deleteMany.
Qed.

Lemma delete_framed keys : framed R (delete store keys).
Proof.
  fr framed_async.
  destruct keys as [|k keys]; [fr framed_ret|].
  fr framed_bind; [fr framed_call; apply deleteRedis_framed|intros p].
  fr framed_bind; [fr framed_call; apply deleteMongo_framed|intros q].
  fr framed_bind; [fr framed_await|].
  intros _. fr framed_ret.
Qed.

End write_framed.

(** * Folds of inserts *)

Section fold_insert.
Context {X V : Type} (key : X → string) (val : X → V).

Lemma foldl_insert_other (l : list X) (m : gmap string V) k :
  k ∉ key <$> l → foldl (λ m x, <[key x := val x]> m) m l !! k = m !! k.
Proof.
  revert m. induction l as [|x l IH]; intros m Hk; [done|].
  rewrite fmap_cons in Hk. apply not_elem_of_cons in Hk as [Hne Hk].
  simpl. rewrite IH by done. by rewrite lookup_insert_ne.
Qed.

Lemma foldl_insert_lookup (l : list X) (m : gmap string V) x :
  NoDup (key <$> l) → x ∈ l →
  foldl (λ m x, <[key x := val x]> m) m l !! key x = Some (val x).
Proof.
  revert m. induction l as [|y l IH]; intros m Hnd Hx; [by apply elem_of_nil in Hx|].
  rewrite fmap_cons in Hnd. apply NoDup_cons in Hnd as [Hnot Hnd].
  apply elem_of_cons in Hx as [->|Hx]; simpl.
  - rewrite foldl_insert_other by done. by rewrite lookup_insert_eq.
  - by apply IH.
Qed.

End fold_insert.

Lemma updateOne_upsert op s :
  upsert op = true → updateOne op s = <[filter_key op := document_of op]> s.
Proof. intros H. unfold updateOne. rewrite H. by destruct (s !! filter_key op). Qed.

Lemma foldl_updateOne ops s :
  Forall (λ op, upsert op = true) ops →
  foldl (λ s op, updateOne op s) s ops
  = foldl (λ s op, <[filter_key op := document_of op]> s) s ops.
Proof.
  intros H. revert s. induction H as [|op ops Hop _ IH]; intros s; [done|].
  simpl. by rewrite updateOne_upsert, IH.
Qed.
(** * Plain objects *)

Lemma lookup_own (o : PlainObject) (k : string) : o !! k = own o !! k.
Proof. reflexivity. Qed.

Lemma lookup_empty_object (k : string) : (∅ : PlainObject) !! k = None.
Proof. exact (lookup_empty (M := gmap string) k). Qed.

Lemma dom_own (o : PlainObject) : dom o = dom (own o).
Proof. reflexivity. Qed.

Lemma Object_set_plain o k v : k ≠ PROTO → Object_set o k v = define_property o k v.
Proof. intros Hk. unfold Object_set. by rewrite decide_False. Qed.

Lemma lookup_Object_set o k v k' :
  k ≠ PROTO → Object_set o k v !! k' = <[k := v]> (own o) !! k'.
Proof. intros Hk. by rewrite Object_set_plain. Qed.

Lemma Object_assign_empty (target : PlainObject) : Object_assign target ∅ = target.
Proof. unfold Object_assign. simpl. by rewrite map_to_list_empty. Qed.

(** ** The key [__proto__]

    An assignment never touches the own property under another key, and only
    an assignment to [__proto__] touches the prototype. *)

Lemma lookup_Object_set_ne o k v k' : k' ≠ k → Object_set o k v !! k' = o !! k'.
Proof.
  intros Hk. rewrite !lookup_own. unfold Object_set, set_prototype, define_property.
  repeat case_match; simpl; by rewrite ?lookup_insert_ne.
Qed.

Lemma lookup_Object_set_other o k v k' :
  k' ≠ PROTO → Object_set o k v !! k' = <[k := v]> (own o) !! k'.
Proof.
  intros Hk. destruct (decide (k = k')) as [->|Hne].
  - by rewrite lookup_Object_set, lookup_insert_eq.
  - rewrite lookup_Object_set_ne, lookup_insert_ne by done. apply lookup_own.
Qed.

Lemma prototype_Object_set o k v : k ≠ PROTO → prototype (Object_set o k v) = prototype o.
Proof. intros Hk. by rewrite Object_set_plain. Qed.

Lemma own_set_prototype o v : own (set_prototype o v) = own o.
Proof. unfold set_prototype. by repeat case_match. Qed.

(** The first assignment to [__proto__] on an object that inherits the
    accessor makes no property. *)
Lemma Object_set_proto o v :
  o !! PROTO = None → inherits_accessor (prototype o) = true →
  Object_set o PROTO v = set_prototype o v.
Proof.
  intros Ho Hi. rewrite lookup_own in Ho. unfold Object_set.
  rewrite decide_True by done. by rewrite Ho, Hi.
Qed.

Section assign.
Implicit Types (l : list (string * json)) (t : PlainObject).

Lemma foldl_Object_set_other l t k :
  NoDup l.*1 → k ≠ PROTO →
  foldl (λ t kv, Object_set t kv.1 kv.2) t l !! k
  = match (list_to_map l : gmap string json) !! k with
    | Some v => Some v
    | None => t !! k
    end.
Proof.
  intros Hnd Hk. revert t. induction l as [|[k0 v0] l IH]; intros t; [done|].
  rewrite fmap_cons in Hnd. apply NoDup_cons in Hnd as [Hk0 Hnd]. simpl.
  rewrite IH, lookup_Object_set_other by done.
  destruct (decide (k0 = k)) as [->|Hne].
  - rewrite !lookup_insert_eq.
    by rewrite (not_elem_of_list_to_map_1 (M := gmap string)).
  - rewrite !lookup_insert_ne by done. by rewrite lookup_own.
Qed.

Lemma foldl_Object_set_no_proto l t :
  PROTO ∉ l.*1 →
  foldl (λ t kv, Object_set t kv.1 kv.2) t l !! PROTO = t !! PROTO.
Proof.
  revert t. induction l as [|[k0 v0] l IH]; intros t Hp; [done|].
  rewrite fmap_cons in Hp. apply not_elem_of_cons in Hp as [Hk0 Hp]. simpl in *.
  rewrite IH by done. by apply lookup_Object_set_ne.
Qed.

Lemma foldl_Object_set_proto l t :
  NoDup l.*1 → t !! PROTO = None → inherits_accessor (prototype t) = true →
  foldl (λ t kv, Object_set t kv.1 kv.2) t l !! PROTO = None.
Proof.
  intros Hnd. revert t. induction l as [|[k0 v0] l IH]; intros t Ht Hi; [done|].
  rewrite fmap_cons in Hnd. apply NoDup_cons in Hnd as [Hk0 Hnd]. simpl in *.
  destruct (decide (k0 = PROTO)) as [->|Hne].
  - rewrite foldl_Object_set_no_proto by done.
    rewrite Object_set_proto by done. by rewrite lookup_own, own_set_prototype.
  - apply IH; [done| |by rewrite prototype_Object_set].
    by rewrite lookup_Object_set_ne.
Qed.

End assign.

(** The entries of the source other than [__proto__] are copied. *)
Lemma lookup_Object_assign_other (target source : PlainObject) k :
  k ≠ PROTO →
  Object_assign target source !! k
  = match source !! k with Some v => Some v | None => target !! k end.
Proof.
  intros Hk. unfold Object_assign.
  rewrite foldl_Object_set_other by (done || apply NoDup_fst_map_to_list).
  by rewrite list_to_map_to_list, lookup_own.
Qed.

(** A fresh target gets no property [__proto__], whatever the source holds. *)
Lemma lookup_Object_assign_proto (target source : PlainObject) :
  target !! PROTO = None → inherits_accessor (prototype target) = true →
  Object_assign target source !! PROTO = None.
Proof. intros. by apply foldl_Object_set_proto; [apply NoDup_fst_map_to_list| |]. Qed.

Lemma lookup_Object_assign_no_proto (target source : PlainObject) :
  source !! PROTO = None →
  Object_assign target source !! PROTO = target !! PROTO.
Proof.
  intros Hs. apply foldl_Object_set_no_proto.
  intros ([k v] & Hk & Hin%elem_of_map_to_list)%list_elem_of_fmap. simpl in Hk. subst k.
  rewrite lookup_own in Hs. by rewrite Hs in Hin.
Qed.

Lemma if_requested_not_proto {A} (keys : list string) k (x : option A) :
  PROTO ∉ keys →
  (if decide (k ∈ keys ∧ k ≠ PROTO) then x else None)
  = (if decide (k ∈ keys) then x else None).
Proof.
  intros Hp. destruct (decide (k ∈ keys)) as [Hin|Hin].
  - rewrite decide_True; [done|]. split; [done|]. by intros ->.
  - rewrite decide_False; [done|]. by intros [? _].
Qed.

(** * Promises that settle alike *)

Lemma first_rejection_resolved {A} (ps : list (Promise A)) :
  Forall (λ p, ∃ a, outcome p = Resolved a) ps → first_rejection ps = None.
Proof.
  induction 1 as [|p ps [a Ha] _ IH]; simpl; [done|]. by rewrite Ha, IH.
Qed.

Lemma first_rejection_uniform {A X} (l : list X) t e :
  l ≠ [] →
  first_rejection ((λ _, {| settled_at := t; outcome := @Rejected A e |}) <$> l)
  = Some (t, e).
Proof.
  induction l as [|x l IH]; [done|]. intros _.
  destruct l as [|y l]; [done|]. rewrite fmap_cons.
  change (first_rejection (?p :: ?ps)) with
    (match outcome p, first_rejection ps with
     | Rejected e, Some (t', e') =>
         if decide (settled_at p ≤ t') then Some (settled_at p, e) else Some (t', e')
     | Rejected e, None => Some (settled_at p, e)
     | Resolved _, r => r
     end).
  rewrite IH by done. simpl. by rewrite decide_True.
Qed.

Lemma values_resolved {A X} (l : list X) (t : X → nat) (a : X → A) :
  values ((λ x, {| settled_at := t x; outcome := Resolved (a x) |}) <$> l) = a <$> l.
Proof. induction l as [|x l IH]; simpl; [done|]. f_equal. exact IH. Qed.

Lemma Promise_all_resolved {A X} (l : list X) (t : nat) (a : X → A) :
  Promise_all ((λ x, {| settled_at := t; outcome := Resolved (a x) |}) <$> l)
  = {| settled_at := max_list ((λ _, t) <$> l); outcome := Resolved (a <$> l) |}.
Proof.
  unfold Promise_all. rewrite first_rejection_resolved.
  - pose proof (values_resolved l (λ _, t) a) as Hv. simpl in Hv. rewrite Hv.
    by rewrite <-list_fmap_compose.
  - apply Forall_fmap, Forall_forall. intros x _. by eexists.
Qed.

Lemma max_list_uniform {X} (l : list X) t : l ≠ [] → max_list ((λ _, t) <$> l) = t.
Proof.
  induction l as [|x l IH]; [done|]. intros _.
  destruct l as [|y l]; [simpl; lia|].
  rewrite fmap_cons. change (max_list (?a :: ?r)) with (a `max` max_list r).
  rewrite IH by done. lia.
Qed.

Lemma set_clock_id w t : clock w = t → set_clock t w = w.
Proof. intros <-. by destruct w. Qed.

(** ** Calls on the missing Redis client *)

Lemma map_async_no_client {A B} (f : A → M B) (l : list A) w :
  (∀ x w, f x w = (Rejected TypeError, w)) →
  map_async f l w
  = (Resolved ((λ _, {| settled_at := clock w; outcome := Rejected TypeError |}) <$> l), w).
Proof.
  intros Hf. induction l as [|x l IH]; [done|].
  simpl. unfold bind, call, async. rewrite Hf. simpl.
  rewrite set_clock_id by done. by rewrite IH.
Qed.

Lemma map_async_cons {A B} (f : A → M B) x l w :
  map_async f (x :: l) w
  = match map_async f l (set_clock (clock w) (f x w).2) with
    | (Resolved ps, w') =>
        (Resolved ({| settled_at := clock (f x w).2; outcome := (f x w).1 |} :: ps), w')
    | (Rejected e, w') => (Rejected e, w')
    end.
Proof.
  simpl. unfold bind at 1. unfold call, async. destruct (f x w) as [r w1]. simpl.
  unfold bind. by destruct (map_async f l _) as [[ps|e] w2].
Qed.

Lemma deleteRedis_no_client store keys w :
  cache store = None → keys ≠ [] →
  deleteRedis store keys w
  = ({| settled_at := clock w; outcome := Rejected TypeError |}, w).
Proof.
  intros Hc Hk. unfold deleteRedis, async, bind.
  rewrite map_async_no_client by (intros x w0; unfold del_state; by rewrite Hc).
  unfold await, Promise_all. rewrite first_rejection_uniform by done. simpl.
  rewrite Nat.max_id. f_equal. by destruct w.
Qed.

(** * The two halves of a read *)

Section read_specs.
Context `{rt : Runtime}.

Lemma parsed_Some text j : parsed text = Some j → JSON_parse text = Resolved j.
Proof. unfold parsed. destruct (JSON_parse text); naive_solver. Qed.

(** ** MongoDB *)

Lemma reduce_docs_lookup (docs : list (string * MongoStoreDocument)) accum w :
  NoDup docs.*1 →
  accum !! PROTO = None →
  (PROTO ∈ docs.*1 → inherits_accessor (prototype accum) = true) →
  Forall (λ d, is_Some (parsed (state d.2))) docs →
  ∃ m, reduce_docs docs accum w = (Resolved m, w) ∧
       m !! PROTO = None ∧
       ∀ k, k ≠ PROTO →
            m !! k = match (list_to_map docs : gmap string MongoStoreDocument) !! k with
                     | Some doc => parsed (state doc)
                     | None => accum !! k
                     end.
Proof.
  revert accum. induction docs as [|[id item] docs IH]; intros accum Hnd Hp Hi Hok.
  - exists accum. split; [done|]. split; [done|]. intros k _. simpl.
    by rewrite lookup_empty.
  - rewrite fmap_cons in Hnd. apply NoDup_cons in Hnd as [Hnot Hnd].
    apply Forall_cons in Hok as [[j Hj] Hok]. simpl in Hj, Hnot.
    destruct (IH (Object_set accum id j) Hnd) as (m & Hm & Hmp & Hlook); [| |done|].
    { destruct (decide (id = PROTO)) as [->|Hid].
      - rewrite Object_set_proto; [|done|apply Hi, elem_of_cons; by left].
        by rewrite lookup_own, own_set_prototype.
      - by rewrite lookup_Object_set_ne. }
    { intros Hin. destruct (decide (id = PROTO)) as [->|Hid]; [done|].
      rewrite prototype_Object_set by done. apply Hi, elem_of_cons. by right. }
    exists m. split; [|split; [done|]].
    + simpl. unfold bind, lift. rewrite (parsed_Some _ _ Hj). exact Hm.
    + intros k Hk. rewrite Hlook by done. simpl.
      rewrite lookup_Object_set_other by done. destruct (decide (id = k)) as [->|Hne].
      * rewrite lookup_insert_eq.
        rewrite (not_elem_of_list_to_map_1 (M := gmap string)) by done.
        by rewrite lookup_insert_eq.
      * rewrite !lookup_insert_ne by done. by rewrite lookup_own.
Qed.

Lemma readMongo_lookup store stateKeys w :
  mongo_up w = true →
  Forall (stored_readable w) stateKeys →
  ∃ m, readMongo store stateKeys w
       = ({| settled_at := clock w + mongo_latency w; outcome := Resolved m |},
          add_log (MongoFind stateKeys) w) ∧
       m !! PROTO = None ∧
       ∀ k, k ≠ PROTO →
            m !! k = if decide (k ∈ stateKeys)
                     then storage w !! k ≫= λ doc, parsed (state doc) else None.
Proof.
  intros Hup Hok.
  set (found := filter (λ d : string * MongoStoreDocument, d.1 ∈ stateKeys) (storage w)).
  destruct (reduce_docs_lookup (map_to_list found) ∅
              (set_clock (clock w `max` (clock w + mongo_latency w))
                 (add_log (MongoFind stateKeys) w)))
    as (m & Hm & Hmp & Hlook).
  { apply NoDup_fst_map_to_list. }
  { done. }
  { done. }
  { apply Forall_forall. intros [k doc] Hin. simpl.
    apply elem_of_map_to_list, map_lookup_filter_Some in Hin as [Hdoc Hk]. simpl in Hk.
    rewrite Forall_forall in Hok. specialize (Hok k Hk). unfold stored_readable in Hok.
    by rewrite Hdoc in Hok. }
  exists m. split; [|split; [done|]].
  - unfold readMongo, async, run, mongo_find, mongo_request. unfold bind at 1.
    unfold bind at 1. unfold call, await. simpl. rewrite Hup. simpl.
    fold found. rewrite Hm. simpl. f_equal. f_equal. lia.
  - intros k Hkp. rewrite Hlook, list_to_map_to_list, lookup_empty_object by done.
    unfold found. destruct (decide (k ∈ stateKeys)) as [Hk|Hk].
    + destruct (storage w !! k) as [doc|] eqn:Hdoc; simpl.
      * by rewrite (map_lookup_filter_Some_2 _ _ k doc).
      * by rewrite map_lookup_filter_None_2 by (by left).
    + rewrite map_lookup_filter_None_2; [done|]. right. intros doc _. done.
Qed.

(** ** Redis *)

Lemma get_state_up store c k w :
  cache store = Some c → redis_up w = true →
  get_state store k w
  = (Resolved (k, fst <$> redis_db w !! k),
     set_clock (clock w `max` (clock w + redis_latency w)) (add_log (RedisGet k) w)).
Proof.
  intros Hc Hup. unfold get_state, bind, redis_get, redis_request. rewrite Hc.
  unfold call, await, ret. simpl. by rewrite Hup.
Qed.

Lemma map_async_gets store c stateKeys w :
  cache store = Some c → redis_up w = true →
  map_async (get_state store) stateKeys w
  = (Resolved ((λ k, {| settled_at := clock w + redis_latency w;
                        outcome := Resolved (k, fst <$> redis_db w !! k) |}) <$> stateKeys),
     set_log (log w ++ (RedisGet <$> stateKeys)) w).
Proof.
  intros Hc. revert w. induction stateKeys as [|k stateKeys IH]; intros w Hup.
  - simpl. unfold ret, set_log. rewrite app_nil_r. by destruct w.
  - rewrite map_async_cons, (get_state_up _ c) by done. simpl.
    rewrite IH by done. unfold set_log. simpl. rewrite <-app_assoc.
    repeat f_equal; lia.
Qed.

Lemma reduce_cached_lookup (db : gmap string (string * Z)) stateKeys accum missing w :
  Forall (λ k, match db !! k with
               | Some (text, _) => text ≠ "" ∧ is_Some (parsed text)
               | None => True
               end) stateKeys →
  ∃ cached,
    reduce_cached ((λ k, (k, fst <$> db !! k)) <$> stateKeys) accum missing w
    = (Resolved (cached, missing ++ filter (λ k, db !! k = None) stateKeys), w) ∧
    ∀ k, k ≠ PROTO →
         cached !! k = match db !! k with
                       | Some (text, _) =>
                           if decide (k ∈ stateKeys) then parsed text else accum !! k
                       | None => accum !! k
                       end.
Proof.
  revert accum missing.
  induction stateKeys as [|k0 stateKeys IH]; intros accum missing Hok.
  - exists accum. split; [by rewrite app_nil_r|]. intros k _.
    destruct (db !! k) as [[text ex]|]; [|done]. by rewrite decide_False by apply not_elem_of_nil.
  - apply Forall_cons in Hok as [Hk0 Hok]. rewrite fmap_cons. simpl.
    destruct (db !! k0) as [[text ex]|] eqn:Hdb; simpl.
    + destruct Hk0 as [Hne [j Hj]]. rewrite bool_decide_true by done.
      destruct (IH (Object_set accum k0 j) missing Hok) as (cached & Hred & Hlook).
      exists cached. split.
      * unfold bind, lift. rewrite (parsed_Some _ _ Hj).
        rewrite Hred. rewrite filter_cons_False; [done|]. by rewrite Hdb.
      * intros k Hkp. rewrite Hlook by done. rewrite lookup_Object_set_other by done.
        rewrite (lookup_own accum). destruct (decide (k = k0)) as [->|Hkk].
        -- rewrite Hdb, lookup_insert_eq. rewrite (decide_True (P := k0 ∈ k0 :: stateKeys))
             by (apply elem_of_cons; by left). by destruct (decide (k0 ∈ stateKeys)).
        -- rewrite lookup_insert_ne by done. destruct (db !! k) as [[t e]|]; [|done].
           destruct (decide (k ∈ stateKeys)) as [Hin|Hin].
           ++ by rewrite decide_True by (apply elem_of_cons; by right).
           ++ rewrite decide_False; [done|]. rewrite elem_of_cons. by intros [?|?].
    + destruct (IH accum (missing ++ [k0]) Hok) as (cached & Hred & Hlook).
      exists cached. split.
      * rewrite Hred. rewrite filter_cons_True by done. by rewrite <-app_assoc.
      * intros k Hkp. rewrite Hlook by done.
        destruct (db !! k) as [[t e]|] eqn:Hk; [|done].
        destruct (decide (k ∈ stateKeys)) as [Hin|Hin].
        -- by rewrite decide_True by (apply elem_of_cons; by right).
        -- rewrite decide_False; [done|]. rewrite elem_of_cons. intros [->|?]; [|done].
           by rewrite Hdb in Hk.
Qed.

Lemma readRedis_lookup store c stateKeys w :
  cache store = Some c → redis_up w = true → stateKeys ≠ [] →
  Forall (cached_readable w) stateKeys →
  ∃ cached,
    readRedis store stateKeys w
    = ({| settled_at := clock w + redis_latency w;
          outcome := Resolved (cached, missing_keys w stateKeys) |},
       set_log (log w ++ (RedisGet <$> stateKeys)) w) ∧
    ∀ k, k ≠ PROTO →
         cached !! k = if decide (k ∈ stateKeys)
                       then redis_db w !! k ≫= λ v, parsed v.1 else None.
Proof.
  intros Hc Hup Hne Hok.
  destruct (reduce_cached_lookup (redis_db w) stateKeys ∅ []
              (set_clock (clock w `max` (clock w + redis_latency w))
                 (set_log (log w ++ (RedisGet <$> stateKeys)) w)) Hok)
    as (cached & Hred & Hlook).
  exists cached. split.
  - unfold readRedis, async. unfold bind at 1. rewrite (map_async_gets _ c) by done.
    unfold bind at 1. unfold await.
    pose proof (Promise_all_resolved stateKeys (clock w + redis_latency w)
                  (λ k, (k, fst <$> redis_db w !! k))) as Hp.
    simpl in Hp. rewrite Hp. simpl. rewrite max_list_uniform by done.
    rewrite Hred. simpl. f_equal. f_equal. lia.
  - intros k Hkp. rewrite Hlook, lookup_empty_object by done.
    destruct (redis_db w !! k) as [[text ex]|]; simpl; [done|]. by destruct (decide _).
Qed.

End read_specs.

(** * Stamping the payloads *)

Lemma get_prop_set_prop name v o : get_prop name (set_prop name v o) = Some v.
Proof.
  induction o as [|[k x] o IH]; simpl.
  - by rewrite decide_True.
  - destruct (decide (k = name)) as [->|Hne]; simpl.
    + by rewrite decide_True.
    + by rewrite decide_False.
Qed.

Lemma set_prop_set_prop name v v' o :
  set_prop name v (set_prop name v' o) = set_prop name v o.
Proof.
  induction o as [|[k x] o IH]; simpl.
  - by rewrite decide_True.
  - destruct (decide (k = name)) as [->|Hne]; simpl.
    + by rewrite decide_True.
    + rewrite decide_False by done. by rewrite IH.
Qed.

Lemma stamped_stamped tok tok' o : stamped tok (stamped tok' o) = stamped tok o.
Proof. apply set_prop_set_prop. Qed.

Lemma get_eTag_stamped tok o : get_prop "eTag" (stamped tok o) = Some (JPrim (PStr tok)).
Proof. apply get_prop_set_prop. Qed.

Section stamping.
Context `{rt : Runtime}.

Lemma stamp_entries_objects entries ops w :
  stamp_entries (objects entries) ops w
  = (Resolved (ops ++ stamp_ops (oid w) (clock w) entries (heap w)),
     set_oid (oid w + length entries)
       (set_heap (stamp_heap (oid w) entries (heap w)) w)).
Proof.
  revert ops w. induction entries as [|[k l] entries IH]; intros ops w.
  - simpl. rewrite app_nil_r, Nat.add_0_r. by destruct w.
  - simpl. unfold bind, new_ObjectId, assign_eTag, stringify_value, new_Date, read_eTag.
    simpl. rewrite lookup_total_insert_eq, get_prop_set_prop. simpl.
    fold (objects entries). rewrite IH. simpl. rewrite <-app_assoc. simpl.
    unfold set_oid, set_heap. simpl. repeat f_equal. lia.
Qed.

Lemma restamped_refl h : restamped h h.
Proof. intros l. by left. Qed.

Lemma restamped_insert h0 h l tok :
  restamped h0 h → restamped h0 (<[l := stamped tok (h !!! l)]> h).
Proof.
  intros H l'. destruct (decide (l = l')) as [<-|Hne].
  - rewrite lookup_total_insert_eq. right. exists tok.
    destruct (H l) as [->|[tok' ->]]; [done|apply stamped_stamped].
  - rewrite lookup_total_insert_ne by done. apply H.
Qed.

Lemma restamped_stamped h0 h l tok :
  restamped h0 h → stamped tok (h !!! l) = stamped tok (h0 !!! l).
Proof. intros H. destruct (H l) as [->|[tok' ->]]; [done|apply stamped_stamped]. Qed.

(** The [i]-th upsert carries the caller's object with the [i]-th new
    ObjectId as its [eTag], whatever aliasing there is among the entries. *)
Lemma stamp_ops_lookup h0 n now entries h i k l :
  restamped h0 h →
  entries !! i = Some (k, l) →
  stamp_ops n now entries h !! i
  = Some {| filter_key := k;
            set_state := JSON_stringify
                           (JObj (stamped (ObjectId_toHexString (n + i)) (h0 !!! l)));
            set_date := now;
            set_etag := ObjectId_toHexString (n + i);
            upsert := true |}.
Proof.
  revert n h i. induction entries as [|[k' l'] entries IH]; intros n h i Hh Hi; [done|].
  destruct i as [|i]; simpl in *.
  - injection Hi as -> ->. rewrite Nat.add_0_r. by rewrite (restamped_stamped h0).
  - rewrite (IH (S n) _ i); [|by apply restamped_insert|done].
    by replace (S n + i) with (n + S i) by lia.
Qed.

Lemma stamp_ops_keys n now entries h :
  filter_key <$> stamp_ops n now entries h = entries.*1.
Proof.
  revert n h. induction entries as [|[k l] entries IH]; intros n h; simpl; [done|].
  f_equal. apply IH.
Qed.

Lemma stamp_ops_upsert n now entries h :
  Forall (λ op, upsert op = true) (stamp_ops n now entries h).
Proof.
  revert n h. induction entries as [|[k l] entries IH]; intros n h; simpl; [done|].
  constructor; [done|apply IH].
Qed.

(** Every stamped object holds one of the new ObjectIds; the others are
    untouched. *)
Lemma stamp_heap_lookup h0 n entries h l :
  restamped h0 h →
  ((l ∉ entries.*2) ∧ (stamp_heap n entries h !!! l = h !!! l)) ∨
  (∃ i, i < length entries ∧
        stamp_heap n entries h !!! l = stamped (ObjectId_toHexString (n + i)) (h0 !!! l)).
Proof.
  revert n h. induction entries as [|[k' l'] entries IH]; intros n h Hh; simpl.
  - left. split; [apply not_elem_of_nil|done].
  - destruct (IH (S n) (<[l' := stamped (ObjectId_toHexString n) (h !!! l')]> h))
      as [[Hnot Heq]|(i & Hi & Heq)]; [by apply restamped_insert| |].
    + destruct (decide (l' = l)) as [->|Hne].
      * right. exists 0. split; [lia|]. rewrite Heq, lookup_total_insert_eq.
        rewrite Nat.add_0_r. by apply restamped_stamped.
      * left. split; [|by rewrite Heq, lookup_total_insert_ne].
        rewrite not_elem_of_cons. done.
    + right. exists (S i). split; [lia|]. rewrite Heq. by replace (S n + i) with (n + S i) by lia.
Qed.

Lemma stamp_heap_other n entries h l :
  l ∉ entries.*2 → stamp_heap n entries h !!! l = h !!! l.
Proof.
  revert n h. induction entries as [|[k' l'] entries IH]; intros n h Hl; simpl; [done|].
  rewrite fmap_cons in Hl. apply not_elem_of_cons in Hl as [Hne Hl].
  rewrite IH by done. by rewrite lookup_total_insert_ne.
Qed.


End stamping.

(** * The two halves of a write, on object payloads *)

Section write_objects.
Context `{rt : Runtime}.

Lemma writeMongo_objects store entries w :
  writeMongo store (objects entries) w
  = ({| settled_at := clock w + mongo_latency w;
        outcome := if mongo_up w then Resolved () else Rejected MongoError |},
     bulk_world store entries w).
Proof.
  unfold writeMongo, async, bind. rewrite stamp_entries_objects.
  unfold run, bind, call, mongo_bulkWrite, mongo_request, await, bulk_world, writeConcern.
  simpl. destruct (mongo_up w); simpl; repeat f_equal; lia.
Qed.

Lemma set_state_of_object store c k l w :
  cache store = Some c →
  set_state_of store (k, JsRef l) w
  = (if redis_up w then Resolved () else Rejected RedisError,
     set_clock (clock w `max` (clock w + redis_latency w))
       (add_log (cache_set store (heap w) (k, l))
          (if redis_up w
           then set_redis_db (<[k := cache_value store (heap w) (k, l)]> (redis_db w)) w
           else w))).
Proof.
  intros Hc. unfold set_state_of, bind, stringify_value, redis_set, redis_request.
  rewrite Hc. unfold call, await. simpl. by destruct (redis_up w).
Qed.

Lemma map_async_sets store c entries w :
  cache store = Some c →
  map_async (set_state_of store) (objects entries) w
  = (Resolved ((λ _, {| settled_at := clock w + redis_latency w;
                        outcome := if redis_up w then Resolved ()
                                   else Rejected RedisError |}) <$> entries),
     sets_world store entries w).
Proof.
  intros Hc. revert w. induction entries as [|[k l] entries IH]; intros w.
  - simpl. unfold ret, sets_world. simpl. rewrite app_nil_r.
    by destruct w as [? ? ? ? [] ? ? ? ? ?].
  - change (objects ((k, l) :: entries)) with ((k, JsRef l) :: objects entries).
    rewrite map_async_cons, (set_state_of_object _ c) by done. simpl.
    rewrite IH. unfold sets_world, cache_set, cache_value, set_log. simpl.
    destruct (redis_up w) eqn:Hup; simpl; rewrite ?Hup; simpl; rewrite <-app_assoc;
      repeat f_equal; (lia || done).
Qed.

Lemma sets_world_clock store entries w : clock (sets_world store entries w) = clock w.
Proof. unfold sets_world. by destruct (redis_up w). Qed.

Lemma writeRedis_objects store c entries w :
  cache store = Some c → entries ≠ [] →
  writeRedis store (objects entries) w
  = ({| settled_at := clock w + redis_latency w;
        outcome := if redis_up w then Resolved () else Rejected RedisError |},
     sets_world store entries w).
Proof.
  intros Hc Hne. unfold writeRedis, async. unfold bind at 1.
  rewrite (map_async_sets _ c) by done.
  pose proof (sets_world_clock store entries w) as Hclock.
  set (wf := sets_world store entries w) in *. clearbody wf.
  unfold bind, await, ret.
  destruct (redis_up w) eqn:Hup.
  - pose proof (Promise_all_resolved entries (clock w + redis_latency w) (λ _, ())) as Hp.
    simpl in Hp. rewrite Hp. simpl. rewrite max_list_uniform by done.
    rewrite Hclock. f_equal; [f_equal; lia|]. destruct wf; simpl in *; by subst.
  - unfold Promise_all. rewrite first_rejection_uniform by done. simpl.
    rewrite Hclock. f_equal; [f_equal; lia|]. destruct wf; simpl in *; by subst.
Qed.

Lemma bulk_world_env store entries w :
  clock (bulk_world store entries w) = clock w ∧
  redis_up (bulk_world store entries w) = redis_up w ∧
  redis_latency (bulk_world store entries w) = redis_latency w ∧
  redis_db (bulk_world store entries w) = redis_db w ∧
  heap (bulk_world store entries w) = stamp_heap (oid w) entries (heap w) ∧
  oid (bulk_world store entries w) = oid w + length entries.
Proof. unfold bulk_world. by destruct (mongo_up w). Qed.

Lemma set_clock_twice w t t' : clock w = t → set_clock t (set_clock t' w) = w.
Proof. intros <-. by destruct w. Qed.

Lemma objects_nonempty entries : entries ≠ [] → objects entries ≠ [].
Proof. by destruct entries. Qed.

Lemma write_nonempty store changes :
  changes ≠ [] →
  write store changes
  = async (let* p := call (writeMongo store changes) in
           let* writeOperations :=
             (if isCacheEnabled store then
                let* q := call (writeRedis store changes) in ret [p; q]
              else ret [p]) in
           let* _ := await (Promise_all writeOperations) in
           ret ()).
Proof. by destruct changes. Qed.

Lemma write_objects_uncached store entries w :
  isCacheEnabled store = false → entries ≠ [] →
  write store (objects entries) w
  = ({| settled_at := clock w + mongo_latency w;
        outcome := if mongo_up w then Resolved () else Rejected MongoError |},
     bulk_world store entries w).
Proof.
  intros Hen Hne. rewrite write_nonempty by by apply objects_nonempty.
  unfold async. rewrite Hen. unfold bind at 1. unfold call. rewrite writeMongo_objects.
  destruct (bulk_world_env store entries w) as (Hclock & _).
  set (bw := bulk_world store entries w) in *. clearbody bw.
  unfold bind, ret, await, Promise_all. simpl. rewrite Hclock.
  destruct (mongo_up w); simpl; (f_equal; [f_equal; lia|by apply set_clock_twice]).
Qed.

Lemma write_objects_cached store c entries w :
  isCacheEnabled store = true → cache store = Some c → entries ≠ [] →
  let all := Promise_all
               [ {| settled_at := clock w + mongo_latency w;
                    outcome := if mongo_up w then Resolved () else Rejected MongoError |};
                 {| settled_at := clock w + redis_latency w;
                    outcome := if redis_up w then Resolved () else Rejected RedisError |} ] in
  write store (objects entries) w
  = ({| settled_at := settled_at all;
        outcome := match outcome all with
                   | Resolved _ => Resolved ()
                   | Rejected e => Rejected e
                   end |},
     sets_world store entries (bulk_world store entries w)).
Proof.
  intros Hen Hc Hne all. subst all. rewrite write_nonempty by by apply objects_nonempty.
  unfold async. rewrite Hen. unfold bind at 1. unfold call. rewrite writeMongo_objects.
  unfold bind at 1. unfold bind at 1. rewrite (writeRedis_objects _ c) by done.
  destruct (bulk_world_env store entries w) as (Hclock & Hup & Hlat & _).
  rewrite Hclock, Hup, Hlat.
  pose proof (sets_world_clock store entries (bulk_world store entries w)) as Hclock'.
  rewrite Hclock in Hclock'.
  set (wf := sets_world store entries (bulk_world store entries w)) in *. clearbody wf.
  unfold ret, bind, await, Promise_all. simpl. rewrite Hclock'.
  destruct (mongo_up w), (redis_up w); simpl;
    try (destruct (decide _); simpl);
    (f_equal; [f_equal; lia|by apply set_clock_twice]).
Qed.

(** The world a write of object payloads leaves, in both configurations. *)
Lemma write_objects_world store entries w :
  (isCacheEnabled store = true → is_Some (cache store)) → entries ≠ [] →
  let w' := (write store (objects entries) w).2 in
  let ops := stamp_ops (oid w) (clock w) entries (heap w) in
  let h' := stamp_heap (oid w) entries (heap w) in
  heap w' = h' ∧
  storage w' = (if mongo_up w
                then foldl (λ s op, <[filter_key op := document_of op]> s) (storage w) ops
                else storage w) ∧
  redis_db w' = (if isCacheEnabled store && redis_up w
                 then foldl (λ r e, <[e.1 := cache_value store h' e]> r) (redis_db w) entries
                 else redis_db w) ∧
  log w' = log w ++ MongoBulkWrite ops (writeConcern store)
                 :: (if isCacheEnabled store then cache_set store h' <$> entries else []) ∧
  oid w' = oid w + length entries ∧
  clock w' = clock w ∧ mongo_up w' = mongo_up w ∧ redis_up w' = redis_up w ∧
  mongo_latency w' = mongo_latency w ∧ redis_latency w' = redis_latency w.
Proof.
  intros Hc Hne. destruct (isCacheEnabled store) eqn:Hen.
  - destruct Hc as [c Hc]; [done|]. simpl.
    pose proof (write_objects_cached store c entries w Hen Hc Hne) as Hw.
    simpl in Hw. rewrite Hw. simpl.
    unfold sets_world, bulk_world, stamp_world, set_log. simpl.
    destruct (mongo_up w) eqn:Hm; simpl; destruct (redis_up w) eqn:Hr; simpl;
      rewrite ?Hm, ?Hr; simpl; rewrite ?foldl_updateOne by apply stamp_ops_upsert;
      rewrite <-?app_assoc; done.
  - rewrite write_objects_uncached by done. simpl.
    unfold bulk_world, stamp_world. simpl.
    destruct (mongo_up w) eqn:Hm; simpl;
      rewrite ?foldl_updateOne by apply stamp_ops_upsert; done.
Qed.

End write_objects.

(** * Write followed by read *)

Lemma run_eq {A} (t : Task A) w :
  run t w = (outcome (t w).1, set_clock (clock (t w).2 `max` settled_at (t w).1) (t w).2).
Proof. unfold run, bind, call, await. by destruct (t w). Qed.

Lemma Object_keys_objects entries : Object_keys (objects entries) = entries.*1.
Proof. unfold Object_keys, objects. by rewrite <-list_fmap_compose. Qed.

Lemma elem_of_objects entries k v :
  (k, v) ∈ objects entries ↔ ∃ l, v = JsRef l ∧ (k, l) ∈ entries.
Proof.
  unfold objects. rewrite list_elem_of_fmap. split.
  - intros ([k' l] & [= -> ->] & Hin). by exists l.
  - intros (l & -> & Hin). by exists (k, l).
Qed.

Section round_trip.
Context `{rt : Runtime}.

Lemma write_objects_outcome store entries w :
  (isCacheEnabled store = true → is_Some (cache store)) → entries ≠ [] →
  mongo_up w = true → (isCacheEnabled store = true → redis_up w = true) →
  outcome (write store (objects entries) w).1 = Resolved ().
Proof.
  intros Hc Hne Hm Hr. destruct (isCacheEnabled store) eqn:Hen.
  - destruct Hc as [c Hc]; [done|].
    pose proof (write_objects_cached store c entries w Hen Hc Hne) as Hw.
    simpl in Hw. rewrite Hw. unfold Promise_all. simpl. by rewrite Hm, Hr.
  - rewrite write_objects_uncached by done. simpl. by rewrite Hm.
Qed.

Lemma payloads_serializable_elem entries w k l j :
  payloads_serializable entries w → (k, l) ∈ entries → j < length entries →
  serializable (JObj (stamped (ObjectId_toHexString (oid w + j)) (heap w !!! l))).
Proof.
  intros Hs Hin Hj. unfold payloads_serializable in Hs.
  rewrite Forall_forall in Hs. specialize (Hs _ Hin). simpl in Hs.
  rewrite Forall_forall in Hs. apply Hs. apply elem_of_seq. lia.
Qed.

(** What was read is what was written, once every requested key is known to
    come back as a stamped version of the caller's object. *)
Lemma round_trip_finish (entries : list (string * loc)) (h : gmap loc JsObject)
    (states : PlainObject) (lookup_of : string → option json) :
  (∀ k, states !! k = if decide (k ∈ entries.*1) then lookup_of k else None) →
  (∀ k l, (k, l) ∈ entries → ∃ tok, lookup_of k = Some (JObj (stamped tok (h !!! l)))) →
  dom states = list_to_set entries.*1 ∧
  ∀ k v, (k, v) ∈ objects entries →
         ∃ back, states !! k = Some back ∧ same_content h v back.
Proof.
  intros Hlook Hsome. split.
  - apply set_eq. intros k. rewrite dom_own, elem_of_dom, elem_of_list_to_set.
    rewrite <-lookup_own, Hlook.
    destruct (decide (k ∈ entries.*1)) as [Hin|Hin]; [|by split; [intros [? ?]|]].
    split; [done|]. intros _. apply list_elem_of_fmap in Hin as ([k' l] & -> & Hin).
    simpl. destruct (Hsome _ _ Hin) as [tok ->]. by eexists.
  - intros k v (l & -> & Hin)%elem_of_objects.
    destruct (Hsome _ _ Hin) as [tok Htok]. exists (JObj (stamped tok (h !!! l))).
    split; [|by exists tok]. rewrite Hlook, decide_True; [done|].
    apply list_elem_of_fmap. by exists (k, l).
Qed.

End round_trip.

(** * The store the constructor builds *)

Lemma constructor_Resolved `{dr : Drivers} uri options store :
  constructor uri options = Resolved store →
  store
  = {| uri := uri;
       dbName := trimmed_or (Options.database options) DEFAULT_DATABASE_NAME;
       colName := trimmed_or (Options.collection options) DEFAULT_COLLECTION_NAME;
       key := DEFAULT_DOCUMENT_KEY;
       isCacheEnabled :=
         match Options.redis options with Some _ => true | None => false end;
       options := options;
       mClient := {| mongo_uri := uri; mongo_options := Options.mongo options |};
       rClient :=
         match Options.redis options with
         | Some redisOptions => Some {| redis_options := redisOptions |}
         | None => None
         end;
       cacheExpiration :=
         or_number (Options.cacheExpiration options) DEFAULT_CACHE_EXPIRATION_TIME;
       disableWriteConcern := or_false (Options.disableWriteConcern options) |}.
Proof.
  unfold constructor, new_MongoClient, createClient. case_decide; [done|].
  destruct (MongoClient_accepts _ _); [|done].
  destruct (Options.redis options) as [redisOptions|]; [|by intros [= <-]].
  destruct (createClient_accepts _); [|done]. by intros [= <-].
Qed.

(** * The cache is only written by the write path *)

(** C9: [read] leaves the content of the cache as it is and sends it neither
    a [SET] nor a [DEL], whatever the keys, the configuration and the state of
    the backends: a value fetched from MongoDB on a miss is not stored in the
    cache. *)
Theorem read_never_writes_cache `{rt : Runtime} (store : MongoStore)
    (stateKeys : list string) (w : World) :
  redis_db (read store stateKeys w).2 = redis_db w ∧
  Forall (λ c, ¬ is_cache_write c) (issued (read store stateKeys) w).
Proof.
  pose proof (read_framed
    (λ w w', keeps_cache w w' ∧ issues_only (λ c, ¬ is_cache_write c) w w')) as H.
  destruct (H ltac:(intros keys w0; split; [done|]; apply issues_only_add_log; [|done]; by intros [])
               ltac:(intros k w0; split; [done|]; apply issues_only_add_log; [|done]; by intros [])
               store stateKeys w) as [Hdb (l & Hlog & Hl)].
  split; [done|]. by rewrite (issued_spec _ _ _ Hlog).
Qed.

(** * Health check *)

Lemma constructor_with_redis :
  @constructor test_drivers test_uri options_with_redis = Resolved store_with_redis.
Proof. vm_compute. reflexivity. Qed.

Lemma constructor_without_redis :
  @constructor test_drivers test_uri options_without_redis = Resolved store_without_redis.
Proof. vm_compute. reflexivity. Qed.

(** The constructor enables the cache exactly when it creates the client. *)
Lemma constructor_cache `{dr : Drivers} uri options store :
  constructor uri options = Resolved store →
  isCacheEnabled store = bool_decide (is_Some (Options.redis options)) ∧
  (rClient store = None ↔ Options.redis options = None) ∧
  disableWriteConcern store = or_false (Options.disableWriteConcern options).
Proof.
  intros ->%constructor_Resolved; simpl.
  destruct (Options.redis options); simpl; repeat split; done.
Qed.

(** C2 (the code differs): when the MongoDB ping is rejected, [health] is
    rejected with that error; nothing catches it. *)
Theorem health_rejected_when_mongo_is_down (store : MongoStore) (w : World) :
  mongo_up w = false →
  (health store w).1 =
    {| settled_at := clock w + mongo_latency w; outcome := Rejected MongoError |}.
Proof.
  intros Hdown. unfold health, async, bind, run, call, mongo_ping, mongo_request, await.
  simpl. rewrite Hdown. simpl. f_equal. lia.
Qed.

Lemma health_rejected_when_mongo_is_down_witness :
  (health store_with_redis (set_mongo_up false (fresh_world ∅))).1 =
    {| settled_at := 5; outcome := Rejected MongoError |}.
Proof. apply (health_rejected_when_mongo_is_down store_with_redis). reflexivity. Defined.

(** With the cache configured and both servers up the composite result is
    returned, after two pings of the cache. *)
Example health_all_up :
  (health store_with_redis (fresh_world ∅)).1
  = {| settled_at := 6; outcome := Resolved {| ok := 1; mongo := 1; redis := Some 1%Z |} |} ∧
  issued (health store_with_redis) (fresh_world ∅) = [MongoPing; RedisPing; RedisPing].
Proof. vm_compute. done. Qed.

(** C3 (the code differs): without the [redis] option, [health] calls [ping]
    on the missing client before it looks at [isCacheEnabled], and is rejected
    with a TypeError although MongoDB answered. *)
Theorem health_pings_missing_client `{dr : Drivers} (uri : string) (options : MongoStoreOptions)
    (store : MongoStore) (w : World) :
  constructor uri options = Resolved store →
  Options.redis options = None →
  mongo_up w = true →
  isCacheEnabled store = false ∧
  (health store w).1 =
    {| settled_at := clock w + mongo_latency w; outcome := Rejected TypeError |}.
Proof.
  intros Hc Hr Hup. destruct (constructor_cache _ _ _ Hc) as (He & Hcl & _).
  rewrite Hr in He. split; [done|]. destruct Hcl as [_ Hcl]. specialize (Hcl Hr).
  unfold health, async, bind, run, call, mongo_ping, mongo_request, await.
  simpl. rewrite Hup, Hcl. simpl. f_equal. lia.
Qed.

Lemma health_pings_missing_client_witness :
  isCacheEnabled store_without_redis = false ∧
  (health store_without_redis (fresh_world ∅)).1 =
    {| settled_at := 5; outcome := Rejected TypeError |}.
Proof.
  apply (health_pings_missing_client (dr := test_drivers) test_uri options_without_redis); reflexivity.
Defined.

(** * Delete without a cache *)

(** C1 (the code differs): without the [redis] option, [delete] of a
    non-empty key set calls [del] on the missing client and is rejected with a
    TypeError at once; the [deleteMany] is sent to MongoDB all the same and
    takes effect when the server is up. *)
Theorem delete_rejected_without_cache `{dr : Drivers} (uri : string) (options : MongoStoreOptions)
    (store : MongoStore) (keys : list string) (w : World) :
  constructor uri options = Resolved store →
  Options.redis options = None →
  keys ≠ [] →
  (delete store keys w).1 = {| settled_at := clock w; outcome := Rejected TypeError |} ∧
  issued (delete store keys) w = [MongoDeleteMany keys (durability options)] ∧
  storage (delete store keys w).2 =
    if mongo_up w then filter (λ d, d.1 ∉ keys) (storage w) else storage w.
Proof.
  intros Hc Hr Hk. destruct (constructor_cache _ _ _ Hc) as (_ & [_ Hcl] & Hd).
  specialize (Hcl Hr).
  assert (Hwc : (if negb (disableWriteConcern store) then w_0 else w_majority)
                = durability options).
  { rewrite Hd. unfold durability. by destruct (Options.disableWriteConcern options) as [[]|]. }
  unfold issued, delete, async, bind, call. destruct keys as [|k keys]; [done|].
  rewrite deleteRedis_no_client by done.
  unfold deleteMongo, async, run, bind, call, mongo_deleteMany, mongo_request, await.
  simpl. rewrite Hwc. unfold Promise_all. simpl.
  split; [|split].
  - destruct (mongo_up w); simpl; [by rewrite Nat.max_id|].
    rewrite decide_True by lia. simpl. by rewrite Nat.max_id.
  - destruct (mongo_up w); simpl;
      (destruct (decide _); simpl; by rewrite drop_app_length) || by rewrite drop_app_length.
  - destruct (mongo_up w); simpl; [done|]. by destruct (decide _).
Qed.

Lemma delete_rejected_without_cache_witness :
  (delete store_without_redis ["a"] (fresh_world ∅)).1
    = {| settled_at := 0; outcome := Rejected TypeError |} ∧
  issued (delete store_without_redis ["a"]) (fresh_world ∅)
    = [MongoDeleteMany ["a"] (durability options_without_redis)] ∧
  storage (delete store_without_redis ["a"] (fresh_world ∅)).2 =
    if mongo_up (fresh_world ∅) then filter (λ d, d.1 ∉ ["a"]) (storage (fresh_world ∅))
    else storage (fresh_world ∅).
Proof.
  apply (delete_rejected_without_cache (dr := test_drivers) test_uri options_without_redis);
    [reflexivity|reflexivity|discriminate].
Defined.

(** * Cache-aside read *)

Lemma read_cached_eq `{rt : Runtime} (store : MongoStore) (c : RedisClient)
    (stateKeys : list string) (w : World) :
  isCacheEnabled store = true →
  rClient store = Some c →
  redis_up w = true →
  (missing_keys w stateKeys ≠ [] → mongo_up w = true) →
  stateKeys ≠ [] →
  Forall (cached_readable w) stateKeys →
  Forall (stored_readable w) (missing_keys w stateKeys) →
  ∃ states t w',
    read store stateKeys w = ({| settled_at := t; outcome := Resolved states |}, w') ∧
    log w' = log w ++ (RedisGet <$> stateKeys) ++
             (if decide (missing_keys w stateKeys = []) then []
              else [MongoFind (missing_keys w stateKeys)]) ∧
    ∀ k, states !! k
         = if decide (k ∈ stateKeys ∧ k ≠ PROTO) then cache_aside w k else None.
Proof.
  intros Hen Hc Hrup Hmup Hne Hcached Hstored.
  destruct (readRedis_lookup store c stateKeys w Hc Hrup Hne Hcached)
    as (cached & Hred & Hlook).
  unfold read, async, run. destruct stateKeys as [|k0 keys0] eqn:Hkeys; [done|].
  rewrite <-Hkeys in *. rewrite Hen. unfold bind at 1. unfold bind at 1.
  unfold call. rewrite Hred. unfold await. simpl.
  destruct (missing_keys w stateKeys) as [|m0 ms] eqn:Hmiss.
  - eexists (Object_assign ∅ cached), _, _. simpl. split; [done|]. split.
    + by rewrite app_nil_r.
    + intros k. destruct (decide (k = PROTO)) as [->|Hkp].
      { rewrite lookup_Object_assign_proto by done.
        rewrite decide_False; [done|]. by intros [_ ?]. }
      rewrite lookup_Object_assign_other, lookup_empty_object, Hlook by done.
      destruct (decide (k ∈ stateKeys)) as [Hin|Hin].
      * rewrite decide_True by done. unfold cache_aside.
        destruct (redis_db w !! k) as [[text ex]|] eqn:Hdb; simpl;
          [by destruct (parsed text)|].
        assert (k ∈ missing_keys w stateKeys) as Hk by by apply list_elem_of_filter.
        rewrite Hmiss in Hk. by apply elem_of_nil in Hk.
      * rewrite decide_False; [done|]. by intros [? _].
  - rewrite <-Hmiss in *.
    set (w1 := set_clock _ _).
    destruct (readMongo_lookup store (missing_keys w stateKeys) w1)
      as (m & Hm & Hmproto & Hmlook).
    { apply Hmup. by rewrite Hmiss. }
    { eapply Forall_impl; [exact Hstored|]. intros k Hk. exact Hk. }
    unfold bind. rewrite Hm. simpl.
    eexists (Object_assign (Object_assign ∅ cached) m), _, _. split; [done|]. split.
    + rewrite decide_False by by rewrite Hmiss. simpl. by rewrite <-app_assoc.
    + intros k. destruct (decide (k = PROTO)) as [->|Hkp].
      { rewrite lookup_Object_assign_no_proto, lookup_Object_assign_proto by done.
        rewrite decide_False; [done|]. by intros [_ ?]. }
      rewrite !lookup_Object_assign_other, lookup_empty_object by done.
      rewrite Hmlook, Hlook by done. unfold cache_aside.
      destruct (decide (k ∈ stateKeys)) as [Hin|Hin].
      * rewrite (decide_True (P := k ∈ stateKeys ∧ k ≠ PROTO)) by done.
        destruct (redis_db w !! k) as [[text ex]|] eqn:Hdb; simpl.
        -- rewrite decide_False; [by destruct (parsed text)|].
           intros [Hk _]%list_elem_of_filter. by rewrite Hdb in Hk.
        -- rewrite decide_True by by apply list_elem_of_filter.
           by destruct (storage w !! k ≫= _).
      * rewrite !decide_False; [done| |].
        -- by intros [? _].
        -- by intros [_ ?]%list_elem_of_filter.
Qed.

Lemma read_uncached_eq `{rt : Runtime} (store : MongoStore)
    (stateKeys : list string) (w : World) :
  isCacheEnabled store = false →
  mongo_up w = true →
  stateKeys ≠ [] →
  Forall (stored_readable w) stateKeys →
  ∃ states t w',
    read store stateKeys w = ({| settled_at := t; outcome := Resolved states |}, w') ∧
    log w' = log w ++ [MongoFind stateKeys] ∧
    ∀ k, states !! k = if decide (k ∈ stateKeys ∧ k ≠ PROTO)
                       then storage w !! k ≫= λ doc, parsed (state doc) else None.
Proof.
  intros Hen Hup Hne Hok.
  destruct (readMongo_lookup store stateKeys w Hup Hok) as (m & Hm & Hmp & Hlook).
  unfold read, async, run. destruct stateKeys as [|k0 keys0] eqn:Hkeys; [done|].
  rewrite <-Hkeys in *. rewrite Hen. unfold bind, call. rewrite Hm. simpl.
  eexists (Object_assign ∅ m), _, _. split; [done|]. split; [done|].
  intros k. destruct (decide (k = PROTO)) as [->|Hkp].
  { rewrite lookup_Object_assign_proto by done.
    rewrite decide_False; [done|]. by intros [_ ?]. }
  rewrite lookup_Object_assign_other, lookup_empty_object, Hlook by done.
  destruct (decide (k ∈ stateKeys)) as [Hin|Hin].
  - rewrite decide_True by done. by destruct (_ ≫= _).
  - rewrite decide_False; [done|]. by intros [? _].
Qed.



(** The cached copy of [a] wins over the stale stored one, [b] comes from
    MongoDB, [c] is in neither tier. *)
Example read_both_tiers :
  outcome (@read tiers_runtime store_with_redis ["a"; "b"; "c"] tiers_world).1
  = Resolved (plain {[ "a" := cached_a; "b" := stored_b ]}).
Proof. vm_compute. reflexivity. Qed.


(** * Version tokens *)

Lemma constructor_client `{dr : Drivers} uri options store :
  constructor uri options = Resolved store →
  isCacheEnabled store = true → is_Some (cache store).
Proof.
  intros ->%constructor_Resolved; simpl.
  by destruct (Options.redis options).
Qed.

Lemma stamp_ops_elem `{rt : Runtime} n now entries h i k l :
  entries !! i = Some (k, l) →
  {| filter_key := k;
     set_state := JSON_stringify (JObj (stamped (ObjectId_toHexString (n + i)) (h !!! l)));
     set_date := now;
     set_etag := ObjectId_toHexString (n + i);
     upsert := true |} ∈ stamp_ops n now entries h.
Proof.
  intros Hi. eapply list_elem_of_lookup_2.
  by apply (stamp_ops_lookup h n now entries h i k l (restamped_refl h)).
Qed.

(** C7 (amended): for the [i]-th entry of a [write] whose payloads are all
    objects, the upsert sent to
    MongoDB carries the caller's object with its [eTag] set to the [i]-th
    ObjectId generated by this call, which replaces whatever [eTag] the caller
    supplied; the stored document is the upserted one whatever was stored
    under the key before, and the ObjectId counter has moved past the tokens
    used. *)
Theorem write_stamps_a_new_version `{dr : Drivers} `{rt : Runtime} (uri : string)
    (options : MongoStoreOptions) (store : MongoStore)
    (entries : list (string * loc)) (w : World) (i : nat) (k : string) (l : loc) :
  constructor uri options = Resolved store →
  NoDup entries.*1 →
  entries !! i = Some (k, l) →
  let tok := ObjectId_toHexString (oid w + i) in
  let o := stamped tok (heap w !!! l) in
  let w' := (write store (objects entries) w).2 in
  get_prop "eTag" o = Some (JPrim (PStr tok)) ∧
  (∃ ops rest,
     issued (write store (objects entries)) w = MongoBulkWrite ops (writeConcern store) :: rest ∧
     ops !! i = Some {| filter_key := k; set_state := JSON_stringify (JObj o);
                        set_date := clock w; set_etag := tok; upsert := true |}) ∧
  (mongo_up w = true →
   storage w' !! k
   = Some {| state := JSON_stringify (JObj o); date := clock w; etag := tok |}) ∧
  oid w' = oid w + length entries ∧
  (∀ stored,
     (write store (objects entries) (set_storage stored w)).1
     = (write store (objects entries) w).1 ∧
     issued (write store (objects entries)) (set_storage stored w)
     = issued (write store (objects entries)) w).
Proof.
  intros Hcons Hnd Hi tok o w'.
  assert (entries ≠ []) as Hne by by destruct entries.
  pose proof (constructor_client _ _ _ Hcons) as Hclient.
  destruct (write_objects_world store entries w Hclient Hne)
    as (_ & Hst & _ & Hlog & Hoid & _).
  fold w' in Hst, Hlog, Hoid. split; [apply get_eTag_stamped|].
  split; [|split; [|split; [done|]]].
  - eexists _, _. split.
    + unfold issued. fold w'. rewrite Hlog. by rewrite drop_app_length.
    + by apply (stamp_ops_lookup (heap w) _ _ _ _ i k l (restamped_refl _)).
  - intros Hup. rewrite Hst, Hup.
    pose proof (stamp_ops_elem (oid w) (clock w) entries (heap w) i k l Hi) as Hop.
    apply (foldl_insert_lookup filter_key document_of _ (storage w)) in Hop; [done|].
    by rewrite stamp_ops_keys.
  - intros stored. split.
    + destruct (isCacheEnabled store) eqn:Hen.
      * destruct Hclient as [c Hc]; [done|].
        pose proof (write_objects_cached store c entries w Hen Hc Hne) as H1.
        pose proof (write_objects_cached store c entries (set_storage stored w) Hen Hc Hne)
          as H2.
        simpl in H1, H2. by rewrite H1, H2.
      * by rewrite !write_objects_uncached.
    + destruct (write_objects_world store entries (set_storage stored w) Hclient Hne)
        as (_ & _ & _ & Hlog' & _).
      unfold issued. fold w'. rewrite Hlog, Hlog'. simpl. by rewrite !drop_app_length.
Qed.

Lemma write_stamps_a_new_version_witness :
  let w := fresh_world payload_heap in
  let tok := @ObjectId_toHexString payload_runtime (oid w + 1) in
  let o := stamped tok (heap w !!! 1) in
  let w' := (@write payload_runtime store_with_redis (objects two_entries) w).2 in
  get_prop "eTag" o = Some (JPrim (PStr tok)) ∧
  (∃ ops rest,
     issued (@write payload_runtime store_with_redis (objects two_entries)) w
     = MongoBulkWrite ops (writeConcern store_with_redis) :: rest ∧
     ops !! 1 = Some {| filter_key := "s2";
                        set_state := @JSON_stringify payload_runtime (JObj o);
                        set_date := clock w; set_etag := tok; upsert := true |}) ∧
  (mongo_up w = true →
   storage w' !! "s2"
   = Some {| state := @JSON_stringify payload_runtime (JObj o); date := clock w;
             etag := tok |}) ∧
  oid w' = oid w + length two_entries ∧
  (∀ stored,
     (@write payload_runtime store_with_redis (objects two_entries) (set_storage stored w)).1
     = (@write payload_runtime store_with_redis (objects two_entries) w).1 ∧
     issued (@write payload_runtime store_with_redis (objects two_entries))
       (set_storage stored w)
     = issued (@write payload_runtime store_with_redis (objects two_entries)) w).
Proof.
  apply (@write_stamps_a_new_version test_drivers payload_runtime test_uri options_with_redis).
  - reflexivity.
  - apply (bool_decide_unpack _). vm_compute. exact I.
  - reflexivity.
Defined.

(** C7 as stated fails on a write with a primitive payload: the assignment
    of [eTag] throws on it, no upsert is sent for any entry, and the document
    stored under the key of the object entry is not replaced. *)
Lemma primitive_payload_stops_the_upserts :
  let old := {| state := "{}"; date := 0; etag := "oid9" |} in
  let w := set_storage {[ "s1" := old ]} (fresh_world payload_heap) in
  let changes := [("s1", JsRef 0); ("n", JsPrim (PNum 7))] in
  (@write payload_runtime store_without_redis changes w).1
  = {| settled_at := 0; outcome := Rejected TypeError |} ∧
  issued (@write payload_runtime store_without_redis changes) w = [] ∧
  storage (@write payload_runtime store_without_redis changes w).2 !! "s1" = Some old.
Proof. vm_compute. done. Qed.

(** The [eTag] the caller supplied is replaced. *)
Example write_replaces_the_callers_eTag :
  storage (@write payload_runtime store_with_redis (objects two_entries)
             (fresh_world payload_heap)).2 !! "s2"
  = Some {| state := print_json (JObj [("name", JPrim (PStr "bob"));
                                      ("eTag", JPrim (PStr "oid1"))]);
            date := 0; etag := "oid1" |}.
Proof. vm_compute. reflexivity. Qed.




(** Two keys sharing one object: MongoDB gets the object as it stood after
    each stamping, the cache gets it twice as the call leaves it. *)
Example write_of_a_shared_object :
  let w' := (@write payload_runtime store_with_redis (objects [("s1", 0); ("s2", 0)])
               (fresh_world payload_heap)).2 in
  heap w' !!! 0 = [("v", JPrim (PNum 1)); ("eTag", JPrim (PStr "oid1"))] ∧
  state <$> storage w' !! "s1"
  = Some (print_json (JObj [("v", JPrim (PNum 1)); ("eTag", JPrim (PStr "oid0"))])) ∧
  fst <$> redis_db w' !! "s1"
  = Some (print_json (JObj [("v", JPrim (PNum 1)); ("eTag", JPrim (PStr "oid1"))])).
Proof. vm_compute. done. Qed.

(** * Round trip *)

Lemma round_trip_objects `{dr : Drivers} `{rt : Runtime} (uri : string)
    (options : MongoStoreOptions) (store : MongoStore)
    (entries : list (string * loc)) (w : World) :
  constructor uri options = Resolved store →
  NoDup entries.*1 →
  PROTO ∉ entries.*1 →
  mongo_up w = true →
  (isCacheEnabled store = true → redis_up w = true) →
  payloads_serializable entries w →
  round_trip store (objects entries) w.
Proof.
  intros Hcons Hnd Hproto Hmup Hrup Hser. unfold round_trip.
  destruct (decide (entries = [])) as [->|Hne].
  { eexists _, ∅, _. split; [done|]. split; [done|]. split; [done|].
    intros k v Hin. by apply elem_of_nil in Hin. }
  pose proof (constructor_client _ _ _ Hcons) as Hclient.
  rewrite Object_keys_objects.
  rewrite (run_eq (write store (objects entries))).
  rewrite write_objects_outcome by done.
  destruct (write_objects_world store entries w Hclient Hne)
    as (Hheap & Hst & Hdb & _ & _ & _ & Hmup' & Hrup' & _).
  set (w' := (write store (objects entries) w).2) in *.
  set (w1 := set_clock _ w').
  assert (redis_db w1 = redis_db w' ∧ storage w1 = storage w' ∧
          mongo_up w1 = mongo_up w' ∧ redis_up w1 = redis_up w')
    as (Hdb1 & Hst1 & Hmup1 & Hrup1) by done.
  rewrite Hmup' in Hmup1. rewrite Hrup' in Hrup1. rewrite Hmup in Hmup1.
  cut (∃ states w2,
         run (read store entries.*1) w1 = (Resolved states, w2) ∧
         dom states = list_to_set entries.*1 ∧
         ∀ k v, (k, v) ∈ objects entries →
                ∃ back, states !! k = Some back ∧ same_content (heap w) v back).
  { intros (states & w2 & ?). by exists w1, states, w2. }
  clearbody w1.
  assert (entries.*1 ≠ []) as Hkeys by by destruct entries.
  destruct (isCacheEnabled store) eqn:Hen.
  - destruct Hclient as [c Hc]; [done|]. specialize (Hrup eq_refl).
    rewrite Hrup in Hrup1. simpl in Hdb. rewrite Hrup in Hdb.
    assert (∀ k l, (k, l) ∈ entries →
              ∃ tok, redis_db w1 !! k
                     = Some (JSON_stringify (JObj (stamped tok (heap w !!! l))),
                             cacheExpiration store) ∧
                     serializable (JObj (stamped tok (heap w !!! l)))) as Hcached.
    { intros k l Hin.
      destruct (stamp_heap_lookup (heap w) (oid w) entries (heap w) l (restamped_refl _))
        as [[Hnot _]|(j & Hj & Hl)].
      { exfalso. apply Hnot. apply list_elem_of_fmap. by exists (k, l). }
      exists (ObjectId_toHexString (oid w + j)). split.
      - rewrite Hdb1, Hdb.
        rewrite (foldl_insert_lookup fst
                   (cache_value store (stamp_heap (oid w) entries (heap w)))
                   entries (redis_db w) (k, l)) by done.
        unfold cache_value. simpl. by rewrite Hl.
      - by apply (payloads_serializable_elem entries w k l j). }
    assert (missing_keys w1 entries.*1 = []) as Hmiss.
    { apply elem_of_nil_inv. intros k [Hnone Hk]%list_elem_of_filter.
      apply list_elem_of_fmap in Hk as ([k' l] & -> & Hin).
      destruct (Hcached _ _ Hin) as (tok & Hk & _). simpl in Hnone. by rewrite Hk in Hnone. }
    destruct (read_cached_eq store c entries.*1 w1 Hen Hc Hrup1 (λ _, Hmup1) Hkeys)
      as (states & t & w2 & Hread & _ & Hlook); [|by rewrite Hmiss|].
    { apply Forall_forall. intros k Hk.
      apply list_elem_of_fmap in Hk as ([k' l] & -> & Hin).
      destruct (Hcached _ _ Hin) as (tok & Hk & Hne' & Hp). simpl.
      unfold cached_readable. rewrite Hk. split; [done|]. by rewrite Hp. }
    eexists states, _. split.
    { rewrite run_eq, Hread. done. }
    apply (round_trip_finish entries (heap w) states (cache_aside w1));
      [intros k; by rewrite Hlook, if_requested_not_proto|].
    intros k l Hin. destruct (Hcached _ _ Hin) as (tok & Hk & _ & Hp).
    exists tok. unfold cache_aside. by rewrite Hk.
  - rewrite Hmup in Hst.
    assert (∀ k l, (k, l) ∈ entries →
              ∃ tok doc, storage w1 !! k = Some doc ∧
                         state doc = JSON_stringify (JObj (stamped tok (heap w !!! l))) ∧
                         serializable (JObj (stamped tok (heap w !!! l)))) as Hstored.
    { intros k l Hin. apply list_elem_of_lookup_1 in Hin as [i Hi].
      exists (ObjectId_toHexString (oid w + i)). eexists. split; [|split].
      - rewrite Hst1, Hst.
        pose proof (stamp_ops_elem (oid w) (clock w) entries (heap w) i k l Hi) as Hop.
        apply (foldl_insert_lookup filter_key document_of _ (storage w)) in Hop;
          [exact Hop|]. by rewrite stamp_ops_keys.
      - done.
      - apply (payloads_serializable_elem entries w k l i); [done| |].
        + by eapply list_elem_of_lookup_2.
        + by eapply lookup_lt_Some. }
    destruct (read_uncached_eq store entries.*1 w1 Hen Hmup1 Hkeys)
      as (states & t & w2 & Hread & _ & Hlook).
    { apply Forall_forall. intros k Hk.
      apply list_elem_of_fmap in Hk as ([k' l] & -> & Hin).
      destruct (Hstored _ _ Hin) as (tok & doc & Hk & Hstate & _ & Hp). simpl.
      unfold stored_readable. rewrite Hk, Hstate. by rewrite Hp. }
    eexists states, _. split.
    { rewrite run_eq, Hread. done. }
    apply (round_trip_finish entries (heap w) states
             (λ k, storage w1 !! k ≫= λ doc, parsed (state doc)));
      [intros k; by rewrite Hlook, if_requested_not_proto|].
    intros k l Hin. destruct (Hstored _ _ Hin) as (tok & doc & Hk & Hstate & _ & Hp).
    exists tok. rewrite Hk. simpl. by rewrite Hstate.
Qed.


(** C5, as amended: for every mapping from distinct keys other than
    [__proto__] to objects whose stamped content is serializable, with or
    without the cache and with the configured backends answering, [write]
    followed by [read] of the same keys resolves to a mapping with exactly
    those keys, each holding the object that was written with a version token
    injected as [eTag]. *)
Theorem write_then_read_round_trip `{dr : Drivers} `{rt : Runtime} (uri : string)
    (options : MongoStoreOptions) (store : MongoStore)
    (entries : list (string * loc)) (w : World) :
  constructor uri options = Resolved store →
  NoDup entries.*1 →
  "__proto__" ∉ entries.*1 →
  mongo_up w = true →
  (isCacheEnabled store = true → redis_up w = true) →
  payloads_serializable entries w →
  round_trip store (objects entries) w.
Proof. apply round_trip_objects. Qed.

Lemma write_then_read_round_trip_witness :
  @round_trip payload_runtime store_with_redis (objects two_entries)
    (fresh_world payload_heap).
Proof.
  apply (@write_then_read_round_trip test_drivers payload_runtime test_uri options_with_redis).
  - reflexivity.
  - apply (bool_decide_unpack _). vm_compute. exact I.
  - apply (bool_decide_unpack _). vm_compute. exact I.
  - reflexivity.
  - reflexivity.
  - repeat (apply Forall_cons; split); try (by apply Forall_nil);
      (split; [vm_compute; discriminate|vm_compute; reflexivity]).
Defined.

(** The same without the cache, whose server may be down. *)
Example round_trip_without_cache :
  @round_trip payload_runtime store_without_redis (objects two_entries)
    (set_redis_up false (fresh_world payload_heap)).
Proof.
  apply (@round_trip_objects test_drivers payload_runtime test_uri options_without_redis).
  - reflexivity.
  - apply (bool_decide_unpack _). vm_compute. exact I.
  - apply (bool_decide_unpack _). vm_compute. exact I.
  - reflexivity.
  - discriminate.
  - repeat (apply Forall_cons; split); try (by apply Forall_nil);
      (split; [vm_compute; discriminate|vm_compute; reflexivity]).
Qed.

(** C5 as stated fails: [null] is a JSON-serializable payload, and [write]
    throws a TypeError when it sets [eTag] on it. *)
Lemma null_payload_does_not_round_trip :
  ¬ @round_trip payload_runtime store_without_redis [("a", JsPrim PNull)] (fresh_world ∅).
Proof.
  intros (w1 & states & w2 & Hwrite & _). vm_compute in Hwrite. discriminate Hwrite.
Qed.

(** Nor does an object written under the key [__proto__] come back: the
    write stores it, and the assignment in the reducer of [readMongo] makes it
    the prototype of the accumulator instead of a property. *)
Example proto_key_does_not_round_trip :
  ¬ @round_trip payload_runtime store_without_redis (objects [("__proto__", 0)])
      (fresh_world payload_heap).
Proof.
  intros (w1 & states & w2 & Hwrite & Hread & Hdom & _).
  vm_compute in Hwrite. injection Hwrite as <-.
  vm_compute in Hread. injection Hread as <- _.
  apply (f_equal (λ X : gset string, bool_decide ("__proto__" ∈ X))) in Hdom.
  vm_compute in Hdom. discriminate Hdom.
Qed.

(** With the cache enabled the write is rejected as well, after the cache
    took the value that MongoDB never got. *)
Example null_payload_reaches_the_cache_only :
  let w' := (@write payload_runtime store_with_redis [("a", JsPrim PNull)]
               (fresh_world ∅)).2 in
  outcome (@write payload_runtime store_with_redis [("a", JsPrim PNull)]
             (fresh_world ∅)).1 = Rejected TypeError ∧
  redis_db w' !! "a" = Some ("null", 1209600%Z) ∧
  storage w' !! "a" = None.
Proof. vm_compute. done. Qed.

(** * Failure of one half of a write *)

Lemma async_settled {A} (body : M A) w :
  framed clock_mono body → clock w ≤ settled_at (async body w).1.
Proof. intros H. unfold async. specialize (H w). by destruct (body w). Qed.

Lemma async_clock {A} (body : M A) w : clock (async body w).2 = clock w.
Proof. unfold async. by destruct (body w). Qed.

Ltac mono := intros; unfold clock_mono; simpl; lia.

Section write_settles.
Context `{rt : Runtime}.

Lemma writeMongo_settled store changes w :
  clock w ≤ settled_at (writeMongo store changes w).1.
Proof.
  apply async_settled.
  fr framed_bind; [apply stamp_entries_framed; try tc_solve; mono|intros ops].
  fr framed_run. fr framed_mongo_request; mono.
Qed.

Lemma writeRedis_settled store changes w :
  clock w ≤ settled_at (writeRedis store changes w).1.
Proof.
  apply async_settled. fr framed_bind.
  - fr framed_map_async. intros [k st]. unfold set_state_of.
    fr framed_bind; [intros w0; unfold stringify_value; destruct st; mono|intros text].
    fr framed_bind; [fr framed_redis_request; mono|intros p; fr framed_await].
  - intros ps. fr framed_bind; [fr framed_await|intros _; fr framed_ret].
Qed.

End write_settles.

(** C6, as amended: with the cache enabled, when exactly one of the bulk
    upsert and the cache writes fails, [write] is rejected with that failure,
    at the time the failing operation settles ([Promise.all] does not wait
    for the other one). *)
Theorem write_reports_the_failure `{rt : Runtime} (store : MongoStore)
    (changes : StoreItems) (w : World) (e : Error) :
  isCacheEnabled store = true →
  changes ≠ [] →
  one_fails store changes w e →
  outcome (write store changes w).1 = Rejected e ∧
  ((rejected (mongo_write store changes w) e →
    settled_at (write store changes w).1 = settled_at (mongo_write store changes w)) ∧
   (rejected (redis_write store changes w) e →
    settled_at (write store changes w).1 = settled_at (redis_write store changes w))).
Proof.
  intros Hen Hne Hone. unfold one_fails, rejected, fulfilled, mongo_write, redis_write in *.
  rewrite write_nonempty by done. unfold async, bind, call. rewrite Hen.
  pose proof (writeMongo_settled store changes w) as Hm.
  assert (clock (writeMongo store changes w).2 = clock w) as Hc1 by apply async_clock.
  pose proof (writeRedis_settled store changes (writeMongo store changes w).2) as Hr.
  assert (clock (writeRedis store changes (writeMongo store changes w).2).2 = clock w) as Hc2.
  { rewrite <-Hc1. apply async_clock. }
  destruct (writeMongo store changes w) as [pm w1]. simpl in *.
  destruct (writeRedis store changes w1) as [pr w2]. simpl in *.
  unfold ret, await, Promise_all. simpl.
  destruct Hone as [[Hpm [a Hpr]]|[[a Hpm] Hpr]]; rewrite Hpm, Hpr; simpl.
  - split; [done|]. split; [intros _; lia|by intros [=]].
  - split; [done|]. split; [by intros [=]|intros _; lia].
Qed.

Lemma write_reports_the_failure_witness :
  let w := set_redis_up false (fresh_world payload_heap) in
  outcome (@write payload_runtime store_with_redis (objects two_entries) w).1
  = Rejected RedisError ∧
  ((rejected (@mongo_write payload_runtime store_with_redis (objects two_entries) w)
      RedisError →
    settled_at (@write payload_runtime store_with_redis (objects two_entries) w).1
    = settled_at (@mongo_write payload_runtime store_with_redis (objects two_entries) w)) ∧
   (rejected (@redis_write payload_runtime store_with_redis (objects two_entries) w)
      RedisError →
    settled_at (@write payload_runtime store_with_redis (objects two_entries) w).1
    = settled_at (@redis_write payload_runtime store_with_redis (objects two_entries) w))).
Proof.
  apply (@write_reports_the_failure payload_runtime store_with_redis).
  - reflexivity.
  - discriminate.
  - right. split; [by exists ()|reflexivity].
Defined.

(** C6 as stated fails: the cache is down and answers after 1 tick, MongoDB
    takes the bulk write and answers after 5; [write] is rejected at tick 1,
    before the bulk write has settled. *)
Lemma write_rejected_before_both_settled :
  ¬ @reported_after_both_settled payload_runtime store_with_redis (objects two_entries)
      (set_redis_up false (fresh_world payload_heap)).
Proof.
  intros H. destruct (H RedisError) as [_ Hle].
  - right. split; [by exists ()|reflexivity].
  - vm_compute in Hle. lia.
Qed.

Example write_settle_times :
  let w := set_redis_up false (fresh_world payload_heap) in
  settled_at (@write payload_runtime store_with_redis (objects two_entries) w).1 = 1 ∧
  settled_at (@mongo_write payload_runtime store_with_redis (objects two_entries) w) = 5 ∧
  settled_at (@redis_write payload_runtime store_with_redis (objects two_entries) w) = 1.
Proof. vm_compute. done. Qed.

(** * Durability of the batched operations *)

Lemma issues_only_same_log allowed w w' : log w' = log w → issues_only allowed w w'.
Proof. intros H. exists []. by rewrite app_nil_r. Qed.

Section durability.
Context `{rt : Runtime} (store : MongoStore).

Lemma write_sends_concern changes :
  framed (issues_only (uses_concern (writeConcern store))) (write store changes).
Proof.
  apply write_framed; try tc_solve; intros; try split;
    solve [by apply issues_only_same_log
          |by apply issues_only_add_log].
Qed.

Lemma delete_sends_concern keys :
  framed (issues_only (uses_concern (writeConcern store))) (delete store keys).
Proof.
  apply delete_framed; try tc_solve; intros; try split;
    solve [by apply issues_only_same_log
          |by apply issues_only_add_log].
Qed.

Lemma delete_issues_deleteMany keys w :
  keys ≠ [] → MongoDeleteMany keys (writeConcern store) ∈ issued (delete store keys) w.
Proof.
  intros Hne. unfold issued, delete, async, bind, call.
  destruct keys as [|k ks] eqn:Hk; [done|]. rewrite <-Hk.
  assert (issues_only (λ _, True) w (deleteRedis store keys w).2) as (l & Hl & _).
  { apply deleteRedis_framed; try tc_solve; intros; split;
      by apply issues_only_add_log. }
  destruct (deleteRedis store keys w) as [p w1]. simpl in *.
  unfold deleteMongo, async, run, bind, call, mongo_deleteMany, mongo_request, await.
  fold (writeConcern store). simpl.
  destruct (mongo_up w1); simpl;
    match goal with
    | |- context [outcome (Promise_all ?ps)] => destruct (outcome (Promise_all ps))
    end; simpl; rewrite Hl, <-app_assoc, drop_app_length;
    apply elem_of_app; right; apply elem_of_cons; by left.
Qed.

End durability.

(** C8: the write concern of every bulk write and of every [deleteMany] the
    store sends is fixed by the [disableWriteConcern] option: unacknowledged
    ([w: 0]) when the option is absent or false, [w: 'majority'] when it is
    set; writes and deletes use the same one, and such requests are indeed
    sent. *)
Theorem durability_follows_the_flag `{dr : Drivers} `{rt : Runtime} (uri : string)
    (options : MongoStoreOptions) (store : MongoStore)
    (changes : StoreItems) (entries : list (string * loc)) (keys : list string)
    (w : World) :
  constructor uri options = Resolved store →
  durability options
  = (if or_false (Options.disableWriteConcern options) then w_majority else w_0) ∧
  Forall (uses_concern (durability options)) (issued (write store changes) w) ∧
  Forall (uses_concern (durability options)) (issued (delete store keys) w) ∧
  (entries ≠ [] →
   ∃ ops, MongoBulkWrite ops (durability options) ∈ issued (write store (objects entries)) w) ∧
  (keys ≠ [] → MongoDeleteMany keys (durability options) ∈ issued (delete store keys) w).
Proof.
  intros Hcons. destruct (constructor_cache _ _ _ Hcons) as (_ & _ & Hd).
  assert (writeConcern store = durability options) as Hwc.
  { unfold writeConcern, durability. rewrite Hd.
    by destruct (Options.disableWriteConcern options) as [[]|]. }
  rewrite <-Hwc. split; [|split; [|split; [|split]]].
  - rewrite Hwc. unfold durability. by destruct (Options.disableWriteConcern options) as [[]|].
  - destruct (write_sends_concern store changes w) as (l & Hl & Hok).
    by rewrite (issued_spec _ _ _ Hl).
  - destruct (delete_sends_concern store keys w) as (l & Hl & Hok).
    by rewrite (issued_spec _ _ _ Hl).
  - intros Hne.
    destruct (write_objects_world store entries w (constructor_client _ _ _ Hcons) Hne)
      as (_ & _ & _ & Hlog & _).
    eexists. rewrite (issued_spec _ _ _ Hlog). apply elem_of_cons. by left.
  - apply delete_issues_deleteMany.
Qed.

Lemma durability_follows_the_flag_witness :
  durability options_with_redis
  = (if or_false (Options.disableWriteConcern options_with_redis) then w_majority else w_0) ∧
  Forall (uses_concern (durability options_with_redis))
    (issued (@write payload_runtime store_with_redis (objects two_entries))
       (fresh_world payload_heap)) ∧
  Forall (uses_concern (durability options_with_redis))
    (issued (delete store_with_redis ["s1"]) (fresh_world payload_heap)) ∧
  (two_entries ≠ [] →
   ∃ ops, MongoBulkWrite ops (durability options_with_redis)
          ∈ issued (@write payload_runtime store_with_redis (objects two_entries))
              (fresh_world payload_heap)) ∧
  (["s1"] ≠ [] →
   MongoDeleteMany ["s1"] (durability options_with_redis)
   ∈ issued (delete store_with_redis ["s1"]) (fresh_world payload_heap)).
Proof.
  apply (@durability_follows_the_flag test_drivers payload_runtime test_uri options_with_redis).
  reflexivity.
Defined.

(** * The constructor *)

(** ** Characters and [trim] *)

Lemma chars_cons c s :
  chars (String c s)
  = match chars s with
    | ch :: rest =>
        if continues ch then String c ch :: rest else String c "" :: ch :: rest
    | [] => [String c ""]
    end.
Proof. reflexivity. Qed.

Lemma text_chars s : text (chars s) = s.
Proof.
  induction s as [|c s IH]; [done|]. rewrite chars_cons.
  destruct (chars s) as [|ch rest]; simpl in *; [by rewrite <-IH|].
  destruct (continues ch); simpl; by rewrite <-IH.
Qed.

Lemma well_formed_tail ch l : well_formed (ch :: l) → well_formed l.
Proof.
  intros [Hc Ht]. apply Forall_cons in Hc as [_ Hc]. split; [done|].
  simpl in Ht. destruct l; simpl; [done|]. by apply Forall_cons in Ht as [_ Ht].
Qed.

Lemma chars_well_formed s : well_formed (chars s).
Proof.
  induction s as [|c s [Hc Ht]]; [by split|]. rewrite chars_cons.
  destruct (chars s) as [|ch rest]; [by split; [apply Forall_singleton|]|].
  apply Forall_cons in Hc as [Hch Hc]. simpl in Ht.
  destruct (continues ch) eqn:Hcont.
  - split; [|done]. apply Forall_cons. split; [|done]. simpl.
    destruct ch as [|c' t]; [done|]. simpl in *. by rewrite Hcont.
  - split; [by repeat (apply Forall_cons; split)|]. simpl. by apply Forall_cons.
Qed.

Lemma chars_text l : well_formed l → chars (text l) = l.
Proof.
  induction l as [|ch l IH]; [done|]. intros Hwf.
  specialize (IH (well_formed_tail _ _ Hwf)). destruct Hwf as [Hc Ht].
  apply Forall_cons in Hc as [Hch _]. simpl in Ht.
  destruct ch as [|c t]; [done|]. simpl in Hch.
  change (chars (String c (t +:+ text l)) = String c t :: l). revert c Hch.
  induction t as [|c' t IHt]; intros c Hcb.
  - change ("" +:+ text l) with (text l). rewrite chars_cons, IH.
    destruct l as [|ch' l']; [done|]. apply Forall_cons in Ht as [Hch' _].
    by rewrite Hch'.
  - change (String c' t +:+ text l) with (String c' (t +:+ text l)).
    simpl in Hcb. apply andb_true_iff in Hcb as [Hc' Hcb].
    rewrite chars_cons, (IHt c' Hcb). simpl. by rewrite Hc'.
Qed.

Lemma text_empty l : Forall (λ ch, is_char ch = true) l → text l = "" → l = [].
Proof.
  destruct l as [|ch l]; [done|]. intros [Hch _]%Forall_cons. by destruct ch.
Qed.

Lemma trim_start_well_formed l : well_formed l → well_formed (trim_start l).
Proof.
  induction l as [|ch l IH]; [done|]. intros Hwf. simpl.
  destruct (is_space ch); [|done]. by eapply IH, well_formed_tail.
Qed.

Lemma trim_end_Forall (P : string → Prop) l : Forall P l → Forall P (trim_end l).
Proof.
  induction l as [|ch l IH]; [done|]. intros [Hch Hl]%Forall_cons. simpl.
  specialize (IH Hl). destruct (trim_end l) as [|d t].
  - destruct (is_space ch); [done|]. by apply Forall_singleton.
  - by apply Forall_cons.
Qed.

Lemma trim_end_well_formed l : well_formed l → well_formed (trim_end l).
Proof.
  intros [Hc Ht]. split; [by apply trim_end_Forall|].
  destruct l as [|ch l]; [done|]. simpl in *.
  pose proof (trim_end_Forall _ _ Ht) as Ht'.
  destruct (trim_end l) as [|d t]; [by destruct (is_space ch)|done].
Qed.

Lemma trim_end_nil l : trim_end l = [] ↔ forallb is_space l = true.
Proof.
  induction l as [|ch l IH]; simpl; [done|].
  destruct (trim_end l) as [|d t].
  - destruct (is_space ch); simpl; [|by split].
    split; [intros _; by apply IH|done].
  - split; [done|]. intros [_ Hb]%andb_true_iff. by apply IH in Hb.
Qed.

Lemma forallb_trim_start l : forallb is_space (trim_start l) = forallb is_space l.
Proof.
  induction l as [|ch l IH]; simpl; [done|].
  destruct (is_space ch) eqn:Hc; simpl; [done|]. by rewrite Hc.
Qed.

Lemma trim_empty s : trim s = "" ↔ blank s = true.
Proof.
  unfold trim, blank. rewrite <-forallb_trim_start, <-trim_end_nil. split.
  - apply text_empty.
    apply trim_end_well_formed, trim_start_well_formed, chars_well_formed.
  - by intros ->.
Qed.

Lemma blank_false s : trim s ≠ "" → blank s = false.
Proof. intros He. destruct (blank s) eqn:Hb; [|done]. by apply trim_empty in Hb. Qed.

Lemma trim_start_head l :
  trim_start l = [] ∨ ∃ ch r, trim_start l = ch :: r ∧ is_space ch = false.
Proof.
  induction l as [|ch l IH]; simpl; [by left|].
  destruct (is_space ch) eqn:Hc; [done|]. right. by exists ch, l.
Qed.

Lemma trim_end_head ch r :
  is_space ch = false → ∃ r', trim_end (ch :: r) = ch :: r'.
Proof. intros Hc. simpl. rewrite Hc. destruct (trim_end r); by eexists. Qed.

Lemma trim_end_idem l : trim_end (trim_end l) = trim_end l.
Proof.
  induction l as [|ch l IH]; simpl; [done|].
  destruct (trim_end l) as [|d u] eqn:Hu.
  - destruct (is_space ch) eqn:Hc; simpl; [done|]. by rewrite Hc.
  - simpl. simpl in IH. destruct (trim_end u) as [|e v] eqn:Hv.
    + destruct (is_space d); [done|]. by rewrite IH.
    + by rewrite IH.
Qed.

Lemma trim_idem s : trim (trim s) = trim s.
Proof.
  unfold trim.
  pose proof (trim_end_well_formed _
                (trim_start_well_formed _ (chars_well_formed s))) as Hwf.
  rewrite (chars_text _ Hwf).
  assert (trim_start (trim_end (trim_start (chars s)))
          = trim_end (trim_start (chars s))) as ->.
  { destruct (trim_start_head (chars s)) as [->|(ch & r & -> & Hc)]; [done|].
    destruct (trim_end_head ch r Hc) as [r' ->]. simpl. by rewrite Hc. }
  by rewrite trim_end_idem.
Qed.

(** X1: the constructor throws [NO_URL_ERROR] exactly when the uri is empty
    or made of white space only.  It builds a store exactly when the uri is
    not blank, the MongoDB driver accepts it and, if the [redis] option is
    given, the Redis driver accepts that; a uri that is not blank and that the
    MongoDB driver does not accept gives the driver's MongoParseError.  The
    store keeps the uri as it was given, not trimmed, also for the MongoDB
    client. *)
Theorem constructor_needs_a_uri `{dr : Drivers} (u : string)
    (options : MongoStoreOptions) :
  (constructor u options = Rejected NO_URL_ERROR ↔ blank u = true) ∧
  ((∃ store, constructor u options = Resolved store) ↔
   blank u = false ∧ MongoClient_accepts u (Options.mongo options) = true ∧
   redis_accepted options = true) ∧
  (blank u = false → MongoClient_accepts u (Options.mongo options) = false →
   constructor u options = Rejected MongoParseError) ∧
  (∀ store, constructor u options = Resolved store →
            uri store = u ∧ mongo_uri (mClient store) = u).
Proof.
  split; [|split; [|split]].
  - unfold constructor, new_MongoClient, createClient.
    destruct (decide (trim u = "")) as [He|He].
    + apply trim_empty in He. by rewrite He.
    + rewrite (blank_false _ He). split; [|done].
      destruct (MongoClient_accepts _ _); [|done].
      destruct (Options.redis options) as [o|]; [|done].
      by destruct (createClient_accepts o).
  - unfold constructor, new_MongoClient, createClient, redis_accepted.
    destruct (decide (trim u = "")) as [He|He].
    + apply trim_empty in He. rewrite He. split; [by intros [? ?]|by intros [? _]].
    + rewrite (blank_false _ He).
      destruct (MongoClient_accepts _ _); [|split; [by intros [? ?]|by intros (_ & ? & _)]].
      destruct (Options.redis options) as [o|]; [|split; [done|by eexists]].
      destruct (createClient_accepts o);
        [split; [done|by eexists]|split; [by intros [? ?]|by intros (_ & _ & ?)]].
  - intros Hb Hm. unfold constructor, new_MongoClient.
    destruct (decide (trim u = "")) as [He|He].
    + apply trim_empty in He. by rewrite He in Hb.
    + by rewrite Hm.
  - by intros store ->%constructor_Resolved.
Qed.

(** No-break spaces are white space; a uri without a scheme is not a
    connection string for the driver. *)
Example constructor_of_a_bad_uri :
  @constructor test_drivers (utf8 160 +:+ " " +:+ utf8 65279) Options.empty
  = Rejected NO_URL_ERROR ∧
  @constructor test_drivers "abc" Options.empty = Rejected MongoParseError.
Proof. vm_compute. done. Qed.

(** X2: the database and collection names of a store are the trimmed
    options, or the defaults [botstorage] and [conversations] when the option
    is absent, empty or white space; they are never blank and carry no white
    space at either end.  The document key is [_id]. *)
Theorem constructor_names `{dr : Drivers} (uri : string) (options : MongoStoreOptions)
    (store : MongoStore) :
  constructor uri options = Resolved store →
  dbName store = match Options.database options with
                 | Some s => if blank s then DEFAULT_DATABASE_NAME else trim s
                 | None => DEFAULT_DATABASE_NAME
                 end ∧
  colName store = match Options.collection options with
                  | Some s => if blank s then DEFAULT_COLLECTION_NAME else trim s
                  | None => DEFAULT_COLLECTION_NAME
                  end ∧
  blank (dbName store) = false ∧ trim (dbName store) = dbName store ∧
  blank (colName store) = false ∧ trim (colName store) = colName store ∧
  key store = "_id".
Proof.
  intros ->%constructor_Resolved; simpl.
  assert (∀ name d, blank d = false → trim d = d →
            trimmed_or name d = match name with
                                | Some s => if blank s then d else trim s
                                | None => d
                                end ∧
            blank (trimmed_or name d) = false ∧
            trim (trimmed_or name d) = trimmed_or name d) as Hname.
  { intros [s|] d Hd Htd; simpl; [|done].
    destruct (decide (trim s = "")) as [He|He].
    - apply trim_empty in He. by rewrite He.
    - assert (blank s = false) as Hb.
      { destruct (blank s) eqn:Hb; [|done]. by apply trim_empty in Hb. }
      rewrite Hb. split; [done|]. split; [|apply trim_idem].
      destruct (blank (trim s)) eqn:Hbt; [|done].
      apply trim_empty in Hbt. by rewrite trim_idem in Hbt. }
  destruct (Hname (Options.database options) DEFAULT_DATABASE_NAME) as (-> & ? & ?);
    [done|done|].
  destruct (Hname (Options.collection options) DEFAULT_COLLECTION_NAME) as (-> & ? & ?);
    [done|done|].
  done.
Qed.

Lemma constructor_names_witness :
  dbName store_with_redis = "foobar" ∧ colName store_with_redis = "conversations" ∧
  blank (dbName store_with_redis) = false ∧
  trim (dbName store_with_redis) = dbName store_with_redis ∧
  blank (colName store_with_redis) = false ∧
  trim (colName store_with_redis) = colName store_with_redis ∧
  key store_with_redis = "_id".
Proof.
  apply (constructor_names (dr := test_drivers) test_uri options_with_redis).
  reflexivity.
Defined.

(** The names are trimmed of Unicode white space too. *)
Example constructor_trims_a_no_break_space :
  ∀ store,
    @constructor test_drivers test_uri
      {| Options.database := Some ("foo" +:+ utf8 160); Options.collection := Some (utf8 8232);
         Options.mongo := None; Options.redis := None;
         Options.cacheExpiration := None; Options.disableWriteConcern := None |}
    = Resolved store →
    dbName store = "foo" ∧ colName store = "conversations".
Proof. intros store Hc. vm_compute in Hc. by injection Hc as <-. Qed.

(** X3: the cache is enabled exactly when the [redis] option is given, which
    is exactly when the store has a Redis client.  The expiration time is the
    option when it is a number other than 0 and 1209600 seconds otherwise, so
    it is never 0; the write concern flag is the option, false when absent. *)
Theorem constructor_cache_settings `{dr : Drivers} (uri : string) (options : MongoStoreOptions)
    (store : MongoStore) :
  constructor uri options = Resolved store →
  (isCacheEnabled store = true ↔ is_Some (Options.redis options)) ∧
  (isCacheEnabled store = true ↔ is_Some (rClient store)) ∧
  cacheExpiration store
  = match Options.cacheExpiration options with
    | Some n => if decide (n = 0%Z) then 1209600%Z else n
    | None => 1209600%Z
    end ∧
  cacheExpiration store ≠ 0%Z ∧
  disableWriteConcern store = default false (Options.disableWriteConcern options).
Proof.
  intros ->%constructor_Resolved; simpl.
  split; [|split; [|split; [|split]]].
  - destruct (Options.redis options); split; try done; by intros [? ?].
  - destruct (Options.redis options); split; try done; by intros [? ?].
  - by destruct (Options.cacheExpiration options).
  - unfold or_number. destruct (Options.cacheExpiration options) as [n|]; [|done].
    by case_decide.
  - by destruct (Options.disableWriteConcern options).
Qed.

Lemma constructor_cache_settings_witness :
  (isCacheEnabled store_with_redis = true ↔ is_Some (Options.redis options_with_redis)) ∧
  (isCacheEnabled store_with_redis = true ↔ is_Some (rClient store_with_redis)) ∧
  cacheExpiration store_with_redis
  = match Options.cacheExpiration options_with_redis with
    | Some n => if decide (n = 0%Z) then 1209600%Z else n
    | None => 1209600%Z
    end ∧
  cacheExpiration store_with_redis ≠ 0%Z ∧
  disableWriteConcern store_with_redis
  = default false (Options.disableWriteConcern options_with_redis).
Proof.
  apply (constructor_cache_settings (dr := test_drivers) test_uri options_with_redis).
  reflexivity.
Defined.

(** * Empty input *)

(** X4: [read], [write] and [delete] of no keys resolve at once, [read] to
    the empty mapping, without a request to either backend and without any
    other effect, whatever the configuration and the state of the servers. *)
Theorem empty_input_is_a_no_op `{rt : Runtime} (store : MongoStore) (w : World) :
  read store [] w = ({| settled_at := clock w; outcome := Resolved ∅ |}, w) ∧
  write store [] w = ({| settled_at := clock w; outcome := Resolved () |}, w) ∧
  delete store [] w = ({| settled_at := clock w; outcome := Resolved () |}, w).
Proof. by destruct w. Qed.

(** * Reading without the cache *)

Section read_failures.
Context `{rt : Runtime}.

Lemma reduce_docs_rejects (docs : list (string * MongoStoreDocument)) accum w :
  Exists (λ d, parsed (state d.2) = None) docs →
  ∃ e, reduce_docs docs accum w = (Rejected e, w).
Proof.
  intros Hex. revert accum. induction Hex as [[id item] docs Hbad|[id item] docs _ IH];
    intros accum; simpl in *; unfold bind, lift.
  - unfold parsed in Hbad. destruct (JSON_parse (state item)) as [j|e]; [done|]. by exists e.
  - destruct (JSON_parse (state item)) as [j|e]; [apply IH|by exists e].
Qed.

Lemma readMongo_rejects store stateKeys w k doc :
  mongo_up w = true →
  k ∈ stateKeys → storage w !! k = Some doc → parsed (state doc) = None →
  ∃ e t, readMongo store stateKeys w
         = ({| settled_at := t; outcome := Rejected e |}, add_log (MongoFind stateKeys) w).
Proof.
  intros Hup Hk Hdoc Hbad.
  set (found := filter (λ d : string * MongoStoreDocument, d.1 ∈ stateKeys) (storage w)).
  destruct (reduce_docs_rejects (map_to_list found) ∅
              (set_clock (clock w `max` (clock w + mongo_latency w))
                 (add_log (MongoFind stateKeys) w))) as [e He].
  { apply Exists_exists. exists (k, doc). split; [|done].
    apply elem_of_map_to_list. by apply map_lookup_filter_Some_2. }
  exists e. eexists.
  unfold readMongo, async, run, mongo_find, mongo_request. unfold bind at 1.
  unfold bind at 1. unfold call, await. simpl. rewrite Hup. simpl.
  fold found. rewrite He. done.
Qed.

End read_failures.

(** X5: without the cache and with MongoDB up, [read] sends one [find] for
    the requested keys.  If the state of every document found parses, the
    result maps each requested key other than [__proto__] that has a document
    to its parsed state and has no other entry; if the state of one of them
    does not parse, the whole read is rejected. *)
Theorem read_without_cache `{rt : Runtime} (store : MongoStore)
    (stateKeys : list string) (w : World) :
  isCacheEnabled store = false →
  mongo_up w = true →
  stateKeys ≠ [] →
  issued (read store stateKeys) w = [MongoFind stateKeys] ∧
  (Forall (stored_readable w) stateKeys →
   ∃ states,
     outcome (read store stateKeys w).1 = Resolved states ∧
     ∀ k, states !! k = if decide (k ∈ stateKeys ∧ k ≠ "__proto__")
                        then storage w !! k ≫= λ doc, parsed (state doc) else None) ∧
  (∀ k doc, k ∈ stateKeys → storage w !! k = Some doc → parsed (state doc) = None →
            ∃ e, outcome (read store stateKeys w).1 = Rejected e).
Proof.
  intros Hen Hup Hne.
  assert (∀ k doc, k ∈ stateKeys → storage w !! k = Some doc → parsed (state doc) = None →
            ∃ e t, read store stateKeys w
                   = ({| settled_at := t; outcome := Rejected e |},
                      add_log (MongoFind stateKeys) w)) as Hbad.
  { intros k doc Hk Hdoc Hp.
    destruct (readMongo_rejects store stateKeys w k doc Hup Hk Hdoc Hp) as (e & t & Hm).
    exists e. eexists. unfold read, async, run.
    destruct stateKeys as [|k0 keys0] eqn:Hkeys; [done|].
    rewrite <-Hkeys in *. rewrite Hen. unfold bind, call. rewrite Hm. simpl.
    by f_equal. }
  assert (Decision (Forall (stored_readable w) stateKeys)) as [Hok|Hnot].
  { apply Forall_dec. intros k. unfold stored_readable. destruct (storage w !! k); apply _. }
  - destruct (read_uncached_eq store stateKeys w Hen Hup Hne Hok)
      as (states & t & w' & Heq & Hlog & Hlook).
    split; [|split].
    + apply issued_spec. by rewrite Heq.
    + intros _. exists states. by rewrite Heq.
    + intros k doc Hk Hdoc Hp. rewrite Forall_forall in Hok. specialize (Hok k Hk).
      unfold stored_readable in Hok. rewrite Hdoc, Hp in Hok. by destruct Hok.
  - apply not_Forall_Exists in Hnot;
      [|intros k; unfold stored_readable; destruct (storage w !! k); apply _].
    apply Exists_exists in Hnot as (k & Hk & Hnot). simpl in Hnot.
    unfold stored_readable in Hnot. destruct (storage w !! k) as [doc|] eqn:Hdoc; [|done].
    assert (parsed (state doc) = None) as Hp.
    { destruct (parsed (state doc)) eqn:Hp; [|done]. exfalso. apply Hnot. by eexists. }
    destruct (Hbad k doc Hk Hdoc Hp) as (e & t & Heq).
    split; [|split].
    + apply issued_spec. by rewrite Heq.
    + intros Hok. rewrite Forall_forall in Hok. specialize (Hok k Hk).
      unfold stored_readable in Hok. rewrite Hdoc, Hp in Hok. by destruct Hok.
    + intros k' doc' Hk' Hdoc' Hp'. destruct (Hbad k' doc' Hk' Hdoc' Hp') as (e' & t' & Heq').
      exists e'. by rewrite Heq'.
Qed.

Lemma read_without_cache_witness :
  issued (@read tiers_runtime store_without_redis ["a"; "b"; "c"]) tiers_world
  = [MongoFind ["a"; "b"; "c"]] ∧
  (Forall (@stored_readable tiers_runtime tiers_world) ["a"; "b"; "c"] →
   ∃ states,
     outcome (@read tiers_runtime store_without_redis ["a"; "b"; "c"] tiers_world).1
     = Resolved states ∧
     ∀ k, states !! k = if decide (k ∈ ["a"; "b"; "c"] ∧ k ≠ "__proto__")
                        then storage tiers_world !! k
                             ≫= λ doc, @parsed tiers_runtime (state doc)
                        else None) ∧
  (∀ k doc, k ∈ ["a"; "b"; "c"] → storage tiers_world !! k = Some doc →
            @parsed tiers_runtime (state doc) = None →
            ∃ e, outcome (@read tiers_runtime store_without_redis ["a"; "b"; "c"]
                            tiers_world).1 = Rejected e).
Proof.
  apply (@read_without_cache tiers_runtime store_without_redis).
  - reflexivity.
  - reflexivity.
  - discriminate.
Defined.

(** A document under the key [__proto__] is found and parsed, and is not in
    the result. *)
Example read_of_the_key_proto :
  let w := set_storage (<["__proto__" := {| state := print_json stored_b; date := 4;
                                            etag := "oid4" |}]>
                          (storage tiers_world)) tiers_world in
  (@read tiers_runtime store_without_redis ["__proto__"; "b"] w).1
  = {| settled_at := 15;
       outcome := Resolved (plain {[ "b" := stored_b ]}) |}.
Proof. vm_compute. reflexivity. Qed.

(** One document whose state is not JSON makes the read of its neighbours
    fail too. *)
Example read_of_a_broken_document :
  let w := set_storage (<["b" := {| state := "{oops"; date := 4; etag := "oid4" |}]>
                          (storage tiers_world)) tiers_world in
  outcome (@read tiers_runtime store_without_redis ["a"; "b"] w).1 = Rejected SyntaxError.
Proof. vm_compute. reflexivity. Qed.

(** * Reading with the cache down *)

Section cache_down.
Context `{rt : Runtime}.

Lemma get_state_down store c k w :
  cache store = Some c → redis_up w = false →
  get_state store k w
  = (Rejected RedisError,
     set_clock (clock w `max` (clock w + redis_latency w)) (add_log (RedisGet k) w)).
Proof.
  intros Hc Hup. unfold get_state, bind, redis_get, redis_request. rewrite Hc.
  unfold call, await, ret. simpl. by rewrite Hup.
Qed.

Lemma map_async_gets_down store c stateKeys w :
  cache store = Some c → redis_up w = false →
  map_async (get_state store) stateKeys w
  = (Resolved ((λ _, {| settled_at := clock w + redis_latency w;
                        outcome := Rejected RedisError |}) <$> stateKeys),
     set_log (log w ++ (RedisGet <$> stateKeys)) w).
Proof.
  intros Hc. revert w. induction stateKeys as [|k stateKeys IH]; intros w Hup.
  - simpl. unfold ret, set_log. rewrite app_nil_r. by destruct w.
  - rewrite map_async_cons, (get_state_down _ c) by done. simpl.
    rewrite IH by done. unfold set_log. simpl. rewrite <-app_assoc.
    repeat f_equal; lia.
Qed.

End cache_down.

(** X7: with the cache enabled and Redis down, [read] of a non-empty key list
    is rejected with the Redis error once the lookups fail; every [GET] was
    sent and MongoDB is not asked, whatever it holds: there is no fallback to
    the durable store. *)
Theorem read_has_no_fallback `{rt : Runtime} (store : MongoStore) (c : RedisClient)
    (stateKeys : list string) (w : World) :
  isCacheEnabled store = true →
  rClient store = Some c →
  redis_up w = false →
  stateKeys ≠ [] →
  (read store stateKeys w).1
  = {| settled_at := clock w + redis_latency w; outcome := Rejected RedisError |} ∧
  issued (read store stateKeys) w = RedisGet <$> stateKeys.
Proof.
  intros Hen Hc Hup Hne.
  assert (read store stateKeys w
          = ({| settled_at := clock w + redis_latency w; outcome := Rejected RedisError |},
             set_log (log w ++ (RedisGet <$> stateKeys)) w)) as Heq.
  { unfold read, async, run. destruct stateKeys as [|k0 keys0] eqn:Hkeys; [done|].
    rewrite <-Hkeys in *. rewrite Hen. unfold bind at 1. unfold bind at 1.
    unfold call, readRedis, async. unfold bind at 1.
    rewrite (map_async_gets_down _ c) by done. unfold bind, await, Promise_all.
    rewrite first_rejection_uniform by done. simpl. f_equal. f_equal. lia. }
  rewrite Heq. split; [done|]. apply issued_spec. by rewrite Heq.
Qed.

Lemma read_has_no_fallback_witness :
  (@read tiers_runtime store_with_redis ["a"; "b"] (set_redis_up false tiers_world)).1
  = {| settled_at := clock (set_redis_up false tiers_world)
                     + redis_latency (set_redis_up false tiers_world);
       outcome := Rejected RedisError |} ∧
  issued (@read tiers_runtime store_with_redis ["a"; "b"]) (set_redis_up false tiers_world)
  = RedisGet <$> ["a"; "b"].
Proof.
  apply (@read_has_no_fallback tiers_runtime store_with_redis
           {| redis_options := {| url := "redis://localhost:6380" |} |}).
  - reflexivity.
  - reflexivity.
  - reflexivity.
  - discriminate.
Defined.

(** * Falsy cached values *)

Section served.
Context `{rt : Runtime}.

Lemma reduce_cached_served (w0 : World) stateKeys accum missing w :
  Forall (λ k, served w0 k = true → is_Some (parsed (cached_text w0 k))) stateKeys →
  ∃ cached,
    reduce_cached ((λ k, (k, fst <$> redis_db w0 !! k)) <$> stateKeys) accum missing w
    = (Resolved (cached, missing ++ filter (λ k, served w0 k = false) stateKeys), w) ∧
    ∀ k, k ≠ PROTO →
         cached !! k = if decide (k ∈ stateKeys ∧ served w0 k = true)
                       then parsed (cached_text w0 k) else accum !! k.
Proof.
  revert accum missing. induction stateKeys as [|k0 stateKeys IH]; intros accum missing Hok.
  - exists accum. split; [by rewrite app_nil_r|]. intros k _.
    rewrite decide_False; [done|]. intros [Hk _]. by apply elem_of_nil in Hk.
  - apply Forall_cons in Hok as [Hk0 Hok]. rewrite fmap_cons. simpl.
    fold (served w0 k0). destruct (served w0 k0) eqn:Hs.
    + destruct (Hk0 eq_refl) as [j Hj].
      destruct (IH (Object_set accum k0 j) missing Hok) as (cached & Hred & Hlook).
      exists cached. split.
      * unfold bind, lift. fold (cached_text w0 k0). rewrite (parsed_Some _ _ Hj).
        rewrite Hred. rewrite filter_cons_False; [done|]. by rewrite Hs.
      * intros k Hkp. rewrite Hlook by done. rewrite lookup_Object_set_other by done.
        destruct (decide (k = k0)) as [->|Hkk].
        -- rewrite lookup_insert_eq.
           rewrite (decide_True (P := k0 ∈ k0 :: stateKeys ∧ served w0 k0 = true))
             by (split; [apply elem_of_cons; by left|done]).
           by destruct (decide _).
        -- rewrite lookup_insert_ne by done. rewrite <-(lookup_own accum).
           destruct (decide (k ∈ stateKeys ∧ served w0 k = true)) as [[Hin Hsk]|Hn].
           ++ by rewrite decide_True by (split; [apply elem_of_cons; by right|done]).
           ++ rewrite decide_False; [done|]. rewrite elem_of_cons. intros [[?|?] ?]; [done|].
              by apply Hn.
    + destruct (IH accum (missing ++ [k0]) Hok) as (cached & Hred & Hlook).
      exists cached. split.
      * rewrite Hred. rewrite filter_cons_True by done. by rewrite <-app_assoc.
      * intros k Hkp. rewrite Hlook by done.
        destruct (decide (k ∈ stateKeys ∧ served w0 k = true)) as [[Hin Hsk]|Hn].
        -- by rewrite decide_True by (split; [apply elem_of_cons; by right|done]).
        -- rewrite decide_False; [done|]. rewrite elem_of_cons. intros [[->|?] Hsk].
           ++ by rewrite Hs in Hsk.
           ++ by apply Hn.
Qed.

Lemma readRedis_served store c stateKeys w :
  cache store = Some c → redis_up w = true → stateKeys ≠ [] →
  Forall (λ k, served w k = true → is_Some (parsed (cached_text w k))) stateKeys →
  ∃ cached,
    readRedis store stateKeys w
    = ({| settled_at := clock w + redis_latency w;
          outcome := Resolved (cached, filter (λ k, served w k = false) stateKeys) |},
       set_log (log w ++ (RedisGet <$> stateKeys)) w) ∧
    ∀ k, k ≠ PROTO →
         cached !! k = if decide (k ∈ stateKeys ∧ served w k = true)
                       then parsed (cached_text w k) else None.
Proof.
  intros Hc Hup Hne Hok.
  destruct (reduce_cached_served w stateKeys ∅ []
              (set_clock (clock w `max` (clock w + redis_latency w))
                 (set_log (log w ++ (RedisGet <$> stateKeys)) w)) Hok)
    as (cached & Hred & Hlook).
  exists cached. split.
  - unfold readRedis, async. unfold bind at 1. rewrite (map_async_gets _ c) by done.
    unfold bind at 1. unfold await.
    pose proof (Promise_all_resolved stateKeys (clock w + redis_latency w)
                  (λ k, (k, fst <$> redis_db w !! k))) as Hp.
    simpl in Hp. rewrite Hp. simpl. rewrite max_list_uniform by done.
    rewrite Hred. simpl. f_equal. f_equal. lia.
  - intros k Hkp. by rewrite Hlook, lookup_empty_object.
Qed.

Lemma read_served_eq store c stateKeys w :
  isCacheEnabled store = true →
  rClient store = Some c →
  redis_up w = true →
  mongo_up w = true →
  stateKeys ≠ [] →
  Forall (λ k, served w k = true → is_Some (parsed (cached_text w k))) stateKeys →
  Forall (stored_readable w) (filter (λ k, served w k = false) stateKeys) →
  ∃ states t w',
    read store stateKeys w = ({| settled_at := t; outcome := Resolved states |}, w') ∧
    log w' = log w ++ (RedisGet <$> stateKeys) ++
             (if decide (filter (λ k, served w k = false) stateKeys = []) then []
              else [MongoFind (filter (λ k, served w k = false) stateKeys)]) ∧
    ∀ k, states !! k
         = if decide (k ∈ stateKeys ∧ k ≠ PROTO)
           then if served w k then parsed (cached_text w k)
                else storage w !! k ≫= λ doc, parsed (state doc)
           else None.
Proof.
  intros Hen Hc Hrup Hmup Hne Hcached Hstored.
  destruct (readRedis_served store c stateKeys w Hc Hrup Hne Hcached)
    as (cached & Hred & Hlook).
  unfold read, async, run. destruct stateKeys as [|k0 keys0] eqn:Hkeys; [done|].
  rewrite <-Hkeys in *. rewrite Hen. unfold bind at 1. unfold bind at 1.
  unfold call. rewrite Hred. unfold await. simpl.
  destruct (filter (λ k, served w k = false) stateKeys) as [|m0 ms] eqn:Hmiss.
  - eexists (Object_assign ∅ cached), _, _. simpl. split; [done|]. split.
    + by rewrite app_nil_r.
    + intros k. destruct (decide (k = PROTO)) as [->|Hkp].
      { rewrite lookup_Object_assign_proto by done.
        rewrite decide_False; [done|]. by intros [_ ?]. }
      rewrite lookup_Object_assign_other, lookup_empty_object, Hlook by done.
      destruct (decide (k ∈ stateKeys)) as [Hin|Hin].
      * rewrite (decide_True (P := k ∈ stateKeys ∧ k ≠ PROTO)) by done.
        destruct (served w k) eqn:Hs.
        -- rewrite decide_True by done. by destruct (parsed _).
        -- assert (k ∈ filter (λ k, served w k = false) stateKeys) as Hk
             by by apply list_elem_of_filter.
           rewrite Hmiss in Hk. by apply elem_of_nil in Hk.
      * rewrite !decide_False; [done| |]; by intros [? _].
  - rewrite <-Hmiss in *.
    set (w1 := set_clock _ _).
    destruct (readMongo_lookup store (filter (λ k, served w k = false) stateKeys) w1)
      as (m & Hm & Hmproto & Hmlook); [done| |].
    { eapply Forall_impl; [exact Hstored|]. intros k Hk. exact Hk. }
    unfold bind. rewrite Hm. simpl.
    eexists (Object_assign (Object_assign ∅ cached) m), _, _. split; [done|]. split.
    + rewrite decide_False by by rewrite Hmiss. simpl. by rewrite <-app_assoc.
    + intros k. destruct (decide (k = PROTO)) as [->|Hkp].
      { rewrite lookup_Object_assign_no_proto, lookup_Object_assign_proto by done.
        rewrite decide_False; [done|]. by intros [_ ?]. }
      rewrite !lookup_Object_assign_other, lookup_empty_object by done.
      rewrite Hmlook, Hlook by done.
      destruct (decide (k ∈ stateKeys)) as [Hin|Hin].
      * rewrite (decide_True (P := k ∈ stateKeys ∧ k ≠ PROTO)) by done.
        destruct (served w k) eqn:Hs; simpl.
        -- rewrite decide_False;
             [|intros [Hk _]%list_elem_of_filter; by rewrite Hs in Hk].
           rewrite decide_True by done. by destruct (parsed (cached_text w k)).
        -- rewrite decide_True by by apply list_elem_of_filter.
           rewrite decide_False by by intros [_ ?].
           by destruct (storage w !! k ≫= _).
      * rewrite !decide_False; [done| | |].
        -- by intros [? _].
        -- by intros [? _].
        -- by intros [_ ?]%list_elem_of_filter.
Qed.

End served.

(** X6: [readRedis] takes a cached value only if it is truthy: a key under
    which the cache holds the empty string is treated like a key it does not
    hold.  With both tiers up, [read] asks MongoDB for exactly the keys without
    a truthy cached value and returns for them what MongoDB has (nothing for
    the key [__proto__]). *)
Theorem read_takes_empty_text_for_a_miss `{rt : Runtime} (store : MongoStore)
    (c : RedisClient) (stateKeys : list string) (w : World) :
  isCacheEnabled store = true →
  rClient store = Some c →
  redis_up w = true →
  mongo_up w = true →
  stateKeys ≠ [] →
  Forall (λ k, served w k = true → is_Some (parsed (cached_text w k))) stateKeys →
  Forall (stored_readable w) (filter (λ k, served w k = false) stateKeys) →
  (∀ k, served w k = false ↔ redis_db w !! k = None ∨ cached_text w k = "") ∧
  ∃ states,
    outcome (read store stateKeys w).1 = Resolved states ∧
    issued (read store stateKeys) w
    = (RedisGet <$> stateKeys) ++
      (if decide (filter (λ k, served w k = false) stateKeys = []) then []
       else [MongoFind (filter (λ k, served w k = false) stateKeys)]) ∧
    ∀ k, k ∈ stateKeys → k ≠ "__proto__" → served w k = false →
         states !! k = storage w !! k ≫= λ doc, parsed (state doc).
Proof.
  intros Hen Hc Hrup Hmup Hne Hcached Hstored. split.
  - intros k. unfold served, cached_text, truthy.
    destruct (redis_db w !! k) as [[text ex]|]; simpl.
    + rewrite bool_decide_eq_false. split.
      * intros Hn. right. by destruct (decide (text = "")).
      * intros [?|Ht]; [done|]. intros Hn. by apply Hn.
    + split; [by left|done].
  - destruct (read_served_eq store c stateKeys w) as (states & t & w' & Heq & Hlog & Hlook);
      try done.
    exists states. unfold issued. rewrite Heq. simpl. split; [done|]. split.
    + by rewrite Hlog, drop_app_length.
    + intros k Hk Hkp Hs. by rewrite Hlook, decide_True, Hs.
Qed.

Lemma read_takes_empty_text_for_a_miss_witness :
  (∀ k, served empty_text_world k = false
        ↔ redis_db empty_text_world !! k = None ∨ cached_text empty_text_world k = "") ∧
  ∃ states,
    outcome (@read tiers_runtime store_with_redis ["a"] empty_text_world).1
    = Resolved states ∧
    issued (@read tiers_runtime store_with_redis ["a"]) empty_text_world
    = (RedisGet <$> ["a"]) ++
      (if decide (filter (λ k, served empty_text_world k = false) ["a"] = []) then []
       else [MongoFind (filter (λ k, served empty_text_world k = false) ["a"])]) ∧
    ∀ k, k ∈ ["a"] → k ≠ "__proto__" → served empty_text_world k = false →
         states !! k = storage empty_text_world !! k
                       ≫= λ doc, @parsed tiers_runtime (state doc).
Proof.
  apply (@read_takes_empty_text_for_a_miss tiers_runtime store_with_redis
           {| redis_options := {| url := "redis://localhost:6380" |} |}).
  - reflexivity.
  - reflexivity.
  - reflexivity.
  - reflexivity.
  - discriminate.
  - apply Forall_cons. split; [|by apply Forall_nil]. vm_compute. discriminate.
  - change (filter (λ k, served empty_text_world k = false) ["a"]) with ["a"].
    apply Forall_cons. split; [|by apply Forall_nil]. vm_compute. eauto.
Defined.

Example read_of_an_empty_cached_text :
  outcome (@read tiers_runtime store_with_redis ["a"] empty_text_world).1
  = Resolved (plain {[ "a" := stale_a ]}) ∧
  issued (@read tiers_runtime store_with_redis ["a"]) empty_text_world
  = [RedisGet "a"; MongoFind ["a"]].
Proof. vm_compute. done. Qed.

(** * Delete with a cache client *)

Lemma foldl_delete_lookup {V} (keys : list string) (m : gmap string V) k :
  foldl (λ r k, base.delete k r) m keys !! k = if decide (k ∈ keys) then None else m !! k.
Proof.
  revert m. induction keys as [|k0 keys IH]; intros m.
  - destruct (decide (k ∈ [])) as [H|_]; [by apply elem_of_nil in H|done].
  - simpl. rewrite IH. destruct (decide (k ∈ keys)) as [Hin|Hin].
    + by rewrite decide_True by (apply elem_of_cons; by right).
    + destruct (decide (k = k0)) as [->|Hne].
      * rewrite lookup_delete_eq. by rewrite decide_True by (apply elem_of_cons; by left).
      * rewrite lookup_delete_ne by done. rewrite decide_False; [done|].
        rewrite elem_of_cons. by intros [?|?].
Qed.

Lemma filter_out_lookup (keys : list string) (s : gmap string MongoStoreDocument) k :
  filter (λ d : string * MongoStoreDocument, d.1 ∉ keys) s !! k
  = if decide (k ∈ keys) then None else s !! k.
Proof.
  destruct (decide (k ∈ keys)) as [Hin|Hin].
  - apply map_lookup_filter_None_2. right. intros doc _ Hn. by apply Hn.
  - destruct (s !! k) as [doc|] eqn:Hk.
    + by apply map_lookup_filter_Some_2.
    + apply map_lookup_filter_None_2. by left.
Qed.

Lemma del_state_client store c k w :
  cache store = Some c →
  del_state store k w
  = (if redis_up w then Resolved () else Rejected RedisError,
     set_clock (clock w `max` (clock w + redis_latency w))
       (add_log (RedisDel k)
          (if redis_up w then set_redis_db (base.delete k (redis_db w)) w else w))).
Proof.
  intros Hc. unfold del_state, bind, redis_del, redis_request. rewrite Hc.
  unfold call, await. simpl. by destruct (redis_up w).
Qed.

Lemma map_async_dels store c keys w :
  cache store = Some c →
  map_async (del_state store) keys w
  = (Resolved ((λ _, {| settled_at := clock w + redis_latency w;
                        outcome := if redis_up w then Resolved ()
                                   else Rejected RedisError |}) <$> keys),
     dels_world keys w).
Proof.
  intros Hc. revert w. induction keys as [|k keys IH]; intros w.
  - simpl. unfold ret, dels_world. simpl. rewrite app_nil_r.
    by destruct w as [? ? ? ? [] ? ? ? ? ?].
  - rewrite map_async_cons, (del_state_client _ c) by done. simpl.
    rewrite IH. unfold dels_world, set_log. simpl.
    destruct (redis_up w) eqn:Hup; simpl; rewrite ?Hup; simpl; rewrite <-app_assoc;
      repeat f_equal; (lia || done).
Qed.

Lemma dels_world_env keys w :
  clock (dels_world keys w) = clock w ∧ mongo_up (dels_world keys w) = mongo_up w ∧
  mongo_latency (dels_world keys w) = mongo_latency w ∧
  storage (dels_world keys w) = storage w ∧ heap (dels_world keys w) = heap w.
Proof. unfold dels_world. by destruct (redis_up w). Qed.

Lemma deleteRedis_client store c keys w :
  cache store = Some c → keys ≠ [] →
  deleteRedis store keys w
  = ({| settled_at := clock w + redis_latency w;
        outcome := if redis_up w then Resolved () else Rejected RedisError |},
     dels_world keys w).
Proof.
  intros Hc Hne. unfold deleteRedis, async. unfold bind at 1.
  rewrite (map_async_dels _ c) by done.
  destruct (dels_world_env keys w) as (Hclock & _).
  set (wf := dels_world keys w) in *. clearbody wf.
  unfold bind, await, ret.
  destruct (redis_up w) eqn:Hup.
  - pose proof (Promise_all_resolved keys (clock w + redis_latency w) (λ _, ())) as Hp.
    simpl in Hp. rewrite Hp. simpl. rewrite max_list_uniform by done.
    rewrite Hclock. f_equal; [f_equal; lia|]. destruct wf; simpl in *; by subst.
  - unfold Promise_all. rewrite first_rejection_uniform by done. simpl.
    rewrite Hclock. f_equal; [f_equal; lia|]. destruct wf; simpl in *; by subst.
Qed.

Lemma deleteMongo_eq store keys w :
  deleteMongo store keys w
  = ({| settled_at := clock w + mongo_latency w;
        outcome := if mongo_up w then Resolved () else Rejected MongoError |},
     deleteMany_world store keys w).
Proof.
  unfold deleteMongo, async, run, bind, call, mongo_deleteMany, mongo_request, await,
    deleteMany_world, writeConcern.
  simpl. destruct (mongo_up w); simpl; repeat f_equal; lia.
Qed.

Lemma deleteMany_world_clock store keys w : clock (deleteMany_world store keys w) = clock w.
Proof. unfold deleteMany_world. by destruct (mongo_up w). Qed.

Lemma delete_nonempty store keys :
  keys ≠ [] →
  delete store keys
  = async (let* p := call (deleteRedis store keys) in
           let* q := call (deleteMongo store keys) in
           let* _ := await (Promise_all [p; q]) in
           ret ()).
Proof. by destruct keys. Qed.

(** [delete] of a store with a client: the promise of [Promise.all] on the
    two halves, and the world after both requests. *)
Lemma delete_client store c keys w :
  cache store = Some c → keys ≠ [] →
  let all := Promise_all
               [ {| settled_at := clock w + redis_latency w;
                    outcome := if redis_up w then Resolved () else Rejected RedisError |};
                 {| settled_at := clock w + mongo_latency w;
                    outcome := if mongo_up w then Resolved () else Rejected MongoError |} ] in
  delete store keys w
  = ({| settled_at := settled_at all;
        outcome := match outcome all with
                   | Resolved _ => Resolved ()
                   | Rejected e => Rejected e
                   end |},
     deleteMany_world store keys (dels_world keys w)).
Proof.
  intros Hc Hne all. subst all. rewrite delete_nonempty by done.
  unfold async. unfold bind at 1. unfold call. rewrite (deleteRedis_client _ c) by done.
  unfold bind at 1. rewrite deleteMongo_eq.
  destruct (dels_world_env keys w) as (Hclock & Hup & Hlat & _).
  rewrite Hclock, Hup, Hlat.
  pose proof (deleteMany_world_clock store keys (dels_world keys w)) as Hclock'.
  rewrite Hclock in Hclock'.
  set (wf := deleteMany_world store keys (dels_world keys w)) in *. clearbody wf.
  unfold ret, bind, await, Promise_all. simpl. rewrite Hclock'.
  destruct (mongo_up w), (redis_up w); simpl;
    try (destruct (decide _); simpl);
    (f_equal; [f_equal; lia|by apply set_clock_twice]).
Qed.

Lemma delete_client_world store c keys w :
  cache store = Some c → keys ≠ [] →
  let w' := (delete store keys w).2 in
  log w' = log w ++ (RedisDel <$> keys) ++ [MongoDeleteMany keys (writeConcern store)] ∧
  (∀ k, redis_db w' !! k
        = if redis_up w then if decide (k ∈ keys) then None else redis_db w !! k
          else redis_db w !! k) ∧
  (∀ k, storage w' !! k
        = if mongo_up w then if decide (k ∈ keys) then None else storage w !! k
          else storage w !! k) ∧
  heap w' = heap w ∧ oid w' = oid w ∧ clock w' = clock w ∧
  mongo_up w' = mongo_up w ∧ redis_up w' = redis_up w.
Proof.
  intros Hc Hne. pose proof (delete_client store c keys w Hc Hne) as Hd.
  simpl in Hd. simpl. rewrite Hd. simpl.
  unfold deleteMany_world, dels_world, set_log. simpl.
  destruct (mongo_up w) eqn:Hm; simpl; destruct (redis_up w) eqn:Hr; simpl;
    rewrite ?Hm, ?Hr; simpl; rewrite <-?app_assoc;
    (split; [done|]); (split; [|split; [|done]]); intros k;
    rewrite ?foldl_delete_lookup, ?filter_out_lookup; done.
Qed.

(** X8: on a store with a Redis client and both servers up, [delete] of a
    non-empty key list sends one [DEL] per key and then one [deleteMany] for
    all of them, resolves when the slower of the two tiers has answered, and
    leaves neither tier with an entry for a deleted key; the entries of the
    other keys and the caller's objects are as before. *)
Theorem delete_removes_from_both_tiers (store : MongoStore)
    (c : RedisClient) (keys : list string) (w : World) :
  rClient store = Some c →
  keys ≠ [] →
  mongo_up w = true →
  redis_up w = true →
  let w' := (delete store keys w).2 in
  (delete store keys w).1
  = {| settled_at := clock w + (redis_latency w `max` mongo_latency w);
       outcome := Resolved () |} ∧
  issued (delete store keys) w
  = (RedisDel <$> keys) ++ [MongoDeleteMany keys (writeConcern store)] ∧
  (∀ k, redis_db w' !! k = if decide (k ∈ keys) then None else redis_db w !! k) ∧
  (∀ k, storage w' !! k = if decide (k ∈ keys) then None else storage w !! k) ∧
  heap w' = heap w.
Proof.
  intros Hc Hne Hm Hr w'.
  destruct (delete_client_world store c keys w Hc Hne) as (Hlog & Hdb & Hst & Hheap & _).
  fold w' in Hlog, Hdb, Hst, Hheap. rewrite Hr in Hdb. rewrite Hm in Hst.
  split; [|split; [|done]].
  - pose proof (delete_client store c keys w Hc Hne) as Hd. simpl in Hd. rewrite Hd.
    unfold Promise_all. simpl. rewrite Hm, Hr. simpl. f_equal. lia.
  - apply issued_spec. by fold w'.
Qed.

Lemma delete_removes_from_both_tiers_witness :
  let w' := (delete store_with_redis ["a"] tiers_world).2 in
  (delete store_with_redis ["a"] tiers_world).1
  = {| settled_at := clock tiers_world
                     + (redis_latency tiers_world `max` mongo_latency tiers_world);
       outcome := Resolved () |} ∧
  issued (delete store_with_redis ["a"]) tiers_world
  = (RedisDel <$> ["a"]) ++ [MongoDeleteMany ["a"] (writeConcern store_with_redis)] ∧
  (∀ k, redis_db w' !! k = if decide (k ∈ ["a"]) then None else redis_db tiers_world !! k) ∧
  (∀ k, storage w' !! k = if decide (k ∈ ["a"]) then None else storage tiers_world !! k) ∧
  heap w' = heap tiers_world.
Proof.
  apply (delete_removes_from_both_tiers store_with_redis
           {| redis_options := {| url := "redis://localhost:6380" |} |}).
  - reflexivity.
  - discriminate.
  - reflexivity.
  - reflexivity.
Defined.

(** X9: [delete] does not roll back.  With a Redis client, when Redis is down
    and MongoDB up the call is rejected with the Redis error although the
    documents are gone from MongoDB; when MongoDB is down and Redis up it is
    rejected with the MongoDB error although the cache entries are gone and
    the documents are still stored. *)
Theorem delete_does_not_roll_back (store : MongoStore)
    (c : RedisClient) (keys : list string) (w : World) :
  rClient store = Some c →
  keys ≠ [] →
  let w' := (delete store keys w).2 in
  (redis_up w = false → mongo_up w = true →
   (delete store keys w).1
   = {| settled_at := clock w + redis_latency w; outcome := Rejected RedisError |} ∧
   (∀ k, k ∈ keys → storage w' !! k = None) ∧
   redis_db w' = redis_db w) ∧
  (mongo_up w = false → redis_up w = true →
   (delete store keys w).1
   = {| settled_at := clock w + mongo_latency w; outcome := Rejected MongoError |} ∧
   (∀ k, k ∈ keys → redis_db w' !! k = None) ∧
   storage w' = storage w).
Proof.
  intros Hc Hne w'.
  destruct (delete_client_world store c keys w Hc Hne) as (_ & Hdb & Hst & _).
  fold w' in Hdb, Hst.
  pose proof (delete_client store c keys w Hc Hne) as Hd. simpl in Hd.
  split; intros H1 H2; rewrite Hd; unfold Promise_all; simpl; rewrite H1, H2; simpl.
  - rewrite H1 in Hdb. rewrite H2 in Hst. split; [done|]. split.
    + intros k Hk. by rewrite Hst, decide_True.
    + by apply map_eq.
  - rewrite H2 in Hdb. rewrite H1 in Hst. split; [done|]. split.
    + intros k Hk. by rewrite Hdb, decide_True.
    + by apply map_eq.
Qed.

Lemma delete_does_not_roll_back_witness :
  let w := set_redis_up false tiers_world in
  let w' := (delete store_with_redis ["a"] w).2 in
  (redis_up w = false → mongo_up w = true →
   (delete store_with_redis ["a"] w).1
   = {| settled_at := clock w + redis_latency w; outcome := Rejected RedisError |} ∧
   (∀ k, k ∈ ["a"] → storage w' !! k = None) ∧
   redis_db w' = redis_db w) ∧
  (mongo_up w = false → redis_up w = true →
   (delete store_with_redis ["a"] w).1
   = {| settled_at := clock w + mongo_latency w; outcome := Rejected MongoError |} ∧
   (∀ k, k ∈ ["a"] → redis_db w' !! k = None) ∧
   storage w' = storage w).
Proof.
  apply (delete_does_not_roll_back store_with_redis
           {| redis_options := {| url := "redis://localhost:6380" |} |}).
  - reflexivity.
  - discriminate.
Defined.

(** A delete with Redis down leaves the stale cached copy to be served. *)
Example stale_read_after_a_failed_delete :
  let w := set_redis_up false tiers_world in
  let w1 := set_redis_up true (delete store_with_redis ["a"] w).2 in
  outcome (delete store_with_redis ["a"] w).1 = Rejected RedisError ∧
  storage w1 !! "a" = None ∧
  outcome (@read tiers_runtime store_with_redis ["a"] w1).1 = Resolved (plain {[ "a" := cached_a ]}).
Proof. vm_compute. done. Qed.

Lemma delete_no_client store keys w :
  cache store = None → keys ≠ [] →
  delete store keys w
  = ({| settled_at := clock w; outcome := Rejected TypeError |},
     deleteMany_world store keys w).
Proof.
  intros Hc Hne. rewrite delete_nonempty by done.
  unfold async. unfold bind at 1. unfold call. rewrite deleteRedis_no_client by done.
  unfold bind at 1. rewrite deleteMongo_eq.
  pose proof (deleteMany_world_clock store keys w) as Hclock.
  set (wf := deleteMany_world store keys w) in *. clearbody wf.
  unfold bind, await, Promise_all. simpl.
  destruct (mongo_up w); simpl; try rewrite decide_True by lia; simpl; rewrite Hclock;
    (f_equal; [f_equal; lia|by apply set_clock_twice]).
Qed.

Lemma constructor_no_client `{dr : Drivers} uri options store :
  constructor uri options = Resolved store →
  isCacheEnabled store = false → cache store = None.
Proof.
  intros ->%constructor_Resolved; simpl.
  by destruct (Options.redis options).
Qed.

(** Reading keys that neither tier holds. *)
Section absent.
Context `{rt : Runtime}.

Lemma reduce_cached_none (db : gmap string (string * Z)) stateKeys accum missing w :
  (∀ k, k ∈ stateKeys → db !! k = None) →
  reduce_cached ((λ k, (k, fst <$> db !! k)) <$> stateKeys) accum missing w
  = (Resolved (accum, missing ++ stateKeys), w).
Proof.
  revert missing. induction stateKeys as [|k0 stateKeys IH]; intros missing Hnone.
  - by rewrite app_nil_r.
  - rewrite fmap_cons. simpl. rewrite (Hnone k0) by (apply elem_of_cons; by left).
    simpl. rewrite IH, <-app_assoc; [done|].
    intros k Hk. apply Hnone, elem_of_cons. by right.
Qed.

Lemma readRedis_none store c stateKeys w :
  cache store = Some c → redis_up w = true → stateKeys ≠ [] →
  (∀ k, k ∈ stateKeys → redis_db w !! k = None) →
  readRedis store stateKeys w
  = ({| settled_at := clock w + redis_latency w; outcome := Resolved (∅, stateKeys) |},
     set_log (log w ++ (RedisGet <$> stateKeys)) w).
Proof.
  intros Hc Hup Hne Hnone.
  unfold readRedis, async. unfold bind at 1. rewrite (map_async_gets _ c) by done.
  unfold bind at 1. unfold await.
  pose proof (Promise_all_resolved stateKeys (clock w + redis_latency w)
                (λ k, (k, fst <$> redis_db w !! k))) as Hp.
  simpl in Hp. rewrite Hp. simpl. rewrite max_list_uniform by done.
  rewrite reduce_cached_none by done. simpl. f_equal. f_equal. lia.
Qed.

Lemma readMongo_none store stateKeys w :
  mongo_up w = true →
  (∀ k, k ∈ stateKeys → storage w !! k = None) →
  readMongo store stateKeys w
  = ({| settled_at := clock w + mongo_latency w; outcome := Resolved ∅ |},
     add_log (MongoFind stateKeys) w).
Proof.
  intros Hup Hnone.
  assert (filter (λ d : string * MongoStoreDocument, d.1 ∈ stateKeys) (storage w) = ∅)
    as Hfound.
  { apply map_eq. intros k. rewrite lookup_empty. apply map_lookup_filter_None.
    destruct (storage w !! k) as [doc|] eqn:Hdoc; [|by left]. right.
    intros doc' _ Hk. simpl in Hk. by rewrite Hnone in Hdoc. }
  unfold readMongo, async, run, mongo_find, mongo_request. unfold bind at 1.
  unfold bind at 1. unfold call, await. simpl. rewrite Hup. simpl.
  rewrite Hfound, map_to_list_empty. simpl. rewrite Nat.max_r by lia. reflexivity.
Qed.

Lemma read_of_absent_keys store stateKeys w :
  stateKeys ≠ [] →
  mongo_up w = true →
  (isCacheEnabled store = true →
   is_Some (cache store) ∧ redis_up w = true ∧
   ∀ k, k ∈ stateKeys → redis_db w !! k = None) →
  (∀ k, k ∈ stateKeys → storage w !! k = None) →
  ∃ t w', read store stateKeys w = ({| settled_at := t; outcome := Resolved ∅ |}, w').
Proof.
  intros Hne Hm Hcache Hgone.
  unfold read, async, run. destruct stateKeys as [|k0 keys0]; [done|].
  destruct (isCacheEnabled store).
  - destruct Hcache as ([c Hc] & Hr & Hnone); [done|].
    unfold bind at 1. unfold bind at 1. unfold call.
    rewrite (readRedis_none _ c) by done. unfold await.
    cbn [fst snd outcome settled_at]. unfold bind, call.
    rewrite readMongo_none by done. cbn [fst snd outcome settled_at].
    rewrite !Object_assign_empty. by eexists _, _.
  - unfold bind, call. rewrite readMongo_none by done. simpl.
    rewrite Object_assign_empty. by eexists _, _.
Qed.

End absent.

(** X10: after [delete] of a non-empty key list, with MongoDB up and, if the
    cache is enabled, Redis up, [read] of the same keys resolves to the empty
    mapping.  This holds without the [redis] option too, where the delete
    itself is rejected. *)
Theorem read_after_delete `{dr : Drivers} `{rt : Runtime} (uri : string) (options : MongoStoreOptions)
    (store : MongoStore) (keys : list string) (w : World) :
  constructor uri options = Resolved store →
  keys ≠ [] →
  mongo_up w = true →
  (isCacheEnabled store = true → redis_up w = true) →
  ∃ w2, run (read store keys) (run (delete store keys) w).2 = (Resolved ∅, w2).
Proof.
  intros Hcons Hne Hm Hr. rewrite (run_eq (delete store keys)). simpl.
  set (w1 := set_clock _ _).
  cut (∃ t w', read store keys w1 = ({| settled_at := t; outcome := Resolved ∅ |}, w')).
  { intros (t & w' & Hread). exists (set_clock (clock w' `max` t) w').
    by rewrite run_eq, Hread. }
  destruct (isCacheEnabled store) eqn:Hen.
  - destruct (constructor_client _ _ _ Hcons Hen) as [c Hc]. specialize (Hr eq_refl).
    destruct (delete_client_world store c keys w Hc Hne)
      as (_ & Hdb & Hst & _ & _ & _ & Hm' & Hr').
    rewrite Hr in Hdb. rewrite Hm in Hst.
    assert (redis_db w1 = redis_db (delete store keys w).2 ∧
            storage w1 = storage (delete store keys w).2 ∧
            mongo_up w1 = true ∧ redis_up w1 = true) as (Hdb1 & Hst1 & Hm1 & Hr1).
    { repeat split; try done; simpl; congruence. }
    clearbody w1.
    apply read_of_absent_keys; [done|done| |].
    + intros _. split; [by exists c|]. split; [done|].
      intros k Hk. by rewrite Hdb1, Hdb, decide_True.
    + intros k Hk. by rewrite Hst1, Hst, decide_True.
  - pose proof (constructor_no_client _ _ _ Hcons Hen) as Hc.
    assert (storage w1 = storage (deleteMany_world store keys w) ∧ mongo_up w1 = true)
      as (Hst1 & Hm1).
    { subst w1. rewrite delete_no_client by done. simpl. split; [done|].
      unfold deleteMany_world. simpl. by rewrite Hm. }
    clearbody w1.
    apply read_of_absent_keys; [done|done|by rewrite Hen|].
    intros k Hk. rewrite Hst1. unfold deleteMany_world. rewrite Hm. simpl.
    by rewrite filter_out_lookup, decide_True.
Qed.

Lemma read_after_delete_witness :
  ∃ w2, run (@read tiers_runtime store_with_redis ["a"; "b"])
          (run (delete store_with_redis ["a"; "b"]) tiers_world).2 = (Resolved ∅, w2).
Proof.
  apply (@read_after_delete test_drivers tiers_runtime test_uri options_with_redis).
  - reflexivity.
  - discriminate.
  - reflexivity.
  - reflexivity.
Defined.

(** * Health with the cache *)

(** X11: on a cache-enabled store with MongoDB up, [health] pings MongoDB,
    then Redis twice (the second ping is the awaited one).  With Redis up it
    resolves to [{ok: 1, mongo: 1, redis: 1}]; with Redis down it is rejected
    with the Redis error instead of reporting [redis: 0]. *)
Theorem health_with_cache (store : MongoStore) (c : RedisClient) (w : World) :
  isCacheEnabled store = true →
  rClient store = Some c →
  mongo_up w = true →
  (health store w).1
  = {| settled_at := clock w + mongo_latency w + redis_latency w;
       outcome := if redis_up w
                  then Resolved {| ok := 1; mongo := 1; redis := Some 1%Z |}
                  else Rejected RedisError |} ∧
  issued (health store) w = [MongoPing; RedisPing; RedisPing].
Proof.
  intros Hen Hc Hm.
  unfold issued, health, async, bind, run, call, mongo_ping, mongo_request, await,
    redis_ping, redis_request.
  simpl. rewrite Hm, Hc, Hen. unfold call. simpl.
  destruct (redis_up w) eqn:Hr; simpl; rewrite ?Hr; simpl; rewrite ?Hr; simpl;
    rewrite <-!app_assoc, drop_app_length; (split; [f_equal; lia|done]).
Qed.

Lemma health_with_cache_witness :
  (health store_with_redis (set_redis_up false tiers_world)).1
  = {| settled_at := clock (set_redis_up false tiers_world)
                     + mongo_latency (set_redis_up false tiers_world)
                     + redis_latency (set_redis_up false tiers_world);
       outcome := if redis_up (set_redis_up false tiers_world)
                  then Resolved {| ok := 1; mongo := 1; redis := Some 1%Z |}
                  else Rejected RedisError |} ∧
  issued (health store_with_redis) (set_redis_up false tiers_world)
  = [MongoPing; RedisPing; RedisPing].
Proof.
  apply (health_with_cache store_with_redis
           {| redis_options := {| url := "redis://localhost:6380" |} |});
    reflexivity.
Defined.

(** * What a write leaves alone *)

(** X12: a [write] of objects changes, in either tier, only the entries
    under the keys it is given, and on the heap only the objects it is given,
    whatever the state of the servers. *)
Theorem write_touches_only_its_keys `{dr : Drivers} `{rt : Runtime} (uri : string)
    (options : MongoStoreOptions) (store : MongoStore)
    (entries : list (string * loc)) (w : World) :
  constructor uri options = Resolved store →
  let w' := (write store (objects entries) w).2 in
  (∀ k, k ∉ entries.*1 →
        storage w' !! k = storage w !! k ∧ redis_db w' !! k = redis_db w !! k) ∧
  (∀ l, l ∉ entries.*2 → heap w' !!! l = heap w !!! l).
Proof.
  intros Hcons w'. destruct (decide (entries = [])) as [->|Hne].
  { subst w'. by split. }
  destruct (write_objects_world store entries w (constructor_client _ _ _ Hcons) Hne)
    as (Hheap & Hst & Hdb & _).
  fold w' in Hheap, Hst, Hdb. split.
  - intros k Hk. rewrite Hst, Hdb. split.
    + destruct (mongo_up w); [|done].
      apply foldl_insert_other. by rewrite stamp_ops_keys.
    + destruct (isCacheEnabled store && redis_up w); [|done].
      by apply foldl_insert_other.
  - intros l Hl. rewrite Hheap. by apply stamp_heap_other.
Qed.

Lemma write_touches_only_its_keys_witness :
  let w' := (@write payload_runtime store_with_redis (objects two_entries)
               (fresh_world payload_heap)).2 in
  (∀ k, k ∉ two_entries.*1 →
        storage w' !! k = storage (fresh_world payload_heap) !! k ∧
        redis_db w' !! k = redis_db (fresh_world payload_heap) !! k) ∧
  (∀ l, l ∉ two_entries.*2 → heap w' !!! l = heap (fresh_world payload_heap) !!! l).
Proof.
  apply (@write_touches_only_its_keys test_drivers payload_runtime test_uri options_with_redis).
  reflexivity.
Defined.

(** X13: [write] does not roll back.  With the cache enabled, when MongoDB is
    down and Redis up the call is rejected with the MongoDB error, the
    documents are as before, and the cache holds the new text of each entry;
    when Redis is down and MongoDB up it is rejected with the Redis error,
    the cache is as before, and MongoDB holds the new document of each
    entry. *)
Theorem write_does_not_roll_back `{dr : Drivers} `{rt : Runtime} (uri : string)
    (options : MongoStoreOptions) (store : MongoStore)
    (entries : list (string * loc)) (w : World) (i : nat) (k : string) (l : loc) :
  constructor uri options = Resolved store →
  isCacheEnabled store = true →
  NoDup entries.*1 →
  entries !! i = Some (k, l) →
  let tok := ObjectId_toHexString (oid w + i) in
  let w' := (write store (objects entries) w).2 in
  (mongo_up w = false → redis_up w = true →
   outcome (write store (objects entries) w).1 = Rejected MongoError ∧
   storage w' = storage w ∧
   redis_db w' !! k = Some (JSON_stringify (JObj (heap w' !!! l)), cacheExpiration store)) ∧
  (redis_up w = false → mongo_up w = true →
   outcome (write store (objects entries) w).1 = Rejected RedisError ∧
   redis_db w' = redis_db w ∧
   storage w' !! k
   = Some {| state := JSON_stringify (JObj (stamped tok (heap w !!! l)));
             date := clock w; etag := tok |}).
Proof.
  intros Hcons Hen Hnd Hi tok w'.
  assert (entries ≠ []) as Hne by by destruct entries.
  assert ((k, l) ∈ entries) as Hin by by eapply list_elem_of_lookup_2.
  destruct (constructor_client _ _ _ Hcons Hen) as [c Hc].
  destruct (write_objects_world store entries w (constructor_client _ _ _ Hcons) Hne)
    as (Hheap & Hst & Hdb & _).
  fold w' in Hheap, Hst, Hdb. rewrite Hen in Hdb. simpl in Hdb.
  pose proof (write_objects_cached store c entries w Hen Hc Hne) as Hw. simpl in Hw.
  split; intros H1 H2; rewrite Hw; unfold Promise_all; simpl; rewrite H1, H2; simpl.
  - rewrite H1 in Hst. rewrite H2 in Hdb. split; [done|]. split; [done|].
    rewrite Hdb.
    apply (foldl_insert_lookup fst (cache_value store (stamp_heap (oid w) entries (heap w)))
             _ (redis_db w)) in Hin; [|done].
    simpl in Hin. rewrite Hin. unfold cache_value. simpl. by rewrite <-Hheap.
  - rewrite H1 in Hdb. rewrite H2 in Hst. split; [done|]. split; [done|].
    rewrite Hst.
    pose proof (stamp_ops_elem (oid w) (clock w) entries (heap w) i k l Hi) as Hop.
    apply (foldl_insert_lookup filter_key document_of _ (storage w)) in Hop; [done|].
    by rewrite stamp_ops_keys.
Qed.

Lemma write_does_not_roll_back_witness :
  let w := set_mongo_up false (fresh_world payload_heap) in
  let tok := @ObjectId_toHexString payload_runtime (oid w + 0) in
  let w' := (@write payload_runtime store_with_redis (objects two_entries) w).2 in
  (mongo_up w = false → redis_up w = true →
   outcome (@write payload_runtime store_with_redis (objects two_entries) w).1
   = Rejected MongoError ∧
   storage w' = storage w ∧
   redis_db w' !! "s1"
   = Some (@JSON_stringify payload_runtime (JObj (heap w' !!! 0)),
           cacheExpiration store_with_redis)) ∧
  (redis_up w = false → mongo_up w = true →
   outcome (@write payload_runtime store_with_redis (objects two_entries) w).1
   = Rejected RedisError ∧
   redis_db w' = redis_db w ∧
   storage w' !! "s1"
   = Some {| state := @JSON_stringify payload_runtime (JObj (stamped tok (heap w !!! 0)));
             date := clock w; etag := tok |}).
Proof.
  apply (@write_does_not_roll_back test_drivers payload_runtime test_uri options_with_redis).
  - reflexivity.
  - reflexivity.
  - apply (bool_decide_unpack _). vm_compute. exact I.
  - reflexivity.
Defined.

(** A write rejected because MongoDB is down is served from the cache
    afterwards, although it was never stored. *)
Example read_after_a_failed_write :
  let w := set_mongo_up false (fresh_world payload_heap) in
  let w' := (@write payload_runtime store_with_redis (objects two_entries) w).2 in
  outcome (@write payload_runtime store_with_redis (objects two_entries) w).1
  = Rejected MongoError ∧
  outcome (@read payload_runtime store_with_redis ["s1"] w').1
  = Resolved (plain {[ "s1" := JObj [("v", JPrim (PNum 1)); ("eTag", JPrim (PStr "oid0"))] ]}) ∧
  storage w' !! "s1" = None.
Proof. vm_compute. done. Qed.

(** * A primitive among the payloads *)

#[export] Instance keeps_storage_frame : Frame keeps_storage.
Proof.
  split; unfold keeps_storage; simpl; try done.
  intros w1 w2 w3 H1 H2. by rewrite H2.
Qed.

#[export] Instance keeps_heap_frame : Frame keeps_heap.
Proof.
  split; unfold keeps_heap; simpl; try done.
  intros w1 w2 w3 [H1 H1'] [H2 H2']. by rewrite H2, H2'.
Qed.

Section primitive.
Context `{rt : Runtime}.

Lemma stamp_entries_primitive changes ops w :
  Exists has_primitive changes →
  ∃ w', stamp_entries changes ops w = (Rejected TypeError, w') ∧
        log w' = log w ∧ storage w' = storage w ∧ clock w' = clock w.
Proof.
  revert ops w. induction changes as [|[k st] changes IH]; intros ops w Hex.
  - by apply Exists_nil in Hex.
  - destruct st as [p|l].
    + exists (set_oid (S (oid w)) w). simpl. by unfold bind, new_ObjectId, assign_eTag.
    + apply Exists_cons in Hex as [[p [=]]|Hex].
      simpl. unfold bind, new_ObjectId, assign_eTag, stringify_value, new_Date, read_eTag.
      simpl.
      match goal with
      | |- context [stamp_entries changes ?o ?w1] =>
          destruct (IH o w1 Hex) as (w' & -> & Hlog & Hst & Hclock)
      end.
      by exists w'.
Qed.

Lemma writeMongo_primitive store changes w :
  Exists has_primitive changes →
  ∃ w', writeMongo store changes w
        = ({| settled_at := clock w; outcome := Rejected TypeError |}, w') ∧
        log w' = log w ∧ storage w' = storage w ∧ clock w' = clock w.
Proof.
  intros Hex. destruct (stamp_entries_primitive changes [] w Hex)
    as (w' & Hs & Hlog & Hst & Hclock).
  exists (set_clock (clock w) w'). unfold writeMongo, async, bind. rewrite Hs.
  simpl. by rewrite Hclock.
Qed.

End primitive.

(** X14: if one of the payloads is a primitive ([null], a number, a string, a
    boolean), [write] is rejected with a TypeError at once, in every
    configuration; nothing is sent to MongoDB and its documents are as before,
    also for the entries whose payloads are objects. *)
Theorem write_of_a_primitive `{rt : Runtime} (store : MongoStore)
    (changes : StoreItems) (w : World) :
  Exists has_primitive changes →
  (write store changes w).1 = {| settled_at := clock w; outcome := Rejected TypeError |} ∧
  storage (write store changes w).2 = storage w ∧
  Forall (λ c, ¬ is_mongo_call c) (issued (write store changes) w).
Proof.
  intros Hex. assert (changes ≠ []) as Hne by (intros ->; by apply Exists_nil in Hex).
  destruct (writeMongo_primitive store changes w Hex) as (w1 & Hm & Hlog1 & Hst1 & Hclock1).
  assert (∃ w' l, write store changes w
                  = ({| settled_at := clock w; outcome := Rejected TypeError |}, w') ∧
                  storage w' = storage w ∧ log w' = log w ++ l ∧
                  Forall (λ c, ¬ is_mongo_call c) l) as (w' & l & Heq & Hst & Hlog & Hl).
  { rewrite write_nonempty by done. unfold async. unfold bind at 1. unfold call.
    rewrite Hm. destruct (isCacheEnabled store).
    - pose proof (writeRedis_settled store changes w1) as Hq.
      pose proof (async_clock (A := ())) as Hac.
      assert (clock (writeRedis store changes w1).2 = clock w1) as Hc2 by apply Hac.
      assert (keeps_storage w1 (writeRedis store changes w1).2 ∧
              issues_only (λ c, ¬ is_mongo_call c) w1 (writeRedis store changes w1).2)
        as [Hks (l & Hlog2 & Hl)].
      { apply (writeRedis_framed
                 (λ w w', keeps_storage w w' ∧
                          issues_only (λ c, ¬ is_mongo_call c) w w')).
        intros k v ex r w0. repeat split; try done;
          (apply issues_only_add_log; [by intros []|done]). }
      unfold bind at 1. unfold bind at 1. unfold call.
      destruct (writeRedis store changes w1) as [q w2]. simpl in *.
      unfold ret, bind, await, Promise_all. simpl.
      exists (set_clock (clock w) (set_clock (clock w2 `max` clock w) w2)), l.
      rewrite Hclock1 in *. unfold keeps_storage in Hks.
      destruct (outcome q) as [a|e]; simpl.
      + rewrite Hc2, Nat.max_id. simpl. by rewrite Hks, Hst1, Hlog2, Hlog1.
      + rewrite decide_True by done. simpl. rewrite Hc2, Nat.max_id. simpl.
        by rewrite Hks, Hst1, Hlog2, Hlog1.
    - unfold ret, bind, await, Promise_all. simpl.
      exists (set_clock (clock w) (set_clock (clock w1 `max` clock w) w1)), [].
      rewrite Hclock1, Nat.max_id. simpl. by rewrite Hst1, Hlog1, app_nil_r. }
  rewrite Heq. simpl. split; [done|]. split; [done|].
  unfold issued. rewrite Heq. simpl. by rewrite Hlog, drop_app_length.
Qed.

Lemma write_of_a_primitive_witness :
  let changes := [("s1", JsRef 0); ("n", JsPrim (PNum 7))] in
  (@write payload_runtime store_with_redis changes (fresh_world payload_heap)).1
  = {| settled_at := clock (fresh_world payload_heap); outcome := Rejected TypeError |} ∧
  storage (@write payload_runtime store_with_redis changes (fresh_world payload_heap)).2
  = storage (fresh_world payload_heap) ∧
  Forall (λ c, ¬ is_mongo_call c)
    (issued (@write payload_runtime store_with_redis changes) (fresh_world payload_heap)).
Proof.
  apply (@write_of_a_primitive payload_runtime store_with_redis).
  apply Exists_cons. right. apply Exists_cons. left. by exists (PNum 7).
Defined.

(** The object before the primitive was stamped all the same, and the cache
    took both entries. *)
Example partial_write_of_a_primitive :
  let changes := [("s1", JsRef 0); ("n", JsPrim (PNum 7))] in
  let w' := (@write payload_runtime store_with_redis changes
               (fresh_world payload_heap)).2 in
  heap w' !!! 0 = [("v", JPrim (PNum 1)); ("eTag", JPrim (PStr "oid0"))] ∧
  fst <$> redis_db w' !! "n" = Some "7" ∧
  is_Some (redis_db w' !! "s1") ∧
  storage w' = ∅.
Proof. vm_compute. repeat split; eauto. Qed.

(** * What a method leaves alone *)

Section health_framed.
Context `{rt : Runtime} (R : World → World → Prop) `{!Frame R} (store : MongoStore).
Hypothesis R_mongo_ping : ∀ w, R w (add_log MongoPing w).
Hypothesis R_redis_ping : ∀ w, R w (add_log RedisPing w).

Lemma health_framed : framed R (health store).
Proof.
  assert (framed R (redis_ping (rClient store))) as Hping
    by (fr framed_redis_request; intros w; apply R_redis_ping).
  fr framed_async.
  fr framed_bind; [fr framed_run; fr framed_mongo_request; intros w; apply R_mongo_ping|].
  intros mongoResponse. fr framed_bind; [done|intros _].
  fr framed_bind; [ |intros ping; fr framed_ret].
  destruct (isCacheEnabled store); [|fr framed_ret].
  fr framed_bind; [ |intros r; fr framed_ret].
  fr framed_bind; [done|intros p; fr framed_await].
Qed.

End health_framed.

(** With no client, the steps towards Redis stop before a request is made,
    so that nothing has to be known of the frame for them. *)
Section no_client.
Context `{rt : Runtime} (R : World → World → Prop) `{!Frame R} (store : MongoStore).
Hypothesis no_client : cache store = None.
Hypothesis R_find : ∀ keys w, R w (add_log (MongoFind keys) w).
Hypothesis R_oid : ∀ n w, R w (set_oid n w).
Hypothesis R_heap : ∀ h w, R w (set_heap h w).
Hypothesis R_bulk : ∀ ops s w,
  let wc := if negb (disableWriteConcern store) then w_0 else w_majority in
  R w (add_log (MongoBulkWrite ops wc) w) ∧
  R w (add_log (MongoBulkWrite ops wc) (set_storage s w)).
Hypothesis R_deleteMany : ∀ keys s w,
  let wc := if negb (disableWriteConcern store) then w_0 else w_majority in
  R w (add_log (MongoDeleteMany keys wc) w) ∧
  R w (add_log (MongoDeleteMany keys wc) (set_storage s w)).
Hypothesis R_mongo_ping : ∀ w, R w (add_log MongoPing w).

Lemma redis_request_no_client {A} c (reply : World → A) effect :
  framed R (redis_request (cache store) c reply effect).
Proof. rewrite no_client. fr framed_throw. Qed.

Lemma read_no_client keys : framed R (read store keys).
Proof.
  fr framed_async.
  destruct keys as [|k keys]; [fr framed_ret|].
  assert (∀ ks, framed R (run (readMongo store ks))) as Hmongo
    by (intros ks; fr framed_run; by fr readMongo_framed).
  destruct (isCacheEnabled store).
  - fr framed_bind.
    + fr framed_run. fr framed_async. fr framed_bind.
      * fr framed_map_async. intros k'. unfold get_state.
        fr framed_bind; [apply redis_request_no_client|].
        intros p. fr framed_bind; [fr framed_await|]. intros v. fr framed_ret.
      * intros ps. fr framed_bind; [fr framed_await|].
        intros l. by fr reduce_cached_framed.
    + intros [cached missing]. destruct missing; [fr framed_ret|].
      fr framed_bind; [apply Hmongo|]. intros m. fr framed_ret.
  - fr framed_bind; [apply Hmongo|]. intros m. fr framed_ret.
Qed.

Lemma write_no_client changes : framed R (write store changes).
Proof.
  fr framed_async.
  destruct changes as [|e changes]; [fr framed_ret|].
  fr framed_bind; [fr framed_call; by fr writeMongo_framed|intros p].
  fr framed_bind.
  - destruct (isCacheEnabled store); [|fr framed_ret].
    fr framed_bind; [ |intros q; fr framed_ret].
    fr framed_call. fr framed_async. fr framed_bind.
    + fr framed_map_async. intros [k st]. unfold set_state_of.
      fr framed_bind; [ |intros text].
      { intros w. unfold stringify_value. destruct st; apply frame_refl. }
      fr framed_bind; [apply redis_request_no_client|intros q; fr framed_await].
    + intros ps. fr framed_bind; [fr framed_await|]. intros _. fr framed_ret.
  - intros ps. fr framed_bind; [fr framed_await|]. intros _. fr framed_ret.
Qed.

Lemma delete_no_client_framed keys : framed R (delete store keys).
Proof.
  fr framed_async.
  destruct keys as [|k keys]; [fr framed_ret|].
  fr framed_bind; [ |intros p].
  { fr framed_call. fr framed_async. fr framed_bind.
    - fr framed_map_async. intros k'. unfold del_state.
      fr framed_bind; [apply redis_request_no_client|intros q; fr framed_await].
    - intros ps. fr framed_bind; [fr framed_await|]. intros _. fr framed_ret. }
  fr framed_bind; [fr framed_call; by fr deleteMongo_framed|intros q].
  fr framed_bind; [fr framed_await|]. intros _. fr framed_ret.
Qed.

Lemma health_no_client : framed R (health store).
Proof.
  assert (framed R (redis_ping (rClient store))) as Hping
    by apply redis_request_no_client.
  fr framed_async.
  fr framed_bind; [fr framed_run; fr framed_mongo_request; intros w; apply R_mongo_ping|].
  intros mongoResponse. fr framed_bind; [done|intros _].
  fr framed_bind; [ |intros ping; fr framed_ret].
  destruct (isCacheEnabled store); [|fr framed_ret].
  fr framed_bind; [ |intros r; fr framed_ret].
  fr framed_bind; [done|intros p; fr framed_await].
Qed.

End no_client.

Lemma framed_skips_redis {A} (t : Task A) w :
  framed (λ w w', keeps_cache w w' ∧ issues_only (λ c, ¬ is_redis_call c) w w') t →
  skips_redis t w.
Proof.
  intros H. destruct (H w) as [Hdb (l & Hlog & Hl)].
  split; [done|]. by rewrite (issued_spec _ _ _ Hlog).
Qed.

(** X15: a store without a Redis client sends nothing to Redis, whatever the
    method ([read], [write], [delete], [health]), its arguments and the state of
    the backends, and the cache is left as it is. *)
Theorem no_client_no_redis_call `{rt : Runtime} (store : MongoStore)
    (stateKeys : list string) (changes : StoreItems) (w : World) :
  cache store = None →
  skips_redis (read store stateKeys) w ∧ skips_redis (write store changes) w ∧
  skips_redis (delete store stateKeys) w ∧ skips_redis (health store) w.
Proof.
  intros Hnone.
  assert (∀ c w0 w1, ¬ is_redis_call c → keeps_cache w0 w1 → log w1 = log w0 →
          keeps_cache w0 (add_log c w1) ∧
          issues_only (λ c, ¬ is_redis_call c) w0 (add_log c w1)) as Hstep.
  { intros c w0 w1 Hc Hk Hlog. split; [done|]. exists [c]. simpl. rewrite Hlog.
    split; [done|]. by apply Forall_singleton. }
  assert (∀ w0 w1, keeps_cache w0 w1 → log w1 = log w0 →
          keeps_cache w0 w1 ∧ issues_only (λ c, ¬ is_redis_call c) w0 w1) as Hsame.
  { intros w0 w1 Hk Hlog. split; [done|]. exists []. by rewrite Hlog, app_nil_r. }
  split; [|split; [|split]]; apply framed_skips_redis.
  - apply read_no_client; [tc_solve|done|]. intros keys w0. by apply Hstep; [intros []| |].
  - apply write_no_client; [tc_solve|done| | |].
    + intros n w0. by apply Hsame.
    + intros h w0. by apply Hsame.
    + intros ops s w0. split; by apply Hstep; [intros []| |].
  - apply delete_no_client_framed; [tc_solve|done|].
    intros keys s w0. split; by apply Hstep; [intros []| |].
  - apply health_no_client; [tc_solve|done|]. intros w0. by apply Hstep; [intros []| |].
Qed.

Lemma no_client_no_redis_call_witness :
  skips_redis (@read payload_runtime store_without_redis ["s1"; "s2"]) (fresh_world payload_heap) ∧
  skips_redis (@write payload_runtime store_without_redis (objects two_entries)) (fresh_world payload_heap) ∧
  skips_redis (@delete store_without_redis ["s1"; "s2"]) (fresh_world payload_heap) ∧
  skips_redis (@health store_without_redis) (fresh_world payload_heap).
Proof.
  apply (@no_client_no_redis_call payload_runtime store_without_redis). reflexivity.
Defined.

(** X16: [read] and [health] change no data, whatever the configuration and
    the state of the backends: the caller's objects, the ObjectId counter, the
    documents and the cache are as before. *)
Theorem read_and_health_change_no_data `{rt : Runtime} (store : MongoStore)
    (stateKeys : list string) (w : World) :
  changes_no_data (read store stateKeys) w ∧ changes_no_data (health store) w.
Proof.
  pose (R := λ w w' : World, keeps_heap w w' ∧ keeps_storage w w' ∧ keeps_cache w w').
  assert (∀ c w0, R w0 (add_log c w0)) as Hlog by done.
  assert (∀ A (t : Task A), framed R t → changes_no_data t w) as Hdone.
  { intros A t H. destruct (H w) as ([Hh Ho] & Hs & Hc). by repeat split. }
  split; apply Hdone.
  - apply read_framed; [tc_solve| |]; intros; apply Hlog.
  - apply health_framed; [tc_solve| |]; intros; apply Hlog.
Qed.

(** * Connecting *)

Ltac connect_cases store w :=
  unfold connect, backends_up, connected, first_failure; unfold configured;
  let h := fresh "h" in
  let mu := fresh "mu" in
  let ru := fresh "ru" in
  destruct w as [h ? ? mu ru ? ? ? ? ?];
  destruct (isCacheEnabled store), (rClient store), mu, ru;
  cbv beta iota zeta delta [async bind call then_ await assign mongo_connect
    redis_connect ret Promise_all first_rejection values outcome settled_at
    clock heap set_clock set_heap mongo_up redis_up mongo_latency redis_latency
    max_list fmap list_fmap storage redis_db oid log new_object negb andb orb id
    fst snd];
  rewrite ?lookup_total_insert_eq, ?insert_insert_eq; cbn [set_prop].

(** X17: when the servers the store is set up with are up, [connect] is
    fulfilled once the slower connection is made, with a new object whose
    flags are all 1: [mongo], and [redis] if the cache is set up.  Nothing
    else of the world changes. *)
Theorem connect_fulfilled (store : MongoStore) (w : World) :
  backends_up store w = true →
  ∃ l, heap w !! l = None ∧
       connect store w
       = ({| settled_at := clock w + (if configured store
                                      then mongo_latency w `max` redis_latency w
                                      else mongo_latency w);
             outcome := Resolved l |},
          set_heap (<[l := connected store]> (heap w)) w).
Proof.
  intros H. exists (fresh (dom (heap w))). split; [apply not_elem_of_dom, is_fresh|].
  revert H. connect_cases store w; intros H; try discriminate H.
  all: repeat f_equal; try reflexivity; lia.
Qed.

Lemma connect_fulfilled_witness :
  ∃ l, heap tiers_world !! l = None ∧
       connect store_with_redis tiers_world
       = ({| settled_at := clock tiers_world +
                           (if configured store_with_redis
                            then mongo_latency tiers_world `max` redis_latency tiers_world
                            else mongo_latency tiers_world);
             outcome := Resolved l |},
          set_heap (<[l := connected store_with_redis]> (heap tiers_world)) tiers_world).
Proof. apply (connect_fulfilled store_with_redis tiers_world). reflexivity. Defined.

(** X18: when a server the store is set up with is down, [connect] is
    rejected with the error of the connection that fails first, at the time it
    fails; no response is returned, also if the other connection is made. *)
Theorem connect_rejected (store : MongoStore) (w : World) :
  backends_up store w = false →
  (connect store w).1 = first_failure store w.
Proof.
  connect_cases store w; intros H; try discriminate H.
  all: try (f_equal; lia).
  all: cbn [fst]; repeat case_decide; try case_bool_decide; try lia; f_equal; lia.
Qed.

Lemma connect_rejected_witness :
  (connect store_with_redis (set_redis_up false tiers_world)).1
  = first_failure store_with_redis (set_redis_up false tiers_world).
Proof.
  apply (connect_rejected store_with_redis (set_redis_up false tiers_world)).
  reflexivity.
Defined.

(** X19: [connect] leaves the data as they are, whatever the configuration
    and the state of the servers: the objects of the heap (the response is a
    new one), the ObjectId counter, the documents, the cache. *)
Theorem connect_changes_no_data (store : MongoStore) (w : World) :
  heap w ⊆ heap (connect store w).2 ∧ oid (connect store w).2 = oid w ∧
  storage (connect store w).2 = storage w ∧ redis_db (connect store w).2 = redis_db w.
Proof.
  connect_cases store w; cbn [snd heap oid storage redis_db]; repeat case_decide.
  all: cbn [snd heap oid storage redis_db].
  all: split; [|done].
  all: apply insert_subseteq, not_elem_of_dom, is_fresh.
Qed.

(** The cache is set up, Redis is down: MongoDB is connected to, and the
    caller gets the error of Redis. *)
Example connect_with_redis_down :
  (connect store_with_redis (set_redis_up false tiers_world)).1
  = {| settled_at := 11; outcome := Rejected RedisError |}.
Proof. reflexivity. Qed.

(** * Reading when a tier fails *)

Section read_errors.
Context `{rt : Runtime}.

Lemma readMongo_down store stateKeys w :
  mongo_up w = false →
  readMongo store stateKeys w
  = ({| settled_at := clock w + mongo_latency w; outcome := Rejected MongoError |},
     add_log (MongoFind stateKeys) w).
Proof.
  intros Hup. unfold readMongo, async, run, mongo_find, mongo_request.
  unfold bind at 1. unfold bind at 1. unfold call, await. simpl. rewrite Hup. simpl.
  rewrite Nat.max_r by lia. reflexivity.
Qed.

Lemma reduce_cached_rejects (w0 : World) stateKeys accum missing w :
  Exists (λ k, served w0 k = true ∧ parsed (cached_text w0 k) = None) stateKeys →
  ∃ e, reduce_cached ((λ k, (k, fst <$> redis_db w0 !! k)) <$> stateKeys) accum missing w
       = (Rejected e, w).
Proof.
  intros Hex. revert accum missing.
  induction Hex as [k0 stateKeys [Hs Hbad]|k0 stateKeys _ IH]; intros accum missing;
    rewrite fmap_cons; simpl; fold (served w0 k0).
  - rewrite Hs. unfold bind, lift. fold (cached_text w0 k0). unfold parsed in Hbad.
    destruct (JSON_parse (cached_text w0 k0)) as [j|e]; [done|]. by exists e.
  - destruct (served w0 k0); [|apply IH].
    unfold bind, lift. destruct (JSON_parse _) as [j|e]; [apply IH|by exists e].
Qed.

End read_errors.

(** X20: with the cache enabled and answering, MongoDB down, and a requested
    key without a (truthy) cached value, [read] is rejected with the MongoDB
    error after both round trips: the values that the cache did serve are not
    returned. *)
Theorem read_returns_no_partial_result `{rt : Runtime} (store : MongoStore)
    (c : RedisClient) (stateKeys : list string) (w : World) :
  isCacheEnabled store = true →
  rClient store = Some c →
  redis_up w = true →
  mongo_up w = false →
  Forall (λ k, served w k = true → is_Some (parsed (cached_text w k))) stateKeys →
  filter (λ k, served w k = false) stateKeys ≠ [] →
  (read store stateKeys w).1
  = {| settled_at := clock w + redis_latency w + mongo_latency w;
       outcome := Rejected MongoError |} ∧
  issued (read store stateKeys) w
  = (RedisGet <$> stateKeys) ++ [MongoFind (filter (λ k, served w k = false) stateKeys)].
Proof.
  intros Hen Hc Hrup Hmup Hcached Hmiss.
  assert (stateKeys ≠ []) as Hne by (by intros ->).
  destruct (readRedis_served store c stateKeys w Hc Hrup Hne Hcached)
    as (cached & Hred & Hlook).
  assert (∃ w', read store stateKeys w
                = ({| settled_at := clock w + redis_latency w + mongo_latency w;
                      outcome := Rejected MongoError |}, w') ∧
                log w' = log w ++ (RedisGet <$> stateKeys) ++
                         [MongoFind (filter (λ k, served w k = false) stateKeys)])
    as (w' & Heq & Hlog).
  { unfold read, async, run. destruct stateKeys as [|k0 keys0] eqn:Hkeys; [done|].
    rewrite <-Hkeys in *. rewrite Hen. unfold bind at 1. unfold bind at 1.
    unfold call. rewrite Hred. unfold await. simpl.
    destruct (filter (λ k, served w k = false) stateKeys) as [|m0 ms] eqn:Hm; [done|].
    rewrite <-Hm in *. unfold bind. rewrite readMongo_down by done. simpl.
    eexists. split; [f_equal; f_equal; lia|].
    simpl. by rewrite <-app_assoc. }
  rewrite Heq. split; [done|]. apply issued_spec. by rewrite Heq.
Qed.

Lemma read_returns_no_partial_result_witness :
  (@read tiers_runtime store_with_redis ["a"; "b"] (set_mongo_up false tiers_world)).1
  = {| settled_at := clock (set_mongo_up false tiers_world)
                     + redis_latency (set_mongo_up false tiers_world)
                     + mongo_latency (set_mongo_up false tiers_world);
       outcome := Rejected MongoError |} ∧
  issued (@read tiers_runtime store_with_redis ["a"; "b"]) (set_mongo_up false tiers_world)
  = (RedisGet <$> ["a"; "b"])
    ++ [MongoFind (filter (λ k, served (set_mongo_up false tiers_world) k = false)
                     ["a"; "b"])].
Proof.
  apply (@read_returns_no_partial_result tiers_runtime store_with_redis
           {| redis_options := {| url := "redis://localhost:6380" |} |}).
  - reflexivity.
  - reflexivity.
  - reflexivity.
  - reflexivity.
  - repeat (apply Forall_cons; split); try (by apply Forall_nil);
      vm_compute; intros; try discriminate; eauto.
  - vm_compute. discriminate.
Defined.

(** X21: with the cache enabled and answering, a cached text that does not
    parse makes [read] fail when the lookups have settled, whatever MongoDB
    holds under the key: MongoDB is not asked. *)
Theorem read_of_a_broken_cached_text `{rt : Runtime} (store : MongoStore)
    (c : RedisClient) (stateKeys : list string) (k : string) (w : World) :
  isCacheEnabled store = true →
  rClient store = Some c →
  redis_up w = true →
  k ∈ stateKeys →
  served w k = true →
  parsed (cached_text w k) = None →
  ∃ e, (read store stateKeys w).1
       = {| settled_at := clock w + redis_latency w; outcome := Rejected e |} ∧
       issued (read store stateKeys) w = RedisGet <$> stateKeys.
Proof.
  intros Hen Hc Hrup Hk Hs Hbad.
  assert (stateKeys ≠ []) as Hne by (intros ->; by apply elem_of_nil in Hk).
  destruct (reduce_cached_rejects w stateKeys ∅ []
              (set_clock (clock w `max` (clock w + redis_latency w))
                 (set_log (log w ++ (RedisGet <$> stateKeys)) w))) as [e He].
  { apply Exists_exists. by exists k. }
  exists e.
  assert (read store stateKeys w
          = ({| settled_at := clock w + redis_latency w; outcome := Rejected e |},
             set_log (log w ++ (RedisGet <$> stateKeys)) w)) as Heq.
  { unfold read, async, run. destruct stateKeys as [|k0 keys0] eqn:Hkeys; [done|].
    rewrite <-Hkeys in *. rewrite Hen. unfold bind at 1. unfold bind at 1.
    unfold call, readRedis, async. unfold bind at 1.
    rewrite (map_async_gets _ c) by done.
    unfold bind at 1. unfold await.
    pose proof (Promise_all_resolved stateKeys (clock w + redis_latency w)
                  (λ k, (k, fst <$> redis_db w !! k))) as Hp.
    simpl in Hp. rewrite Hp. simpl. rewrite max_list_uniform by done.
    rewrite He. simpl. f_equal. f_equal. lia. }
  rewrite Heq. split; [done|]. apply issued_spec. by rewrite Heq.
Qed.

Lemma read_of_a_broken_cached_text_witness :
  let w := set_redis_db {[ "a" := ("{oops", 1209600%Z) ]} tiers_world in
  ∃ e, (@read tiers_runtime store_with_redis ["a"; "b"] w).1
       = {| settled_at := clock w + redis_latency w; outcome := Rejected e |} ∧
       issued (@read tiers_runtime store_with_redis ["a"; "b"]) w
       = RedisGet <$> ["a"; "b"].
Proof.
  apply (@read_of_a_broken_cached_text tiers_runtime store_with_redis
           {| redis_options := {| url := "redis://localhost:6380" |} |} ["a"; "b"] "a").
  - reflexivity.
  - reflexivity.
  - reflexivity.
  - apply elem_of_cons. by left.
  - reflexivity.
  - reflexivity.
Defined.
